(** * Quant engine: indicators, risk metrics, backtests, portfolio weights

    A shallow embedding of [backend/indicators.py] (classes
    [TechnicalIndicators] and [QuantitativeAnalysis]) and of the strategy
    dispatch of [backend/app.py].

    Numbers.  A Python float is modelled by [fval]: an exact rational, one
    of the two infinities, or NaN.  The special values follow IEEE 754 as
    numpy and pandas expose them (x/0, inf-inf, comparisons with NaN);
    rounding error of binary64 and the sign of zero are abstracted away, so
    every finite operation is exact.

    Series.  A pandas Series is a [list fval]; the index plays no role in
    the engine (all windows are positional).  Missing values are NaN, as in
    pandas.

    Libraries.  The pandas, numpy and scipy calls of the engine are
    modelled by what they compute with their default arguments (pandas 1.x
    and 2.x without copy-on-write, which the chained assignments and
    [fillna(method='ffill')] of the source need): [rolling] with
    [min_periods = window], [ewm] with [adjust=True], sample statistics
    with [ddof=1], reductions with [skipna=True], [pct_change] with its
    forward fill.  The window passes ([rolling], [expanding], [ewm]) read
    an infinity as a missing value, as pandas prepares their input.  A
    rolling window is evaluated on its own values.  [pct_change] of an
    empty series is the empty series (pandas 2.1 raises ValueError there);
    the statements about backtests take a nonempty series.  [np.sqrt] and
    [np.linalg.pinv] are parameters of the engine.

    Exactness.  Where the program compares a computed float with 0 (the
    zero-volatility guard of [risk_metrics], the division by the sum of
    the raw weights), the outcome in binary64 can differ from the exact
    one when the operands carry rounding error.  The general statements
    below speak of the exact values; the concrete examples are chosen so
    that the compared quantity is computed without rounding error (two
    equal values, constant dyadic columns, the zero matrix). *)

From Stdlib Require Import QArith Qround Qabs ZArith List Bool Lia Lqa.
From Stdlib Require Import Setoid Morphisms PeanoNat.
From Stdlib Require String.
Import String.StringSyntax.
Delimit Scope string_scope with string.
Import ListNotations.
Open Scope Q_scope.

(** ** Floats *)

Inductive fval : Type :=
| Fin (q : Q)
| PInf
| NInf
| NaN.

Definition is_nan (v : fval) : bool :=
  match v with NaN => true | _ => false end.

Definition is_fin (v : fval) : bool :=
  match v with Fin _ => true | _ => false end.

(** Sameness of two floats up to the representation of the rational
    (NaN is the same as NaN here; IEEE comparison is [feqb] below). *)
Definition feq (a b : fval) : Prop :=
  match a, b with
  | Fin x, Fin y => x == y
  | PInf, PInf | NInf, NInf | NaN, NaN => True
  | _, _ => False
  end.

Definition Qlt_bool (x y : Q) : bool := negb (Qle_bool y x).
Definition Qpos_b (x : Q) : bool := Qlt_bool 0 x.
Definition Qneg_b (x : Q) : bool := Qlt_bool x 0.
Definition Qzero_b (x : Q) : bool := Qeq_bool x 0.

Definition fneg (a : fval) : fval :=
  match a with
  | Fin x => Fin (- x)
  | PInf => NInf
  | NInf => PInf
  | NaN => NaN
  end.

Definition fadd (a b : fval) : fval :=
  match a, b with
  | NaN, _ | _, NaN => NaN
  | Fin x, Fin y => Fin (x + y)
  | PInf, NInf | NInf, PInf => NaN
  | PInf, _ | _, PInf => PInf
  | NInf, _ | _, NInf => NInf
  end.

Definition fsub (a b : fval) : fval := fadd a (fneg b).

(** Sign of a float used by multiplication and division: [Some true] for
    positive, [Some false] for negative, [None] for zero. *)
Definition qsign (x : Q) : option bool :=
  if Qpos_b x then Some true else if Qneg_b x then Some false else None.

Definition inf_of (positive : bool) : fval := if positive then PInf else NInf.

Definition fmul (a b : fval) : fval :=
  match a, b with
  | NaN, _ | _, NaN => NaN
  | Fin x, Fin y => Fin (x * y)
  | Fin x, PInf | PInf, Fin x =>
      match qsign x with Some s => inf_of s | None => NaN end
  | Fin x, NInf | NInf, Fin x =>
      match qsign x with Some s => inf_of (negb s) | None => NaN end
  | PInf, PInf | NInf, NInf => PInf
  | PInf, NInf | NInf, PInf => NInf
  end.

(** numpy/pandas division: no exception, x/0 is an infinity (NaN for 0/0). *)
Definition fdiv (a b : fval) : fval :=
  match a, b with
  | NaN, _ | _, NaN => NaN
  | Fin x, Fin y =>
      if Qzero_b y then
        match qsign x with Some s => inf_of s | None => NaN end
      else Fin (x / y)
  | Fin _, PInf | Fin _, NInf => Fin 0
  | PInf, Fin y => if Qneg_b y then NInf else PInf
  | NInf, Fin y => if Qneg_b y then PInf else NInf
  | _, _ => NaN
  end.

(** IEEE comparisons: anything compared with NaN is false, except [!=]. *)
Definition flt (a b : fval) : bool :=
  match a, b with
  | NaN, _ | _, NaN => false
  | Fin x, Fin y => Qlt_bool x y
  | NInf, NInf | PInf, _ => false
  | NInf, _ => true
  | Fin _, PInf => true
  | Fin _, NInf => false
  end.

Definition fgt (a b : fval) : bool := flt b a.
Definition fle (a b : fval) : bool :=
  match a, b with
  | NaN, _ | _, NaN => false
  | _, _ => negb (flt b a)
  end.

Definition feqb (a b : fval) : bool :=
  match a, b with
  | Fin x, Fin y => Qeq_bool x y
  | PInf, PInf | NInf, NInf => true
  | _, _ => false
  end.

Definition fneb (a b : fval) : bool := negb (feqb a b).

Definition fabs (a : fval) : fval :=
  match a with
  | Fin x => Fin (Qabs x)
  | PInf | NInf => PInf
  | NaN => NaN
  end.

Definition f0 : fval := Fin 0.
Definition f1 : fval := Fin 1.
Definition fnat (n : nat) : fval := Fin (inject_Z (Z.of_nat n)).

(** numpy's [sum] of an array: plain left-to-right addition. *)
Definition np_sum (l : list fval) : fval := fold_left fadd l f0.

(** pandas' [sum] (skipna=True): NaN entries are left out. *)
Definition dropna (l : list fval) : list fval :=
  filter (fun v => negb (is_nan v)) l.
Definition pd_sum (l : list fval) : fval := np_sum (dropna l).

(** ** Series combinators *)

Section Combinators.
Context {A B C S : Type}.

(** A left-to-right pass over a series carrying a state: the shape of
    every positional pandas transform used by the engine. *)
Fixpoint scan (step : S -> A -> S * B) (s : S) (xs : list A) : list B :=
  match xs with
  | [] => []
  | x :: r => let '(s', y) := step s x in y :: scan step s' r
  end.

(** Element-wise operation on two index-aligned series. *)
Fixpoint map2 (f : A -> B -> C) (xs : list A) (ys : list B) : list C :=
  match xs, ys with
  | x :: xs', y :: ys' => f x y :: map2 f xs' ys'
  | _, _ => []
  end.
End Combinators.

(** [Series.shift(1)]: every value moves one position down, NaN enters. *)
Definition shift (xs : list fval) : list fval :=
  scan (fun prev x => (x, prev)) NaN xs.

(** [Series.diff()]. *)
Definition diff (xs : list fval) : list fval := map2 fsub xs (shift xs).

(** [Series.where(cond, other)]. *)
Definition where_ (cond : fval -> bool) (other : fval) (xs : list fval)
  : list fval :=
  map (fun x => if cond x then x else other) xs.

(** [Series.fillna(method='ffill')]. *)
Definition ffill (xs : list fval) : list fval :=
  scan (fun last x => let v := if is_nan x then last else x in (v, v)) NaN xs.

(** [Series.pct_change()] with its defaults ([fill_method='pad']): missing
    prices are forward-filled, then [data / data.shift(1) - 1]. *)
Definition pct_change (xs : list fval) : list fval :=
  let data := ffill xs in
  map2 (fun x p => fsub (fdiv x p) f1) data (shift data).

(** [Series.fillna(value)]. *)
Definition fillna (d : fval) (xs : list fval) : list fval :=
  map (fun x => if is_nan x then d else x) xs.

(** [Series.cumprod()] (skipna=True): a NaN position stays NaN and does
    not enter the running product. *)
Definition cumprod (xs : list fval) : list fval :=
  scan (fun acc x => if is_nan x then (acc, NaN)
                     else let p := fmul acc x in (p, p)) f1 xs.

(** [Series.expanding().max()]. *)
Definition fmax (a b : fval) : fval := if flt a b then b else a.
Definition fmin (a b : fval) : fval := if flt b a then b else a.

(** The input of a window pass ([rolling], [expanding], [ewm]) as pandas
    prepares it ([_prep_values]): an infinity is replaced by NaN. *)
Definition inf_to_nan (v : fval) : fval :=
  match v with PInf | NInf => NaN | _ => v end.

Definition prep_values (xs : list fval) : list fval := map inf_to_nan xs.

Definition expanding_max (xs : list fval) : list fval :=
  scan (fun acc x =>
          if is_nan x then (acc, match acc with Some m => m | None => NaN end)
          else let m := match acc with Some m => fmax m x | None => x end in
               (Some m, m)) None (prep_values xs).

(** ** Rolling windows

    [Series.rolling(window=w)] with the default [min_periods = w]: position
    [t] sees the [w] values ending at [t]; the result is NaN while fewer than
    [w] values are available, when [w = 0], and when the window holds a NaN
    (fewer than [min_periods] observations) or an infinity (read as NaN).
    The state of the pass is the history read so far, latest value
    first. *)

Definition window_value (w : nat) (agg : list fval -> fval)
  (hist : list fval) : fval :=
  if (w =? 0)%nat || (length hist <? w)%nat then NaN
  else
    let win := rev (firstn w hist) in
    if existsb is_nan win then NaN else agg win.

Definition rolling_step (w : nat) (agg : list fval -> fval)
  (hist : list fval) (x : fval) : list fval * fval :=
  let hist' := x :: hist in (hist', window_value w agg hist').

Definition rolling (w : nat) (agg : list fval -> fval) (xs : list fval)
  : list fval :=
  scan (rolling_step w agg) [] (prep_values xs).

(** Aggregations of one window without missing values. *)
Definition mean (win : list fval) : fval :=
  fdiv (np_sum win) (fnat (length win)).

Definition sum_sq_dev (win : list fval) : fval :=
  let m := mean win in
  np_sum (map (fun x => fmul (fsub x m) (fsub x m)) win).

(** Sample variance (ddof = 1); NaN when there are not more than [ddof]
    observations. *)
Definition var_sample (win : list fval) : fval :=
  if (length win <=? 1)%nat then NaN
  else fdiv (sum_sq_dev win) (fnat (length win - 1)).

Definition list_min (win : list fval) : fval :=
  match win with [] => NaN | x :: r => fold_left fmin r x end.
Definition list_max (win : list fval) : fval :=
  match win with [] => NaN | x :: r => fold_left fmax r x end.

Definition rolling_mean (w : nat) : list fval -> list fval := rolling w mean.
Definition rolling_min (w : nat) : list fval -> list fval := rolling w list_min.
Definition rolling_max (w : nat) : list fval -> list fval := rolling w list_max.

(** ** Exceptions

    A Python function that can raise returns a [result]. *)

Inductive error : Type :=
| ValueError
| IndexError
| ZeroDivisionError
| LinAlgError.

Inductive result (A : Type) : Type :=
| Ok (a : A)
| Raise (e : error).
Arguments Ok {A} a.
Arguments Raise {A} e.

(** ** Exponentially weighted mean

    [Series.ewm(span=s).mean()] with the pandas defaults [adjust=True],
    [ignore_na=False], [min_periods=0].  pandas keeps the current average
    [weighted] and the total weight [old_wt] of the observations behind it;
    [com = (s-1)/2], [alpha = 1/(1+com)].  A span below 1 is refused with a
    ValueError.  The pass works on the prepared input, in which an
    infinity has become NaN, so [cur] below is finite or NaN. *)

Definition ewm_alpha (span : nat) : Q :=
  1 / (1 + (inject_Z (Z.of_nat span) - 1) / 2).

Record EwmState : Type := mkEwm
  { weighted : fval; old_wt : Q; nobs : nat }.

Definition ewm_step (old_wt_factor new_wt : Q) (st : EwmState) (cur : fval)
  : EwmState * fval :=
  let is_observation := negb (is_nan cur) in
  let nobs' := (nobs st + if is_observation then 1 else 0)%nat in
  let st' :=
    if negb (is_nan (weighted st)) then
      let ow := old_wt st * old_wt_factor in
      if is_observation then
        let wavg :=
          if fneb (weighted st) cur then
            fdiv (fadd (fmul (Fin ow) (weighted st)) (fmul (Fin new_wt) cur))
                 (Fin (ow + new_wt))
          else weighted st in
        {| weighted := wavg; old_wt := ow + new_wt; nobs := nobs' |}
      else {| weighted := weighted st; old_wt := ow; nobs := nobs' |}
    else if is_observation then
      {| weighted := cur; old_wt := old_wt st; nobs := nobs' |}
    else {| weighted := weighted st; old_wt := old_wt st; nobs := nobs' |} in
  (st', if (1 <=? nobs st')%nat then weighted st' else NaN).

Definition ewm_mean (span : nat) (xs : list fval) : result (list fval) :=
  if (span <? 1)%nat then Raise ValueError
  else
    let alpha := ewm_alpha span in
    Ok (scan (ewm_step (1 - alpha) 1)
             {| weighted := NaN; old_wt := 1; nobs := 0 |} (prep_values xs)).

(** ** The engine, over an implementation of the square root

    [np.sqrt] on a finite nonnegative float and [np.linalg.pinv] on a
    finite matrix are library routines; the engine is modelled over any
    implementation of them. *)

Definition matrix := list (list Q).

Section Engine.
Variable fsqrt : Q -> Q.
Variable pinv : matrix -> matrix.

Definition np_sqrt (v : fval) : fval :=
  match v with
  | Fin q => if Qneg_b q then NaN else Fin (fsqrt q)
  | PInf => PInf
  | NInf | NaN => NaN
  end.

(** Sample standard deviation (ddof = 1), as [Series.std()] and
    [rolling(...).std()] compute it. *)
Definition std_sample (win : list fval) : fval := np_sqrt (var_sample win).

Definition rolling_std (w : nat) : list fval -> list fval :=
  rolling w std_sample.

(** *** TechnicalIndicators *)

Definition simple_moving_average (data : list fval) (window : nat)
  : list fval :=
  rolling_mean window data.

Record Bands : Type := mkBands
  { upper : list fval; middle : list fval; lower : list fval }.

Definition bollinger_bands (data : list fval) (window : nat)
  (num_std : fval) : Bands :=
  let ma := rolling_mean window data in
  let std := rolling_std window data in
  {| upper := map2 fadd ma (map (fun s => fmul s num_std) std);
     middle := ma;
     lower := map2 fsub ma (map (fun s => fmul s num_std) std) |}.

Definition exponential_moving_average (data : list fval) (window : nat)
  : result (list fval) :=
  ewm_mean window data.

Definition f100 : fval := Fin 100.

(** The two averaged series of [rsi]: [delta.where(delta > 0, 0)] and
    [-delta.where(delta < 0, 0)], each under [rolling(window).mean()].
    The first delta is NaN and is replaced by 0 by [where]. *)
Definition rsi_gain (data : list fval) (window : nat) : list fval :=
  rolling_mean window (where_ (fun d => fgt d f0) f0 (diff data)).
Definition rsi_loss (data : list fval) (window : nat) : list fval :=
  rolling_mean window (map fneg (where_ (fun d => flt d f0) f0 (diff data))).

Definition rsi (data : list fval) (window : nat) : list fval :=
  let gain := rsi_gain data window in
  let loss := rsi_loss data window in
  let rs := map2 fdiv gain loss in
  map (fun r => fsub f100 (fdiv f100 (fadd f1 r))) rs.

Record Stoch : Type := mkStoch
  { k_percent : list fval; d_percent : list fval }.

Definition stochastic_oscillator (high low close : list fval)
  (k_window d_window : nat) : Stoch :=
  let lowest_low := rolling_min k_window low in
  let highest_high := rolling_max k_window high in
  let k := map (fmul f100)
             (map2 fdiv (map2 fsub close lowest_low)
                        (map2 fsub highest_high lowest_low)) in
  {| k_percent := k; d_percent := rolling_mean d_window k |}.

(** Row-wise [max(axis=1)] of three aligned columns, skipping NaN. *)
Definition row_max3 (a b c : fval) : fval :=
  match dropna [a; b; c] with
  | [] => NaN
  | x :: r => fold_left fmax r x
  end.

Fixpoint map3 (f : fval -> fval -> fval -> fval) (xs ys zs : list fval)
  : list fval :=
  match xs, ys, zs with
  | x :: xs', y :: ys', z :: zs' => f x y z :: map3 f xs' ys' zs'
  | _, _, _ => []
  end.

Definition atr (high low close : list fval) (window : nat) : list fval :=
  let tr1 := map2 fsub high low in
  let tr2 := map fabs (map2 fsub high (shift close)) in
  let tr3 := map fabs (map2 fsub low (shift close)) in
  let tr := map3 row_max3 tr1 tr2 tr3 in
  rolling_mean window tr.

(** *** QuantitativeAnalysis.risk_metrics *)

(** Python's [round(x, 4)] on a float: to the nearest multiple of 1e-4,
    ties to the even one; infinities and NaN pass through. *)
Definition round_half_even (q : Q) : Z :=
  let f := Qfloor q in
  match Qcompare (q - inject_Z f) (1 # 2) with
  | Lt => f
  | Gt => (f + 1)%Z
  | Eq => if Z.even f then f else (f + 1)%Z
  end.

Definition round4 (v : fval) : fval :=
  match v with
  | Fin q => Fin (round_half_even (q * 10000) # 10000)
  | _ => v
  end.

(** [Series.min()] (skipna=True). *)
Definition pd_min (l : list fval) : fval := list_min (dropna l).

(** Ascending sort of an array without NaN. *)
Fixpoint insert_sorted (x : fval) (l : list fval) : list fval :=
  match l with
  | [] => [x]
  | y :: r => if flt y x then y :: insert_sorted x r else x :: l
  end.
Definition sort_asc (l : list fval) : list fval :=
  fold_right insert_sorted [] l.

(** numpy's linear interpolation between two neighbours. *)
Definition lerp (a b : fval) (t : Q) : fval :=
  let diff_b_a := fsub b a in
  if Qle_bool (1 # 2) t then fsub b (fmul diff_b_a (Fin (1 - t)))
  else fadd a (fmul diff_b_a (Fin t)).

(** [np.percentile(a, q)], method 'linear', on a nonempty array. *)
Definition np_percentile (a : list fval) (q : Q) : fval :=
  let n := length a in
  let srt := sort_asc a in
  let virtual_index := inject_Z (Z.of_nat (n - 1)) * (q / 100) in
  let previous := Z.to_nat (Qfloor virtual_index) in
  let next := Nat.min (previous + 1) (n - 1) in
  let gamma := virtual_index - inject_Z (Qfloor virtual_index) in
  lerp (nth previous srt NaN) (nth next srt NaN) gamma.

(** Central moment of order [k] (biased), as scipy's [_moment]. *)
Fixpoint fpow (x : fval) (k : nat) : fval :=
  match k with O => f1 | S k' => fmul x (fpow x k') end.

Definition moment (a : list fval) (k : nat) : fval :=
  let m := mean a in
  mean (map (fun x => fpow (fsub x m) k) a).

(** scipy's guard against a (numerically) constant sample:
    [m2 <= (finfo.resolution * mean)**2], resolution = 1e-15. *)
Definition moment_zero (a : list fval) : bool :=
  let r := fmul (Fin (1 # 1000000000000000)) (mean a) in
  fle (moment a 2) (fmul r r).

(** [scipy.stats.skew(a)]: m3 / m2**1.5, NaN on a constant sample. *)
Definition stats_skew (a : list fval) : fval :=
  let m2 := moment a 2 in
  if moment_zero a then NaN
  else fdiv (moment a 3) (fmul m2 (np_sqrt m2)).

(** [scipy.stats.kurtosis(a)] (Fisher): m4 / m2**2 - 3. *)
Definition stats_kurtosis (a : list fval) : fval :=
  let m2 := moment a 2 in
  fsub (if moment_zero a then NaN else fdiv (moment a 4) (fmul m2 m2))
       (Fin 3).

Record RiskMetrics : Type := mkRisk
  { annual_return : fval;
    annual_volatility : fval;
    sharpe_ratio : fval;
    max_drawdown : fval;
    var_95 : fval;
    skewness : fval;
    kurtosis : fval }.

Definition f252 : fval := Fin 252.

(** The guard [annual_volatility != 0] compares a computed float with 0.
    Here the volatility of equal returns is exactly 0; in binary64 it is
    exactly 0 when the deviations from the mean are computed without
    rounding (two equal returns, or returns whose sum is exact), and can
    be a tiny positive number otherwise, in which case the program
    divides. *)
Definition risk_metrics (returns : list fval) : RiskMetrics :=
  let clean_returns := dropna returns in
  if (length clean_returns =? 0)%nat then
    {| annual_return := f0; annual_volatility := f0; sharpe_ratio := f0;
       max_drawdown := f0; var_95 := f0; skewness := f0; kurtosis := f0 |}
  else
    let annual_return := fmul (mean clean_returns) f252 in
    let annual_volatility :=
      fmul (std_sample clean_returns) (np_sqrt f252) in
    let sharpe_ratio :=
      if fneb annual_volatility f0
      then fdiv annual_return annual_volatility else f0 in
    let cumulative_returns := cumprod (map (fadd f1) clean_returns) in
    let rolling_max := expanding_max cumulative_returns in
    let drawdown :=
      map2 fdiv (map2 fsub cumulative_returns rolling_max) rolling_max in
    let max_drawdown := pd_min drawdown in
    let var_95 := np_percentile clean_returns 5 in
    let skewness := stats_skew clean_returns in
    let kurtosis := stats_kurtosis clean_returns in
    {| annual_return := round4 annual_return;
       annual_volatility := round4 annual_volatility;
       sharpe_ratio := round4 sharpe_ratio;
       max_drawdown := round4 max_drawdown;
       var_95 := round4 var_95;
       skewness := round4 skewness;
       kurtosis := round4 kurtosis |}.

(** *** Backtests

    The frame returned by a backtest; the indicator columns
    ([short_ma], [long_ma], [rsi]) are present in the variant that
    computes them. *)
Record BacktestResult : Type := mkBacktest
  { price : list fval;
    short_ma_col : option (list fval);
    long_ma_col : option (list fval);
    rsi_col : option (list fval);
    signal : list fval;
    positions : list fval;
    returns : list fval;
    strategy_returns : list fval;
    cumulative_returns : list fval;
    cumulative_strategy_returns : list fval }.

(** [signals['signal'][short_window:] = np.where(...)]: the column is 0
    before [short_window] and the comparison of the two averages from
    there on. *)
Definition crossover_signal (data : list fval)
  (short_window long_window : nat) : list fval :=
  let short_ma := rolling_mean short_window data in
  let long_ma := rolling_mean long_window data in
  let signal0 := map (fun _ => f0) data in
  firstn short_window signal0 ++
  map2 (fun s l => if fgt s l then f1 else f0)
       (skipn short_window short_ma) (skipn short_window long_ma).

(** The slice assignment raises ValueError when [short_window] is larger
    than the length of the series: pandas gives a slice that starts beyond
    the end a negative length, which differs from the length 0 of the
    assigned array. *)
Definition backtest_simple_strategy (data : list fval)
  (short_window long_window : nat) : result BacktestResult :=
  let short_ma := rolling_mean short_window data in
  let long_ma := rolling_mean long_window data in
  if (length data <? short_window)%nat then Raise ValueError
  else
    let signal := crossover_signal data short_window long_window in
    let positions := diff signal in
    let returns := pct_change data in
    let strategy_returns := map2 fmul (shift signal) returns in
    Ok {| price := data;
          short_ma_col := Some short_ma;
          long_ma_col := Some long_ma;
          rsi_col := None;
          signal := signal;
          positions := positions;
          returns := returns;
          strategy_returns := strategy_returns;
          cumulative_returns := cumprod (map (fadd f1) returns);
          cumulative_strategy_returns :=
            cumprod (map (fadd f1) strategy_returns) |}.

Definition backtest_rsi_strategy (data : list fval) (rsi_period : nat)
  (oversold overbought : fval) : BacktestResult :=
  let rsi := rsi data rsi_period in
  let signal :=
    map (fun r => if flt r oversold then f1
                  else if fgt r overbought then f0 else NaN) rsi in
  let signal := fillna f0 (ffill signal) in
  let positions := diff signal in
  let returns := pct_change data in
  let strategy_returns := map2 fmul (shift signal) returns in
  {| price := data;
     short_ma_col := None;
     long_ma_col := None;
     rsi_col := Some rsi;
     signal := signal;
     positions := positions;
     returns := returns;
     strategy_returns := strategy_returns;
     cumulative_returns := cumprod (map (fadd f1) returns);
     cumulative_strategy_returns :=
       cumprod (map (fadd f1) strategy_returns) |}.

(** [positions.iloc[0] = 1.0] raises IndexError on an empty series. *)
Definition backtest_buy_and_hold (data : list fval)
  : result BacktestResult :=
  let signal := map (fun _ => f1) data in
  let positions := map (fun _ => f0) data in
  match positions with
  | [] => Raise IndexError
  | _ :: rest =>
      let positions := f1 :: rest in
      let returns := pct_change data in
      let strategy_returns := returns in
      Ok {| price := data;
            short_ma_col := None;
            long_ma_col := None;
            rsi_col := None;
            signal := signal;
            positions := positions;
            returns := returns;
            strategy_returns := strategy_returns;
            cumulative_returns := cumprod (map (fadd f1) returns);
            cumulative_strategy_returns :=
              cumprod (map (fadd f1) strategy_returns) |}
  end.

(** The three variants as the request layer selects them
    ([backtest_strategy] in app.py).  Windows and periods are natural
    numbers; a negative one, which pandas refuses, is not modelled. *)
Inductive strategy : Type :=
| MovingAverage (ma_short ma_long : nat)
| RsiThreshold (rsi_period : nat) (rsi_oversold rsi_overbought : Q)
| BuyAndHold.

Definition run_backtest (s : strategy) (data : list fval)
  : result BacktestResult :=
  match s with
  | MovingAverage ma_short ma_long =>
      backtest_simple_strategy data ma_short ma_long
  | RsiThreshold rsi_period rsi_oversold rsi_overbought =>
      Ok (backtest_rsi_strategy data rsi_period
            (Fin rsi_oversold) (Fin rsi_overbought))
  | BuyAndHold => backtest_buy_and_hold data
  end.

(** *** Portfolio optimisation

    [returns_data] is a frame: named columns of equal length, without
    missing values. *)
Definition frame := list (String.string * list Q).

Definition col_values (c : String.string * list Q) : list fval :=
  map Fin (snd c).

Definition n_rows (df : frame) : nat :=
  match df with [] => O | c :: _ => length (snd c) end.

(** [DataFrame.cov()]: sample covariance (ddof = 1) of every pair of
    columns. *)
Definition cov_pair (x y : list fval) : fval :=
  if (length x <=? 1)%nat then NaN
  else
    let mx := mean x in
    let my := mean y in
    fdiv (np_sum (map2 (fun a b => fmul (fsub a mx) (fsub b my)) x y))
         (fnat (length x - 1)).

Definition cov (df : frame) : list (list fval) :=
  map (fun ci => map (fun cj => cov_pair (col_values ci) (col_values cj)) df)
      df.

(** The finite entries of an array, or [None] if one is not finite
    (the SVD behind [pinv] then fails to converge: LinAlgError). *)
Fixpoint finite_row (r : list fval) : option (list Q) :=
  match r with
  | [] => Some []
  | Fin q :: r' =>
      match finite_row r' with Some l => Some (q :: l) | None => None end
  | _ => None
  end.

Fixpoint finite_matrix (m : list (list fval)) : option matrix :=
  match m with
  | [] => Some []
  | r :: m' =>
      match finite_row r, finite_matrix m' with
      | Some r', Some m'' => Some (r' :: m'')
      | _, _ => None
      end
  end.

(** [M @ ones]. *)
Definition matvec_ones (m : matrix) : list fval :=
  map (fun row => np_sum (map (fun q => fmul (Fin q) f1) row)) m.

Definition portfolio_weights (df : frame) (method : String.string)
  : result (list fval) :=
  if String.eqb method "equal_weight"%string then
    let n_assets := length df in
    if (n_assets =? 0)%nat then Raise ZeroDivisionError
    else Ok (repeat (fdiv f1 (fnat n_assets)) n_assets)
  else if String.eqb method "risk_parity"%string then
    let volatilities := map (fun c => std_sample (col_values c)) df in
    let inv_vol := map (fdiv f1) volatilities in
    Ok (map (fun v => fdiv v (pd_sum inv_vol)) inv_vol)
  else if String.eqb method "minimum_variance"%string then
    match finite_matrix (cov df) with
    | None => Raise LinAlgError
    | Some cov_matrix =>
        let inv_cov := pinv cov_matrix in
        let weights := matvec_ones inv_cov in
        Ok (map (fun w => fdiv w (np_sum weights)) weights)
    end
  else Raise ValueError.

Record Portfolio : Type := mkPortfolio
  { weights : list (String.string * fval);
    metrics : RiskMetrics;
    portfolio_returns : list fval }.

(** [(returns_data * weights).sum(axis=1)]: per row, the sum over the
    columns (skipna=True) of return times weight. *)
Definition weighted_row_sums (df : frame) (ws : list fval) : list fval :=
  map (fun i =>
         pd_sum (map2 (fun c w => fmul (nth i (col_values c) NaN) w) df ws))
      (seq 0 (n_rows df)).

Definition portfolio_optimization (returns_data : frame)
  (method : String.string) : result Portfolio :=
  match portfolio_weights returns_data method with
  | Raise e => Raise e
  | Ok ws =>
      let portfolio_returns := weighted_row_sums returns_data ws in
      let portfolio_risk := risk_metrics portfolio_returns in
      Ok {| weights := combine (map fst returns_data) ws;
            metrics := portfolio_risk;
            portfolio_returns := portfolio_returns |}
  end.

End Engine.

(** ** Reference implementations of the two library routines

    Used where the engine is run on concrete data. *)

(** The square root of a nonnegative rational n/d (in lowest terms),
    rounded down to a multiple of 1/(d 2^64): exact when the root is
    rational, below the root by a relative error under 2^-64 (less than
    the rounding of binary64) otherwise. *)
Definition sqrt_floor (q : Q) : Q :=
  let r := Qred q in
  Qred (Z.sqrt (Qnum r * Zpos (Qden r) * 2 ^ 128) # (Qden r * 2 ^ 64)).

Definition qdot (u v : list Q) : Q := fold_left Qplus (map2 Qmult u v) 0.
Definition qscale (k : Q) (v : list Q) : list Q := map (Qmult k) v.
Definition qvadd (u v : list Q) : list Q := map2 Qplus u v.
Definition qvsub (u v : list Q) : list Q := map2 Qminus u v.
Definition qlincomb (ks : list Q) (vs : matrix) (dim : nat) : list Q :=
  fold_left qvadd (map2 qscale ks vs) (repeat 0 dim).

Definition n_cols (a : matrix) : nat :=
  match a with [] => O | r :: _ => length r end.
Definition transpose (a : matrix) : matrix :=
  map (fun j => map (fun row => nth j row 0) a) (seq 0 (n_cols a)).
Definition matmul (a b : matrix) : matrix :=
  map (fun row => map (fun col => qdot row col) (transpose b)) a.

(** Greville's column recursion for the Moore-Penrose pseudoinverse: the
    state is the columns read so far and the pseudoinverse of the matrix
    they form (one row per column).  The result is the exact
    pseudoinverse; [np.linalg.pinv] computes it in binary64 through a
    singular value decomposition and agrees with it up to rounding, and
    exactly on the zero matrix.  A sum of raw weights that is 0 here and
    comes from cancelling nonzero entries is therefore not relied on in
    the examples. *)
Definition greville_step (dim : nat) (st : matrix * matrix) (a : list Q)
  : matrix * matrix :=
  let '(cols, p) := st in
  let d := map (fun prow => qdot prow a) p in
  let c := qvsub a (qlincomb d cols dim) in
  let b :=
    if forallb Qzero_b c
    then qscale (/ (1 + qdot d d)) (qlincomb d p dim)
    else qscale (/ qdot c c) c in
  (cols ++ [a], map2 (fun prow dj => qvsub prow (qscale dj b)) p d ++ [b]).

Definition pinv_greville (a : matrix) : matrix :=
  map (map Qred)
      (snd (fold_left (greville_step (length a)) (transpose a) ([], []))).

(** The four Penrose equations, which determine the pseudoinverse. *)
Definition matrix_eqb (a b : matrix) : bool :=
  (length a =? length b)%nat &&
  forallb (fun rr => (length (fst rr) =? length (snd rr))%nat &&
                     forallb (fun xy => Qeq_bool (fst xy) (snd xy))
                             (combine (fst rr) (snd rr)))
          (combine a b).

Definition penrose (a p : matrix) : bool :=
  matrix_eqb (matmul (matmul a p) a) a &&
  matrix_eqb (matmul (matmul p a) p) p &&
  matrix_eqb (transpose (matmul a p)) (matmul a p) &&
  matrix_eqb (transpose (matmul p a)) (matmul p a).

(** ** Vocabulary of the statements *)

(** A finite nonnegative float. *)
Definition fin_nonneg (v : fval) : Prop :=
  match v with Fin q => 0 <= q | _ => False end.

(** A float that is missing or finite and nonnegative. *)
Definition nonneg_or_nan (v : fval) : Prop :=
  match v with Fin q => 0 <= q | NaN => True | _ => False end.

(** A float that is missing or finite. *)
Definition fin_or_nan (v : fval) : Prop :=
  match v with Fin _ | NaN => True | _ => False end.

(** The RSI formula at one position, from the two trailing averages. *)
Definition rsi_point (gain loss : fval) : fval :=
  fsub f100 (fdiv f100 (fadd f1 (fdiv gain loss))).

(** A float with at most four decimals: a multiple of 1/10000, or an
    infinity or NaN. *)
Definition rounded4 (v : fval) : Prop :=
  match v with
  | Fin q => exists k : Z, q == k # 10000
  | _ => True
  end.

(** Frames used as examples: two assets with constant returns (their
    covariance matrix is the zero matrix, so is its pseudoinverse, and the
    raw minimum-variance weights are 0; the returns are dyadic, so that
    the covariance is 0 without rounding), two perfectly correlated assets
    (singular covariance), two assets of which the more volatile one
    follows the other closely, and two assets of which one has a constant
    return. *)
Definition flat_assets : frame :=
  [("A"%string, [1 # 4; 1 # 4]); ("B"%string, [1 # 2; 1 # 2])].
Definition correlated_assets : frame :=
  [("A"%string, [1 # 100; -1 # 100]); ("B"%string, [2 # 100; -2 # 100])].
Definition leveraged_assets : frame :=
  [("A"%string, [1 # 100; -1 # 100; 0]);
   ("B"%string, [3 # 100; -1 # 100; -2 # 100])].
Definition constant_asset : frame :=
  [("A"%string, [1 # 100; 1 # 100]); ("B"%string, [-1 # 100; 1 # 100])].

(** The state a pass is in after reading a series. *)
Definition scan_final {A B S : Type} (step : S -> A -> S * B) (s : S)
  (xs : list A) : S :=
  fold_left (fun st x => fst (step st x)) xs s.

(** *** The bias-adjusted exponential average, in the words of the
    specification: the sum of x[0..t] weighted by (1-alpha)^(t-i), divided
    by the sum of those weights. *)
Fixpoint qpow (b : Q) (n : nat) : Q :=
  match n with O => 1 | S k => b * qpow b k end.

Definition qsum (l : list Q) : Q := fold_right Qplus 0 l.

Definition ema_weight (alpha : Q) (t i : nat) : Q := qpow (1 - alpha) (t - i).

Definition ema_weighted_sum (alpha : Q) (xs : list Q) (t : nat) : Q :=
  qsum (map (fun i => ema_weight alpha t i * nth i xs 0) (seq 0 (S t))).

Definition ema_weight_total (alpha : Q) (t : nat) : Q :=
  qsum (map (fun i => ema_weight alpha t i) (seq 0 (S t))).

Definition ema_bias_adjusted (alpha : Q) (xs : list Q) (t : nat) : Q :=
  ema_weighted_sum alpha xs t / ema_weight_total alpha t.

(** The other convention: the recurrence
    ema[t] = alpha x[t] + (1-alpha) ema[t-1] seeded with ema[0] = x[0]. *)
Fixpoint ema_seeded (alpha : Q) (xs : list Q) (t : nat) : Q :=
  match t with
  | O => nth 0 xs 0
  | S k => alpha * nth t xs 0 + (1 - alpha) * ema_seeded alpha xs k
  end.

(** The two sums as recurrences in [t]. *)
Fixpoint wsum_rec (beta : Q) (xs : list Q) (t : nat) : Q :=
  match t with
  | O => nth 0 xs 0
  | S k => nth t xs 0 + beta * wsum_rec beta xs k
  end.

Fixpoint wtot_rec (beta : Q) (t : nat) : Q :=
  match t with
  | O => 1
  | S k => 1 + beta * wtot_rec beta k
  end.

(** ** The rest of the engine and the request layer around it *)

(** [Series.cumsum()] (skipna=True): a NaN position stays NaN and does not
    enter the running sum. *)
Definition cumsum (xs : list fval) : list fval :=
  scan (fun acc x => if is_nan x then (acc, NaN)
                     else let p := fadd acc x in (p, p)) f0 xs.

(** [np.sign]. *)
Definition np_sign (v : fval) : fval :=
  match v with
  | Fin q =>
      match qsign q with
      | Some true => Fin 1
      | Some false => Fin (-1)
      | None => Fin 0
      end
  | PInf => Fin 1
  | NInf => Fin (-1)
  | NaN => NaN
  end.

Record Macd : Type := mkMacd
  { macd_line : list fval; signal_line : list fval; histogram : list fval }.

(** [TechnicalIndicators.macd]: each [ewm(span=...)] refuses a span below 1. *)
Definition macd (data : list fval)
  (fast_period slow_period signal_period : nat) : result Macd :=
  match ewm_mean fast_period data with
  | Raise e => Raise e
  | Ok ema_fast =>
      match ewm_mean slow_period data with
      | Raise e => Raise e
      | Ok ema_slow =>
          let macd_line := map2 fsub ema_fast ema_slow in
          match ewm_mean signal_period macd_line with
          | Raise e => Raise e
          | Ok signal_line =>
              Ok {| macd_line := macd_line;
                    signal_line := signal_line;
                    histogram := map2 fsub macd_line signal_line |}
          end
      end
  end.

Record VolumeIndicators : Type := mkVolume
  { vwap : list fval; obv : list fval }.

(** [TechnicalIndicators.volume_indicators]. *)
Definition volume_indicators (price volume : list fval) : VolumeIndicators :=
  let typical_price := price in
  {| vwap := map2 fdiv (cumsum (map2 fmul typical_price volume))
                       (cumsum volume);
     obv := cumsum (map2 fmul (map np_sign (diff price)) volume) |}.

(** [QuantitativeAnalysis.calculate_returns], over an implementation
    [flog] of the logarithm of a positive float. *)
Definition np_log (flog : Q -> Q) (v : fval) : fval :=
  match v with
  | Fin q => if Qneg_b q then NaN else if Qzero_b q then NInf
             else Fin (flog q)
  | PInf => PInf
  | NInf | NaN => NaN
  end.

Definition calculate_returns (flog : Q -> Q) (data : list fval)
  (method : String.string) : result (list fval) :=
  if String.eqb method "simple"%string then Ok (pct_change data)
  else if String.eqb method "log"%string then
    Ok (map (np_log flog) (map2 fdiv data (shift data)))
  else Raise ValueError.

(** The request layer ([app.py]).  [get_technical_indicators] returns the
    RSI of the closing prices with its default window and 50 in the
    undefined positions; [backtest_strategy] counts the trades as the sum
    of the absolute position changes and returns the two cumulative curves
    with 1 in the undefined positions. *)
Definition indicators_rsi (close : list fval) : list fval :=
  fillna (Fin 50) (rsi close 14).

Definition trades (r : BacktestResult) : fval :=
  pd_sum (map fabs (positions r)).

Definition strategy_equity (r : BacktestResult) : list fval :=
  fillna f1 (cumulative_strategy_returns r).

Definition benchmark_equity (r : BacktestResult) : list fval :=
  fillna f1 (cumulative_returns r).

(** The direction of a price move, as a number: 1 up, -1 down, 0 flat. *)
Definition price_sign (prev p : Q) : Q :=
  if Qlt_bool prev p then 1 else if Qlt_bool p prev then - (1) else 0.

(** A float that is 0 or 1. *)
Definition is_position (v : fval) : Prop := v = f0 \/ v = f1.

(** Whether the slice assignment of the moving-average backtest goes
    through on a series of [n] bars; the other variants have none. *)
Definition short_window_fits (s : strategy) (n : nat) : bool :=
  match s with
  | MovingAverage ma_short _ => (ma_short <=? n)%nat
  | _ => true
  end.

(** A rational between two bounds. *)
Definition within (lo hi x : Q) : Prop := lo <= x /\ x <= hi.

(** * Properties *)

(** ** Floats *)

Lemma feq_refl (a : fval) : feq a a.
Proof. destruct a; simpl; auto. reflexivity. Qed.

Lemma feq_sym (a b : fval) : feq a b -> feq b a.
Proof. destruct a, b; simpl; auto. intros H; symmetry; exact H. Qed.

Lemma feq_trans (a b c : fval) : feq a b -> feq b c -> feq a c.
Proof.
  destruct a, b, c; simpl; auto; try contradiction.
  intros H1 H2; rewrite H1; exact H2.
Qed.

#[export] Instance feq_Equivalence : Equivalence feq.
Proof.
  split; [exact feq_refl | exact feq_sym | exact feq_trans].
Qed.

Lemma Qlt_bool_iff (x y : Q) : Qlt_bool x y = true <-> x < y.
Proof.
  unfold Qlt_bool. rewrite negb_true_iff.
  split; intros H.
  - apply Qnot_le_lt. intros Hle. apply Qle_bool_iff in Hle. congruence.
  - destruct (Qle_bool y x) eqn:E; auto.
    apply Qle_bool_iff in E. exfalso. apply (Qlt_not_le _ _ H E).
Qed.

Lemma Qlt_bool_false (x y : Q) : Qlt_bool x y = false <-> y <= x.
Proof.
  unfold Qlt_bool. rewrite negb_false_iff. apply Qle_bool_iff.
Qed.

Lemma Qzero_b_iff (x : Q) : Qzero_b x = true <-> x == 0.
Proof. unfold Qzero_b. apply Qeq_bool_iff. Qed.

Lemma Qzero_b_false (x : Q) : Qzero_b x = false <-> ~ x == 0.
Proof.
  unfold Qzero_b. split; intros H.
  - intros E. apply Qeq_bool_iff in E. congruence.
  - destruct (Qeq_bool x 0) eqn:E; auto.
    apply Qeq_bool_iff in E. contradiction.
Qed.

Lemma qsign_pos (x : Q) : 0 < x -> qsign x = Some true.
Proof.
  intros H. unfold qsign, Qpos_b.
  apply Qlt_bool_iff in H. rewrite H. reflexivity.
Qed.

Lemma qsign_zero (x : Q) : x == 0 -> qsign x = None.
Proof.
  intros H. unfold qsign, Qpos_b, Qneg_b.
  assert (H1 : Qlt_bool 0 x = false) by (apply Qlt_bool_false; lra).
  assert (H2 : Qlt_bool x 0 = false) by (apply Qlt_bool_false; lra).
  rewrite H1, H2. reflexivity.
Qed.

(** ** Series combinators *)

Section CombinatorFacts.
Context {A B C S : Type}.
Implicit Types (step : S -> A -> S * B) (f : A -> B -> C).

Lemma scan_length step s xs : length (scan step s xs) = length xs.
Proof.
  revert s; induction xs as [|x r IH]; intros s; simpl; auto.
  destruct (step s x) as [s' y]. simpl. now rewrite IH.
Qed.

Lemma firstn_scan step n s xs :
  firstn n (scan step s xs) = scan step s (firstn n xs).
Proof.
  revert n s; induction xs as [|x r IH]; intros [|n] s; simpl; auto.
  destruct (step s x) as [s' y]. simpl. now rewrite IH.
Qed.

Lemma map2_length f xs ys :
  length (map2 f xs ys) = Nat.min (length xs) (length ys).
Proof.
  revert ys; induction xs as [|x r IH]; intros [|y ys]; simpl; auto.
Qed.

Lemma firstn_map2 f n xs ys :
  firstn n (map2 f xs ys) = map2 f (firstn n xs) (firstn n ys).
Proof.
  revert n ys; induction xs as [|x r IH]; intros [|n] [|y ys]; simpl; auto.
  now rewrite IH.
Qed.

Lemma nth_map2 f xs ys t dx dy dz :
  (t < length xs)%nat -> (t < length ys)%nat ->
  nth t (map2 f xs ys) dz = f (nth t xs dx) (nth t ys dy).
Proof.
  revert t ys; induction xs as [|x r IH]; intros t [|y ys]; simpl;
    try lia.
  destruct t; auto. intros H1 H2. apply IH; lia.
Qed.

Lemma skipn_map2 f n xs ys :
  skipn n (map2 f xs ys) = map2 f (skipn n xs) (skipn n ys).
Proof.
  revert xs ys; induction n as [|n IH]; intros [|x xs] [|y ys]; simpl; auto.
  now destruct (skipn n xs).
Qed.
End CombinatorFacts.

Lemma shift_length (xs : list fval) : length (shift xs) = length xs.
Proof. apply scan_length. Qed.

Lemma nth_shift_aux (p : fval) (xs : list fval) (t : nat) :
  (S t < length xs)%nat ->
  nth (S t) (scan (fun prev x => (x, prev)) p xs) NaN = nth t xs NaN.
Proof.
  revert p t; induction xs as [|x r IH]; intros p t; simpl; [lia|].
  intros H. destruct r as [|y r']; simpl in *; [lia|].
  destruct t; auto.
  apply (IH x t). simpl. lia.
Qed.

Lemma nth_shift_S (xs : list fval) (t : nat) :
  (S t < length xs)%nat -> nth (S t) (shift xs) NaN = nth t xs NaN.
Proof. apply nth_shift_aux. Qed.

Lemma nth_shift_0 (xs : list fval) : nth 0 (shift xs) NaN = NaN.
Proof. destruct xs; reflexivity. Qed.

Lemma firstn_shift (n : nat) (xs : list fval) :
  firstn n (shift xs) = shift (firstn n xs).
Proof. apply firstn_scan. Qed.

Lemma diff_length (xs : list fval) : length (diff xs) = length xs.
Proof. unfold diff. rewrite map2_length, shift_length. lia. Qed.

Lemma ffill_length (xs : list fval) : length (ffill xs) = length xs.
Proof. apply scan_length. Qed.

Lemma firstn_ffill (n : nat) (xs : list fval) :
  firstn n (ffill xs) = ffill (firstn n xs).
Proof. apply firstn_scan. Qed.

(** Forward filling leaves a series without missing values as it is. *)
Lemma ffill_Fin (l : list Q) : ffill (map Fin l) = map Fin l.
Proof.
  unfold ffill. generalize NaN.
  induction l as [|x l IH]; intros last; simpl; auto. now rewrite IH.
Qed.

Lemma pct_change_length (xs : list fval) : length (pct_change xs) = length xs.
Proof.
  unfold pct_change. rewrite map2_length, shift_length, ffill_length. lia.
Qed.

Lemma prep_values_length (xs : list fval) :
  length (prep_values xs) = length xs.
Proof. apply length_map. Qed.

Lemma firstn_prep_values (n : nat) (xs : list fval) :
  firstn n (prep_values xs) = prep_values (firstn n xs).
Proof. unfold prep_values. now rewrite firstn_map. Qed.

(** Preparation changes nothing in a series without infinities. *)
Lemma prep_values_fin_or_nan (xs : list fval) :
  Forall fin_or_nan xs -> prep_values xs = xs.
Proof.
  intros H. induction H as [|x xs Hx _ IH]; simpl; auto.
  rewrite IH. now destruct x.
Qed.

Lemma prep_values_Fin (l : list Q) : prep_values (map Fin l) = map Fin l.
Proof. induction l as [|x l IH]; simpl; auto. now rewrite IH. Qed.

Lemma prep_values_repeat_nan (n : nat) :
  prep_values (repeat NaN n) = repeat NaN n.
Proof. induction n; simpl; auto. now rewrite IHn. Qed.

Lemma firstn_diff (n : nat) (xs : list fval) :
  firstn n (diff xs) = diff (firstn n xs).
Proof. unfold diff. now rewrite firstn_map2, firstn_shift. Qed.

Lemma firstn_pct_change (n : nat) (xs : list fval) :
  firstn n (pct_change xs) = pct_change (firstn n xs).
Proof.
  unfold pct_change. now rewrite firstn_map2, firstn_shift, firstn_ffill.
Qed.

Lemma nth_diff_S (xs : list fval) (t : nat) :
  (S t < length xs)%nat ->
  nth (S t) (diff xs) NaN = fsub (nth (S t) xs NaN) (nth t xs NaN).
Proof.
  intros H. unfold diff.
  rewrite (nth_map2 fsub xs (shift xs) (S t) NaN NaN NaN);
    [| lia | rewrite shift_length; lia].
  now rewrite nth_shift_S.
Qed.

Lemma nth_diff_0 (xs : list fval) : nth 0 (diff xs) NaN = NaN.
Proof. destruct xs as [|x r]; simpl; auto. now destruct x. Qed.

(** ** Rolling windows *)

Lemma rolling_length w agg xs : length (rolling w agg xs) = length xs.
Proof. unfold rolling. now rewrite scan_length, prep_values_length. Qed.

Lemma firstn_rolling w agg n xs :
  firstn n (rolling w agg xs) = rolling w agg (firstn n xs).
Proof. unfold rolling. now rewrite firstn_scan, firstn_prep_values. Qed.

Lemma rolling_short_aux w agg xs hist :
  (length hist + length xs < w)%nat ->
  scan (rolling_step w agg) hist xs = repeat NaN (length xs).
Proof.
  revert hist; induction xs as [|x r IH]; intros hist H; simpl in *; auto.
  rewrite IH by (simpl; lia).
  unfold window_value.
  replace (length (x :: hist) <? w)%nat with true
    by (symmetry; apply Nat.ltb_lt; simpl; lia).
  now rewrite orb_true_r.
Qed.

(** A window longer than the series is never filled. *)
Lemma rolling_short w agg xs :
  (length xs < w)%nat -> rolling w agg xs = repeat NaN (length xs).
Proof.
  intros H. unfold rolling.
  rewrite rolling_short_aux by (rewrite prep_values_length; simpl; lia).
  now rewrite prep_values_length.
Qed.

Lemma window_value_nan_head w agg hist :
  window_value w agg (NaN :: hist) = NaN.
Proof.
  unfold window_value.
  destruct ((w =? 0)%nat || (length (NaN :: hist) <? w)%nat) eqn:E; auto.
  apply orb_false_iff in E. destruct E as [E _].
  apply Nat.eqb_neq in E. destruct w as [|w]; [lia|].
  simpl. rewrite existsb_app. simpl. now rewrite orb_true_r.
Qed.

Lemma rolling_nan_aux w agg n hist :
  scan (rolling_step w agg) hist (repeat NaN n) = repeat NaN n.
Proof.
  revert hist; induction n as [|n IH]; intros hist; simpl; auto.
  now rewrite window_value_nan_head, IH.
Qed.

(** A window over missing values only is missing. *)
Lemma rolling_nan w agg n : rolling w agg (repeat NaN n) = repeat NaN n.
Proof.
  unfold rolling. rewrite prep_values_repeat_nan. apply rolling_nan_aux.
Qed.

Lemma map2_repeat_nan_l (f : fval -> fval -> fval) n ys :
  (forall y, f NaN y = NaN) -> length ys = n ->
  map2 f (repeat NaN n) ys = repeat NaN n.
Proof.
  intros Hf. revert ys; induction n as [|n IH]; intros [|y ys] H;
    simpl in *; try discriminate; auto.
  rewrite Hf, IH; auto.
Qed.

Lemma map2_repeat_nan_r (f : fval -> fval -> fval) n xs :
  (forall x, f x NaN = NaN) -> length xs = n ->
  map2 f xs (repeat NaN n) = repeat NaN n.
Proof.
  intros Hf. revert xs; induction n as [|n IH]; intros [|x xs] H;
    simpl in *; try discriminate; auto.
  rewrite Hf, IH; auto.
Qed.

Lemma map_repeat_nan (f : fval -> fval) n :
  f NaN = NaN -> map f (repeat NaN n) = repeat NaN n.
Proof. intros Hf. induction n; simpl; auto. now rewrite Hf, IHn. Qed.

Lemma fadd_nan_r a : fadd a NaN = NaN.
Proof. now destruct a. Qed.
Lemma fsub_nan_r a : fsub a NaN = NaN.
Proof. now destruct a. Qed.
Lemma fmul_nan_r a : fmul a NaN = NaN.
Proof. now destruct a. Qed.
Lemma fdiv_nan_r a : fdiv a NaN = NaN.
Proof. now destruct a. Qed.

Lemma where_length c o xs : length (where_ c o xs) = length xs.
Proof. apply length_map. Qed.

Lemma map3_length f xs ys zs :
  length xs = length ys -> length ys = length zs ->
  length (map3 f xs ys zs) = length xs.
Proof.
  revert ys zs; induction xs as [|x r IH]; intros [|y ys] [|z zs] H1 H2;
    simpl in *; try discriminate; auto.
Qed.

(** C8.  Insufficient history: when the requested window is longer than
    the input series, every rolling-window indicator of the engine (SMA,
    the three Bollinger bands, RSI, both stochastic lines for a long
    [k_window] and the %D line for a long [d_window], ATR) returns a series
    of the length of the input in which every position is undefined (NaN);
    the functions are total, so nothing is raised. *)
Theorem insufficient_history_all_undefined :
  forall (fsqrt : Q -> Q) (window : nat) (data : list fval),
    (length data < window)%nat ->
    let undefined := repeat NaN (length data) in
    simple_moving_average data window = undefined /\
    (forall num_std,
        let bb := bollinger_bands fsqrt data window num_std in
        upper bb = undefined /\ middle bb = undefined /\
        lower bb = undefined) /\
    rsi data window = undefined /\
    (forall high low d_window,
        length high = length data -> length low = length data ->
        let st := stochastic_oscillator high low data window d_window in
        k_percent st = undefined /\ d_percent st = undefined) /\
    (forall high low k_window,
        length high = length data -> length low = length data ->
        d_percent (stochastic_oscillator high low data k_window window)
        = undefined) /\
    (forall high low,
        length high = length data -> length low = length data ->
        atr high low data window = undefined).
Proof.
  intros fsqrt window data H undefined. subst undefined.
  assert (Hm : rolling_mean window data = repeat NaN (length data))
    by (apply rolling_short; exact H).
  split; [exact Hm|].
  split.
  { intros num_std. cbn -[rolling_mean rolling_std].
    unfold rolling_std. rewrite Hm, rolling_short by exact H.
    rewrite map_repeat_nan by reflexivity.
    rewrite !map2_repeat_nan_l; auto using repeat_length. }
  split.
  { unfold rsi, rsi_gain, rsi_loss, rolling_mean.
    rewrite !rolling_short
      by (rewrite ?length_map, ?where_length, diff_length; exact H).
    rewrite ?length_map, ?where_length, diff_length.
    rewrite map2_repeat_nan_l; auto using repeat_length.
    now rewrite map_repeat_nan. }
  split.
  { intros high low d_window Hh Hl. cbn -[rolling_mean rolling_min rolling_max].
    unfold rolling_min, rolling_max, rolling_mean.
    rewrite !rolling_short by (rewrite ?Hh, ?Hl; exact H).
    rewrite Hh, Hl.
    rewrite (map2_repeat_nan_r fsub) by auto using fsub_nan_r.
    rewrite (map2_repeat_nan_l fsub) by auto using repeat_length.
    rewrite (map2_repeat_nan_l fdiv) by auto using repeat_length.
    rewrite map_repeat_nan by reflexivity.
    split; [reflexivity | apply rolling_nan]. }
  split.
  { intros high low k_window Hh Hl.
    cbn -[rolling_mean rolling_min rolling_max].
    set (k := map (fmul f100) _).
    assert (Hk : length k = length data).
    { unfold k, rolling_min, rolling_max.
      rewrite length_map, !map2_length, !rolling_length. lia. }
    unfold rolling_mean. rewrite rolling_short by (rewrite Hk; exact H).
    now rewrite Hk. }
  { intros high low Hh Hl. unfold atr, rolling_mean.
    assert (Hlen : length (map3 row_max3 (map2 fsub high low)
                     (map fabs (map2 fsub high (shift data)))
                     (map fabs (map2 fsub low (shift data)))) = length data).
    { rewrite map3_length;
        rewrite ?length_map, ?map2_length, ?shift_length, ?Hh, ?Hl; lia. }
    rewrite rolling_short by (rewrite Hlen; exact H).
    now rewrite Hlen. }
Qed.

Lemma insufficient_history_all_undefined_witness :
  let data := [Fin 10; Fin 11; Fin 12] in
  simple_moving_average data 5 = [NaN; NaN; NaN] /\
  rsi data 5 = [NaN; NaN; NaN].
Proof.
  destruct (insufficient_history_all_undefined sqrt_floor 5
              [Fin 10; Fin 11; Fin 12]) as (H1 & _ & H3 & _).
  - simpl. lia.
  - split; [exact H1 | exact H3].
Defined.

Lemma mean_singleton (x : fval) : is_nan x = false -> feq (mean [x]) x.
Proof.
  destruct x; simpl; intros H; try discriminate; auto.
  unfold mean, np_sum, fnat; simpl.
  change (Qzero_b (inject_Z 1)) with false. simpl. field.
Qed.

Lemma window_value_1 hist x : feq (window_value 1 mean (x :: hist)) x.
Proof.
  unfold window_value. simpl.
  destruct (is_nan x) eqn:E.
  - destruct x; try discriminate. reflexivity.
  - now apply mean_singleton.
Qed.

Lemma rolling_1_aux hist xs :
  Forall2 feq (scan (rolling_step 1 mean) hist xs) xs.
Proof.
  revert hist; induction xs as [|x r IH]; intros hist; simpl; constructor.
  - apply window_value_1.
  - apply IH.
Qed.

(** C9.  The simple moving average with window 1 is the identity on a
    series of numbers: when every entry is finite or missing, the output
    has, at every position, the value of the input (a missing value stays
    missing).  On any series at all the output is the input as the rolling
    pass reads it, that is with an infinity, which no price is, read as
    missing. *)
Theorem sma_window_1_identity :
  forall data : list fval,
    Forall2 feq (simple_moving_average data 1) (prep_values data) /\
    (Forall fin_or_nan data ->
     Forall2 feq (simple_moving_average data 1) data).
Proof.
  intros data.
  assert (H : Forall2 feq (simple_moving_average data 1) (prep_values data))
    by apply rolling_1_aux.
  split; [exact H|].
  intros Hd. now rewrite (prep_values_fin_or_nan data Hd) in H.
Qed.

Lemma sma_window_1_identity_witness :
  Forall2 feq (simple_moving_average [Fin 10; NaN; Fin 12] 1)
              [Fin 10; NaN; Fin 12].
Proof.
  apply (sma_window_1_identity [Fin 10; NaN; Fin 12]).
  repeat constructor.
Defined.

(** ** RSI *)

Lemma Forall_scan_shift (P : fval -> Prop) p xs :
  P p -> Forall P xs -> Forall P (scan (fun prev x => (x, prev)) p xs).
Proof.
  intros Hp H. revert p Hp; induction H as [|x r Hx Hr IH]; intros p Hp;
    simpl; constructor; auto.
Qed.

Lemma Forall_map2 (P Q R : fval -> Prop) (f : fval -> fval -> fval) xs ys :
  (forall x y, P x -> Q y -> R (f x y)) ->
  Forall P xs -> Forall Q ys -> Forall R (map2 f xs ys).
Proof.
  intros Hf Hx. revert ys; induction Hx as [|x r Hx Hr IH];
    intros ys Hy; simpl; [constructor|].
  destruct Hy as [|y ys Hy Hys]; constructor; auto.
Qed.

Lemma Forall_map_Fin (P : fval -> Prop) (l : list Q) :
  (forall q, P (Fin q)) -> Forall P (map Fin l).
Proof. intros H. induction l; simpl; constructor; auto. Qed.

Lemma diff_fin_or_nan (prices : list Q) :
  Forall fin_or_nan (diff (map Fin prices)).
Proof.
  unfold diff, shift.
  apply (Forall_map2 fin_or_nan fin_or_nan fin_or_nan).
  - intros [x| | |] [y| | |]; simpl; tauto.
  - apply Forall_map_Fin. intros; exact I.
  - apply Forall_scan_shift; [exact I|].
    apply Forall_map_Fin. intros; exact I.
Qed.

Lemma gain_input_nonneg (prices : list Q) :
  Forall fin_nonneg (where_ (fun d => fgt d f0) f0 (diff (map Fin prices))).
Proof.
  unfold where_. apply Forall_map.
  eapply Forall_impl; [| apply diff_fin_or_nan].
  intros [x| | |]; simpl; try tauto; intros _.
  - destruct (Qlt_bool 0 x) eqn:E; simpl.
    + apply Qlt_bool_iff in E. lra.
    + lra.
  - lra.
Qed.

Lemma loss_input_nonneg (prices : list Q) :
  Forall fin_nonneg
    (map fneg (where_ (fun d => flt d f0) f0 (diff (map Fin prices)))).
Proof.
  unfold where_. rewrite map_map. apply Forall_map.
  eapply Forall_impl; [| apply diff_fin_or_nan].
  intros [x| | |]; simpl; try tauto; intros _.
  - destruct (Qlt_bool x 0) eqn:E; simpl.
    + apply Qlt_bool_iff in E. lra.
    + lra.
  - lra.
Qed.

Lemma fold_fadd_nonneg (l : list fval) (acc : Q) :
  Forall fin_nonneg l -> 0 <= acc ->
  exists s, fold_left fadd l (Fin acc) = Fin s /\ 0 <= s.
Proof.
  intros H. revert acc; induction H as [|x r Hx Hr IH]; intros acc Ha; simpl.
  - exists acc; auto.
  - destruct x as [q| | |]; simpl in Hx; try contradiction.
    apply IH. lra.
Qed.

Lemma inject_nat_pos (n : nat) : (0 < n)%nat -> 0 < inject_Z (Z.of_nat n).
Proof.
  intros H. change 0 with (inject_Z 0). rewrite <- Zlt_Qlt. lia.
Qed.

Lemma mean_nonneg (win : list fval) :
  Forall fin_nonneg win -> (0 < length win)%nat ->
  exists m, mean win = Fin m /\ 0 <= m.
Proof.
  intros H Hlen. unfold mean, np_sum, f0.
  destruct (fold_fadd_nonneg win 0 H) as (s & Hs & Hs0); [lra|].
  rewrite Hs. unfold fnat, fdiv.
  pose proof (inject_nat_pos _ Hlen) as Hp.
  assert (E : Qzero_b (inject_Z (Z.of_nat (length win))) = false)
    by (apply Qzero_b_false; lra).
  rewrite E. eexists; split; [reflexivity|].
  apply Qle_shift_div_l; lra.
Qed.

Lemma Forall_firstn_keep (P : fval -> Prop) n l :
  Forall P l -> Forall P (firstn n l).
Proof.
  intros H. revert n; induction H; intros [|n]; simpl; constructor; auto.
Qed.

Lemma window_value_mean_nonneg w hist :
  Forall fin_nonneg hist -> nonneg_or_nan (window_value w mean hist).
Proof.
  intros H. unfold window_value.
  destruct ((w =? 0)%nat || (length hist <? w)%nat) eqn:E; [exact I|].
  apply orb_false_iff in E. destruct E as [E1 E2].
  apply Nat.eqb_neq in E1. apply Nat.ltb_ge in E2.
  destruct (existsb is_nan (rev (firstn w hist))); [exact I|].
  destruct (mean_nonneg (rev (firstn w hist))) as (m & Hm & Hm0).
  - apply Forall_rev. now apply Forall_firstn_keep.
  - rewrite length_rev, length_firstn. lia.
  - rewrite Hm. exact Hm0.
Qed.

Lemma rolling_mean_nonneg_aux w xs hist :
  Forall fin_nonneg hist -> Forall fin_nonneg xs ->
  Forall nonneg_or_nan (scan (rolling_step w mean) hist xs).
Proof.
  intros Hh Hx. revert hist Hh; induction Hx as [|x r Hx Hr IH];
    intros hist Hh; simpl; constructor.
  - apply window_value_mean_nonneg. now constructor.
  - apply IH. now constructor.
Qed.

Lemma rolling_mean_nonneg w xs :
  Forall fin_nonneg xs -> Forall nonneg_or_nan (rolling_mean w xs).
Proof.
  intros H. unfold rolling_mean, rolling.
  rewrite prep_values_fin_or_nan.
  - apply rolling_mean_nonneg_aux; auto.
  - eapply Forall_impl; [|exact H]. intros [q| | |]; simpl; tauto.
Qed.

Lemma rsi_gain_length data w : length (rsi_gain data w) = length data.
Proof.
  unfold rsi_gain, rolling_mean.
  now rewrite rolling_length, where_length, diff_length.
Qed.

Lemma rsi_loss_length data w : length (rsi_loss data w) = length data.
Proof.
  unfold rsi_loss, rolling_mean.
  now rewrite rolling_length, length_map, where_length, diff_length.
Qed.

Lemma rsi_length data w : length (rsi data w) = length data.
Proof.
  unfold rsi. rewrite length_map, map2_length.
  rewrite rsi_gain_length, rsi_loss_length. lia.
Qed.

Lemma nth_rsi data w t :
  (t < length data)%nat ->
  nth t (rsi data w) NaN =
  rsi_point (nth t (rsi_gain data w) NaN) (nth t (rsi_loss data w) NaN).
Proof.
  intros H. unfold rsi.
  change NaN with ((fun r => fsub f100 (fdiv f100 (fadd f1 r))) NaN) at 1.
  rewrite map_nth.
  rewrite (nth_map2 fdiv _ _ t NaN NaN NaN);
    rewrite ?rsi_gain_length, ?rsi_loss_length; auto.
Qed.

Lemma rsi_point_pos_loss (g l : Q) :
  0 <= g -> 0 < l ->
  exists q, rsi_point (Fin g) (Fin l) = Fin q /\ 0 <= q /\ q < 100.
Proof.
  intros Hg Hl. unfold rsi_point, fdiv.
  assert (E : Qzero_b l = false) by (apply Qzero_b_false; lra).
  rewrite E. simpl.
  assert (Hrs : 0 <= g / l) by (apply Qle_shift_div_l; lra).
  assert (E2 : Qzero_b (1 + g / l) = false) by (apply Qzero_b_false; lra).
  rewrite E2. simpl. eexists; split; [reflexivity|].
  assert (H1 : 100 / (1 + g / l) <= 100)
    by (apply Qle_shift_div_r; [lra | nra]).
  assert (H2 : 0 < 100 / (1 + g / l))
    by (apply Qlt_shift_div_l; lra).
  lra.
Qed.

Lemma rsi_point_zero_loss (g l : Q) :
  0 < g -> l == 0 -> rsi_point (Fin g) (Fin l) = Fin (100 + - 0).
Proof.
  intros Hg Hl. unfold rsi_point, fdiv.
  apply Qzero_b_iff in Hl. rewrite Hl.
  now rewrite (qsign_pos g Hg).
Qed.

Lemma rsi_point_both_zero (g l : Q) :
  g == 0 -> l == 0 -> rsi_point (Fin g) (Fin l) = NaN.
Proof.
  intros Hg Hl. unfold rsi_point, fdiv.
  apply Qzero_b_iff in Hl. rewrite Hl.
  now rewrite (qsign_zero g Hg).
Qed.

Lemma rsi_point_cases (gain loss : fval) :
  nonneg_or_nan gain -> nonneg_or_nan loss ->
  (rsi_point gain loss = NaN /\
   (gain = NaN \/ loss = NaN \/
    exists g l, gain = Fin g /\ loss = Fin l /\ g == 0 /\ l == 0)) \/
  (feq (rsi_point gain loss) (Fin 100) /\
   exists g l, gain = Fin g /\ loss = Fin l /\ 0 < g /\ l == 0) \/
  (exists q g l, rsi_point gain loss = Fin q /\ 0 <= q /\ q < 100 /\
                 gain = Fin g /\ loss = Fin l /\ 0 < l).
Proof.
  destruct gain as [g| | |], loss as [l| | |]; simpl; try tauto;
    intros Hg Hl.
  destruct (Qlt_le_dec 0 l) as [Hl'|Hl'].
    + right; right. destruct (rsi_point_pos_loss g l Hg Hl') as (q & E & H).
      exists q, g, l. tauto.
    + assert (Hl0 : l == 0) by lra.
      destruct (Qlt_le_dec 0 g) as [Hg'|Hg'].
      * right; left. split.
        -- rewrite (rsi_point_zero_loss g l Hg' Hl0). simpl. lra.
        -- exists g, l. tauto.
      * assert (Hg0 : g == 0) by lra.
        left. split; [now apply rsi_point_both_zero|].
        right; right. exists g, l. tauto.
Qed.

(** C5.  For a series of finite prices and any window: wherever RSI is
    defined it is a finite number in [0,100]; it is 100 when the trailing
    average loss is 0 and the trailing average gain is positive (and only
    then); it is undefined (NaN) when both averages are 0. *)
Theorem rsi_bounded_and_zero_loss :
  forall (prices : list Q) (window t : nat),
    (t < length prices)%nat ->
    let data := map Fin prices in
    let r := nth t (rsi data window) NaN in
    let gain := nth t (rsi_gain data window) NaN in
    let loss := nth t (rsi_loss data window) NaN in
    (r = NaN \/ exists q, r = Fin q /\ 0 <= q /\ q <= 100) /\
    (forall g l, gain = Fin g -> loss = Fin l ->
                 l == 0 -> 0 < g -> feq r (Fin 100)) /\
    (feq r (Fin 100) ->
     exists g l, gain = Fin g /\ loss = Fin l /\ l == 0 /\ 0 < g) /\
    (forall g l, gain = Fin g -> loss = Fin l ->
                 l == 0 -> g == 0 -> r = NaN).
Proof.
  intros prices window t Ht data r gain loss.
  assert (Hlen : (t < length data)%nat)
    by (unfold data; now rewrite length_map).
  assert (Hr : r = rsi_point gain loss) by (apply nth_rsi; exact Hlen).
  assert (Hg : nonneg_or_nan gain).
  { pose proof (rolling_mean_nonneg window _ (gain_input_nonneg prices)) as F.
    rewrite Forall_forall in F. apply F. apply nth_In.
    change (t < length (rsi_gain data window))%nat.
    now rewrite rsi_gain_length. }
  assert (Hl : nonneg_or_nan loss).
  { pose proof (rolling_mean_nonneg window _ (loss_input_nonneg prices)) as F.
    rewrite Forall_forall in F. apply F. apply nth_In.
    change (t < length (rsi_loss data window))%nat.
    now rewrite rsi_loss_length. }
  rewrite Hr.
  destruct (rsi_point_cases gain loss Hg Hl)
    as [(E & C) | [(E & g & l & Eg & El & Hg0 & Hl0)
                  | (q & g & l & E & Hq0 & Hq1 & Eg & El & Hl0)]].
  - split; [now left|]. split; [|split].
    + intros g l Eg El Hl0 Hg0. rewrite Eg, El.
      rewrite (rsi_point_zero_loss g l Hg0 Hl0). simpl. lra.
    + rewrite E. simpl. tauto.
    + intros; exact E.
  - split; [|split; [|split]].
    + right. rewrite Eg, El, (rsi_point_zero_loss g l Hg0 Hl0).
      eexists; split; [reflexivity | lra].
    + intros; exact E.
    + intros _. exists g, l. tauto.
    + intros g' l' Eg' El' _ Hg'. rewrite Eg in Eg'. injection Eg' as <-. lra.
  - split; [|split; [|split]].
    + right. exists q. split; [exact E | lra].
    + intros g' l' _ El' Hl' _. rewrite El in El'. injection El' as <-. lra.
    + rewrite E. simpl. lra.
    + intros g' l' _ El' Hl' _. rewrite El in El'. injection El' as <-. lra.
Qed.

Lemma rsi_bounded_and_zero_loss_witness :
  feq (nth 2 (rsi (map Fin [10; 11; 12; 13]) 3) NaN) (Fin 100).
Proof.
  destruct (rsi_bounded_and_zero_loss [10; 11; 12; 13] 3 2) as (_ & H & _).
  - simpl. lia.
  - eapply H; [vm_compute; reflexivity | vm_compute; reflexivity
              | vm_compute; reflexivity | vm_compute; reflexivity].
Defined.

(** ** Backtests *)

Lemma nth_firstn_lt {A : Type} (l : list A) (n t : nat) (d : A) :
  (t < n)%nat -> nth t (firstn n l) d = nth t l d.
Proof.
  revert n t; induction l as [|x r IH]; intros [|n] [|t] H; simpl; auto;
    try lia.
  apply IH. lia.
Qed.

Lemma firstn_splice {A : Type} (k n : nat) (a b : list A) :
  length a = length b ->
  firstn n (firstn k a ++ skipn k b)
  = firstn k (firstn n a) ++ skipn k (firstn n b).
Proof.
  revert n a b; induction k as [|k IH]; intros n a b H.
  - reflexivity.
  - destruct a as [|x a], b as [|y b]; simpl in H; try discriminate.
    + now rewrite !firstn_nil.
    + destruct n as [|n]; simpl; auto.
      f_equal. apply IH. congruence.
Qed.

Lemma firstn_where n c o xs :
  firstn n (where_ c o xs) = where_ c o (firstn n xs).
Proof. unfold where_. now rewrite firstn_map. Qed.

Lemma firstn_rolling_mean n w xs :
  firstn n (rolling_mean w xs) = rolling_mean w (firstn n xs).
Proof. apply firstn_rolling. Qed.

Lemma rolling_mean_length w xs : length (rolling_mean w xs) = length xs.
Proof. apply rolling_length. Qed.

Lemma firstn_rsi n data w : firstn n (rsi data w) = rsi (firstn n data) w.
Proof.
  unfold rsi, rsi_gain, rsi_loss.
  now rewrite firstn_map, firstn_map2, !firstn_rolling_mean,
    firstn_map, !firstn_where, firstn_diff.
Qed.

Lemma crossover_signal_length data sw lw :
  length (crossover_signal data sw lw) = length data.
Proof.
  unfold crossover_signal. rewrite length_app, length_firstn, length_map.
  rewrite map2_length, !length_skipn, !rolling_mean_length. lia.
Qed.

Lemma signal_length_rsi data w lo hi :
  length (signal (backtest_rsi_strategy data w lo hi)) = length data.
Proof.
  cbn -[rsi]. unfold fillna, ffill.
  now rewrite length_map, scan_length, length_map, rsi_length.
Qed.

Lemma firstn_crossover_signal n data sw lw :
  firstn n (crossover_signal data sw lw)
  = crossover_signal (firstn n data) sw lw.
Proof.
  unfold crossover_signal.
  rewrite <- !skipn_map2.
  rewrite firstn_splice
    by (rewrite length_map, map2_length, !rolling_mean_length; lia).
  now rewrite firstn_map, firstn_map2, !firstn_rolling_mean.
Qed.

Lemma firstn_signal_rsi n data w lo hi :
  firstn n (signal (backtest_rsi_strategy data w lo hi))
  = signal (backtest_rsi_strategy (firstn n data) w lo hi).
Proof.
  cbn -[rsi]. unfold fillna, ffill.
  now rewrite firstn_map, firstn_scan, firstn_map, firstn_rsi.
Qed.

(** The moving-average backtest returns exactly when the short window is
    not longer than the series, and then returns the frame built from the
    crossover signal. *)
Lemma backtest_simple_strategy_inv data sw lw r :
  backtest_simple_strategy data sw lw = Ok r ->
  (sw <= length data)%nat /\
  r = {| price := data;
         short_ma_col := Some (rolling_mean sw data);
         long_ma_col := Some (rolling_mean lw data);
         rsi_col := None;
         signal := crossover_signal data sw lw;
         positions := diff (crossover_signal data sw lw);
         returns := pct_change data;
         strategy_returns :=
           map2 fmul (shift (crossover_signal data sw lw)) (pct_change data);
         cumulative_returns := cumprod (map (fadd f1) (pct_change data));
         cumulative_strategy_returns :=
           cumprod (map (fadd f1)
                      (map2 fmul (shift (crossover_signal data sw lw))
                                 (pct_change data))) |}.
Proof.
  unfold backtest_simple_strategy.
  destruct (length data <? sw)%nat eqn:E; [discriminate|].
  intros H. injection H as <-. apply Nat.ltb_ge in E. now split.
Qed.

Lemma backtest_simple_strategy_raises data sw lw :
  (length data < sw)%nat ->
  backtest_simple_strategy data sw lw = Raise ValueError.
Proof.
  intros H. unfold backtest_simple_strategy.
  apply Nat.ltb_lt in H. now rewrite H.
Qed.

Lemma backtest_simple_strategy_returns data sw lw :
  (sw <= length data)%nat ->
  exists r, backtest_simple_strategy data sw lw = Ok r.
Proof.
  intros H. unfold backtest_simple_strategy.
  apply Nat.ltb_ge in H. rewrite H. eauto.
Qed.

(** Buy and hold returns exactly on a nonempty series. *)
Lemma backtest_buy_and_hold_inv data r :
  backtest_buy_and_hold data = Ok r ->
  data <> [] /\
  r = {| price := data;
         short_ma_col := None;
         long_ma_col := None;
         rsi_col := None;
         signal := map (fun _ => f1) data;
         positions := f1 :: tl (map (fun _ => f0) data);
         returns := pct_change data;
         strategy_returns := pct_change data;
         cumulative_returns := cumprod (map (fadd f1) (pct_change data));
         cumulative_strategy_returns :=
           cumprod (map (fadd f1) (pct_change data)) |}.
Proof.
  unfold backtest_buy_and_hold.
  destruct data as [|x data]; [discriminate|].
  intros H. split; [discriminate|]. now injection H as <-.
Qed.

(** The strategy-return column of a backtest, for every variant, reads its
    input left to right: on a prefix of the prices it is the column
    computed from the prefix. *)
Lemma strategy_returns_prefix s data r n :
  run_backtest s data = Ok r ->
  firstn n (strategy_returns r) =
  match s with
  | MovingAverage sw lw =>
      map2 fmul (shift (crossover_signal (firstn n data) sw lw))
           (pct_change (firstn n data))
  | RsiThreshold w lo hi =>
      strategy_returns
        (backtest_rsi_strategy (firstn n data) w (Fin lo) (Fin hi))
  | BuyAndHold => pct_change (firstn n data)
  end.
Proof.
  destruct s as [sw lw | w lo hi | ]; simpl; intros H.
  - destruct (backtest_simple_strategy_inv _ _ _ _ H) as [_ ->].
    cbn [strategy_returns].
    now rewrite firstn_map2, firstn_shift, firstn_crossover_signal,
      firstn_pct_change.
  - injection H as <-.
    change (strategy_returns
              (backtest_rsi_strategy data w (Fin lo) (Fin hi)))
      with (map2 fmul
              (shift (signal (backtest_rsi_strategy data w (Fin lo) (Fin hi))))
              (pct_change data)).
    rewrite firstn_map2, firstn_shift, firstn_signal_rsi, firstn_pct_change.
    reflexivity.
  - unfold backtest_buy_and_hold in H.
    destruct (map (fun _ => f0) data); [discriminate|].
    injection H as <-. simpl. apply firstn_pct_change.
Qed.

Lemma nth_lagged_product (sig ret : list fval) (t : nat) :
  length sig = length ret -> (1 <= t < length ret)%nat ->
  nth t (map2 fmul (shift sig) ret) NaN
  = fmul (nth (t - 1) sig NaN) (nth t ret NaN).
Proof.
  intros Hlen Ht.
  rewrite (nth_map2 fmul _ _ t NaN NaN NaN);
    [| rewrite shift_length; lia | lia].
  destruct t as [|t]; [lia|].
  rewrite nth_shift_S by lia.
  now replace (S t - 1)%nat with t by lia.
Qed.

Lemma nth_map_Fin (l : list Q) (t : nat) :
  (t < length l)%nat -> nth t (map Fin l) NaN = Fin (nth t l 0).
Proof.
  intros H. rewrite (nth_indep _ NaN (Fin 0)) by (now rewrite length_map).
  apply map_nth.
Qed.

Lemma nth_pct_change (prices : list Q) (t : nat) :
  (1 <= t < length prices)%nat ->
  nth t (pct_change (map Fin prices)) NaN
  = fsub (fdiv (Fin (nth t prices 0)) (Fin (nth (t - 1) prices 0))) f1.
Proof.
  intros Ht. unfold pct_change. rewrite ffill_Fin.
  rewrite (nth_map2 _ _ _ t NaN NaN NaN);
    [| now rewrite length_map | now rewrite shift_length, length_map].
  destruct t as [|t]; [lia|].
  rewrite nth_shift_S by (rewrite length_map; lia).
  rewrite !nth_map_Fin by lia.
  now replace (S t - 1)%nat with t by lia.
Qed.

Lemma fmul_1_l (x : fval) : feq (fmul f1 x) x.
Proof.
  destruct x; simpl; auto. ring.
Qed.

Lemma nth_const_map {A : Type} (c : fval) (l : list A) (t : nat) :
  (t < length l)%nat -> nth t (map (fun _ => c) l) NaN = c.
Proof.
  revert t; induction l as [|x r IH]; intros [|t] H; simpl in *; auto;
    try lia.
  apply IH. lia.
Qed.

(** On a nonempty series a backtest raises in one case only: the
    moving-average variant with a short window longer than the series. *)
Lemma run_backtest_total (s : strategy) (data : list fval) :
  data <> [] -> short_window_fits s (length data) = true ->
  exists r, run_backtest s data = Ok r.
Proof.
  intros H Hfit. destruct s as [sw lw | w lo hi | ]; simpl in *; eauto.
  - apply backtest_simple_strategy_returns. now apply Nat.leb_le.
  - destruct data as [|x data]; [contradiction|].
    unfold backtest_buy_and_hold. simpl. eauto.
Qed.

Lemma run_backtest_raises (s : strategy) (data : list fval) :
  short_window_fits s (length data) = false ->
  run_backtest s data = Raise ValueError.
Proof.
  destruct s as [sw lw | w lo hi | ]; simpl; try discriminate.
  intros H. apply backtest_simple_strategy_raises. now apply Nat.leb_gt.
Qed.

Lemma run_backtest_returns s data r :
  run_backtest s data = Ok r -> returns r = pct_change data.
Proof.
  destruct s as [sw lw | w lo hi | ]; simpl; intros H.
  - now destruct (backtest_simple_strategy_inv _ _ _ _ H) as [_ ->].
  - now injection H as <-.
  - unfold backtest_buy_and_hold in H.
    destruct (map (fun _ => f0) data); [discriminate|].
    now injection H as <-.
Qed.

Lemma run_backtest_lagged s data r t :
  run_backtest s data = Ok r -> (1 <= t < length data)%nat ->
  feq (nth t (strategy_returns r) NaN)
      (fmul (nth (t - 1) (signal r) NaN) (nth t (returns r) NaN)).
Proof.
  intros H Ht. destruct s as [sw lw | w lo hi | ]; simpl in H.
  - destruct (backtest_simple_strategy_inv _ _ _ _ H) as [_ ->].
    cbn [strategy_returns signal returns].
    rewrite nth_lagged_product;
      rewrite ?crossover_signal_length, ?pct_change_length; auto.
    reflexivity.
  - injection H as <-.
    change (strategy_returns (backtest_rsi_strategy data w (Fin lo) (Fin hi)))
      with (map2 fmul
              (shift (signal (backtest_rsi_strategy data w (Fin lo) (Fin hi))))
              (pct_change data)).
    change (returns (backtest_rsi_strategy data w (Fin lo) (Fin hi)))
      with (pct_change data).
    rewrite nth_lagged_product;
      rewrite ?signal_length_rsi, ?pct_change_length; auto.
    reflexivity.
  - unfold backtest_buy_and_hold in H.
    destruct (map (fun _ => f0) data); [discriminate|].
    injection H as <-. simpl strategy_returns. simpl returns. simpl signal.
    rewrite nth_const_map by lia.
    symmetry. apply fmul_1_l.
Qed.

Lemma Forall_scan_inv {A B St : Type} (Pst : St -> Prop) (Pin : A -> Prop)
  (Pout : B -> Prop) (step : St -> A -> St * B) s0 xs :
  (forall s x, Pst s -> Pin x ->
               Pst (fst (step s x)) /\ Pout (snd (step s x))) ->
  Pst s0 -> Forall Pin xs -> Forall Pout (scan step s0 xs).
Proof.
  intros Hstep Hs Hx. revert s0 Hs; induction Hx as [|x r Hx Hr IH];
    intros s0 Hs; simpl; [constructor|].
  destruct (Hstep s0 x Hs Hx) as [H1 H2].
  destruct (step s0 x) as [s' y]. simpl in *. constructor; auto.
Qed.

Lemma crossover_signal_positions data sw lw :
  Forall is_position (crossover_signal data sw lw).
Proof.
  unfold crossover_signal. apply Forall_app. split.
  - apply Forall_firstn_keep. apply Forall_map. apply Forall_forall.
    intros; now left.
  - generalize (skipn sw (rolling_mean sw data)) as a.
    generalize (skipn sw (rolling_mean lw data)) as b.
    intros b a. revert b; induction a as [|x a IH]; intros [|y b]; simpl;
      constructor; auto.
    destruct (fgt x y); [now right | now left].
Qed.

Lemma rsi_signal_positions data w lo hi :
  Forall is_position (signal (backtest_rsi_strategy data w lo hi)).
Proof.
  cbn -[rsi]. unfold fillna, ffill. apply Forall_map.
  apply (Forall_scan_inv
           (fun s => s = f0 \/ s = f1 \/ s = NaN)
           (fun x => x = f0 \/ x = f1 \/ x = NaN)).
  - intros s x Hs Hx. cbn.
    destruct Hx as [-> | [-> | ->]]; cbn.
    + split; [now left | now left].
    + split; [right; now left | now right].
    + destruct Hs as [-> | [-> | ->]]; cbn;
        (split; [tauto|]); unfold is_position; tauto.
  - right; now right.
  - apply Forall_map. apply Forall_forall. intros r _.
    destruct (flt r lo); [right; now left|].
    destruct (fgt r hi); [now left | right; now right].
Qed.

Lemma cumprod_length xs : length (cumprod xs) = length xs.
Proof. apply scan_length. Qed.

(** The frame a backtest returns: the signal is 0 or 1 at every bar and
    every column has the length of the input. *)
Lemma backtest_frame_facts (s : strategy) (data : list fval)
  (r : BacktestResult) :
  run_backtest s data = Ok r ->
  Forall is_position (signal r) /\
  price r = data /\
  length (signal r) = length data /\
  length (positions r) = length data /\
  length (returns r) = length data /\
  length (strategy_returns r) = length data /\
  length (cumulative_returns r) = length data /\
  length (cumulative_strategy_returns r) = length data.
Proof.
  destruct s as [sw lw | w lo hi | ]; simpl; intros H.
  - destruct (backtest_simple_strategy_inv _ _ _ _ H) as [_ ->].
    cbn [price signal positions returns strategy_returns cumulative_returns
         cumulative_strategy_returns].
    split; [apply crossover_signal_positions|].
    rewrite !cumprod_length, !length_map, !map2_length, diff_length,
      shift_length, pct_change_length, crossover_signal_length.
    repeat split; lia.
  - injection H as <-.
    split; [apply rsi_signal_positions|].
    pose proof (signal_length_rsi data w (Fin lo) (Fin hi)) as L.
    unfold backtest_rsi_strategy in L |- *.
    cbv beta zeta iota delta [price signal positions returns strategy_returns
      cumulative_returns cumulative_strategy_returns] in L |- *.
    rewrite !cumprod_length, !length_map, !map2_length, diff_length,
      shift_length, pct_change_length, L.
    repeat split; lia.
  - destruct (backtest_buy_and_hold_inv _ _ H) as [Hne ->].
    cbn [price signal positions returns strategy_returns cumulative_returns
         cumulative_strategy_returns].
    split.
    { apply Forall_map. apply Forall_forall. intros; now right. }
    rewrite !cumprod_length, !length_map, pct_change_length.
    destruct data as [|x data]; [contradiction|].
    cbn [length map tl]. rewrite !length_map. repeat split; lia.
Qed.

(** C1.  On a nonempty series of prices a backtest raises ValueError in
    one case, the moving-average variant with a short window longer than
    the series, and returns a frame in every other case, for every
    variant.  In that frame the signal is 0 or 1 and the columns have the
    length of the input; the raw return is the price pct-change,
    p[t]/p[t-1] - 1; the strategy return at every bar t >= 1 is signal[t-1]
    times the raw return at t; and the strategy return at t is the same
    for every other price series with the same prices at positions 0..t,
    so changing prices at t+1 or later leaves it unchanged. *)
Theorem strategy_return_lagged_no_lookahead :
  forall (s : strategy) (prices : list Q),
    prices <> [] ->
    (short_window_fits s (length prices) = false ->
     run_backtest s (map Fin prices) = Raise ValueError) /\
    (short_window_fits s (length prices) = true ->
     exists r,
       run_backtest s (map Fin prices) = Ok r /\
       Forall is_position (signal r) /\
       length (signal r) = length prices /\
       length (returns r) = length prices /\
       length (strategy_returns r) = length prices /\
       (forall t, (1 <= t < length prices)%nat ->
          nth t (returns r) NaN
          = fsub (fdiv (Fin (nth t prices 0)) (Fin (nth (t - 1) prices 0)))
                 f1 /\
          feq (nth t (strategy_returns r) NaN)
              (fmul (nth (t - 1) (signal r) NaN) (nth t (returns r) NaN))) /\
       (forall (prices' : list Q) (r' : BacktestResult) (t : nat),
          run_backtest s (map Fin prices') = Ok r' ->
          firstn (S t) prices' = firstn (S t) prices ->
          nth t (strategy_returns r') NaN = nth t (strategy_returns r) NaN)).
Proof.
  intros s prices Hne. split.
  { intros Hfit. apply run_backtest_raises. now rewrite length_map. }
  intros Hfit.
  destruct (run_backtest_total s (map Fin prices)) as [r Hr].
  { destruct prices; [contradiction | discriminate]. }
  { now rewrite length_map. }
  exists r. split; [exact Hr|].
  destruct (backtest_frame_facts _ _ _ Hr)
    as (Hpos & _ & L1 & _ & L2 & L3 & _).
  rewrite length_map in L1, L2, L3.
  split; [exact Hpos|].
  split; [exact L1|]. split; [exact L2|]. split; [exact L3|]. split.
  - intros t Ht. split.
    + rewrite (run_backtest_returns _ _ _ Hr). now apply nth_pct_change.
    + apply (run_backtest_lagged s (map Fin prices)); auto.
      now rewrite length_map.
  - intros prices' r' t Hr' Hpre.
    rewrite <- (nth_firstn_lt (strategy_returns r') (S t) t NaN) by lia.
    rewrite <- (nth_firstn_lt (strategy_returns r) (S t) t NaN) by lia.
    rewrite (strategy_returns_prefix _ _ _ (S t) Hr').
    rewrite (strategy_returns_prefix _ _ _ (S t) Hr).
    now rewrite !firstn_map, Hpre.
Qed.

Lemma strategy_return_lagged_no_lookahead_witness :
  (exists r,
      run_backtest (MovingAverage 2 3) (map Fin [10; 11; 12; 11]) = Ok r /\
      length (strategy_returns r) = 4%nat /\
      feq (nth 3 (strategy_returns r) NaN)
          (fmul (nth 2 (signal r) NaN) (nth 3 (returns r) NaN))) /\
  run_backtest (MovingAverage 5 20) (map Fin [10; 11; 12]) = Raise ValueError.
Proof.
  split.
  - destruct (strategy_return_lagged_no_lookahead (MovingAverage 2 3)
                [10; 11; 12; 11]) as (_ & H).
    + discriminate.
    + destruct H as (r & Hr & _ & _ & _ & L & Hlag & _); [reflexivity|].
      exists r. split; [exact Hr|]. split; [exact L|].
      apply (Hlag 3%nat). simpl. lia.
  - destruct (strategy_return_lagged_no_lookahead (MovingAverage 5 20)
                [10; 11; 12]) as (H & _).
    + discriminate.
    + apply H. reflexivity.
Defined.

Lemma run_backtest_positions_diff s data r :
  run_backtest s data = Ok r -> s <> BuyAndHold ->
  positions r = diff (signal r) /\ length (signal r) = length data.
Proof.
  destruct s as [sw lw | w lo hi | ]; simpl; intros H Hs;
    try contradiction.
  - destruct (backtest_simple_strategy_inv _ _ _ _ H) as [_ ->].
    split; [reflexivity | apply crossover_signal_length].
  - injection H as <-.
    split; [reflexivity | apply signal_length_rsi].
Qed.

Lemma buy_and_hold_columns data r :
  backtest_buy_and_hold data = Ok r ->
  signal r = map (fun _ => f1) data /\
  positions r = f1 :: tl (map (fun _ => f0) data).
Proof.
  unfold backtest_buy_and_hold.
  destruct (map (fun _ => f0) data) eqn:E; [discriminate|].
  intros H. injection H as <-. simpl. auto.
Qed.

Lemma flt_nan_r (a : fval) : flt a NaN = false.
Proof. now destruct a. Qed.

Lemma signal_0_ma (x : fval) (data : list fval) (sw lw : nat) :
  nth 0 (crossover_signal (x :: data) sw lw) NaN = f0.
Proof.
  destruct sw as [|sw]; [|reflexivity].
  cbn. destruct (inf_to_nan x); cbn; unfold fgt; now rewrite ?flt_nan_r.
Qed.

Lemma signal_0_rsi (x : Q) (data : list fval) (w : nat) (lo hi : fval) :
  nth 0 (signal (backtest_rsi_strategy (Fin x :: data) w lo hi)) NaN = f0.
Proof.
  assert (H : exists rest, rsi (Fin x :: data) w = NaN :: rest)
    by (destruct w as [|[|w]]; eexists; reflexivity).
  destruct H as [rest H].
  cbn -[rsi]. rewrite H. cbn. unfold fgt. now rewrite flt_nan_r.
Qed.

(** C6 (as stated, refuted).  In the moving-average variant the position
    change of the first bar is missing (NaN), although signal[0] is 0. *)
Lemma first_bar_position_change_missing :
  exists r,
    run_backtest (MovingAverage 2 3) (map Fin [10; 11; 12]) = Ok r /\
    nth 0 (signal r) NaN = Fin 0 /\
    nth 0 (positions r) NaN = NaN /\
    ~ feq (nth 0 (positions r) NaN) (nth 0 (signal r) NaN).
Proof.
  eexists. split; [reflexivity|].
  split; [reflexivity|]. split; [reflexivity|].
  simpl. tauto.
Qed.

(** C6 (amended).  On a nonempty price series a backtest raises ValueError
    in the moving-average variant with a short window longer than the
    series, and returns a frame otherwise.  In that frame the signal and
    the position changes have the length of the input, and
    positionChange[t] = signal[t] - signal[t-1] for t >= 1.  At the first
    bar the position change is signal[0] (= 1) in the buy-and-hold variant,
    and is missing (NaN) in the moving-average and RSI variants, where
    signal[0] is 0. *)
Theorem position_change_is_signal_delta :
  forall (s : strategy) (prices : list Q),
    prices <> [] ->
    (short_window_fits s (length prices) = false ->
     run_backtest s (map Fin prices) = Raise ValueError) /\
    (short_window_fits s (length prices) = true ->
     exists r,
       run_backtest s (map Fin prices) = Ok r /\
       length (signal r) = length prices /\
       length (positions r) = length prices /\
       (forall t, (1 <= t < length prices)%nat ->
          feq (nth t (positions r) NaN)
              (fsub (nth t (signal r) NaN) (nth (t - 1) (signal r) NaN))) /\
       match s with
       | BuyAndHold =>
           nth 0 (positions r) NaN = f1 /\ nth 0 (signal r) NaN = f1
       | _ => nth 0 (positions r) NaN = NaN /\ nth 0 (signal r) NaN = f0
       end).
Proof.
  intros s prices Hne. split.
  { intros Hfit. apply run_backtest_raises. now rewrite length_map. }
  intros Hfit.
  destruct (run_backtest_total s (map Fin prices)) as [r Hr].
  { destruct prices; [contradiction | discriminate]. }
  { now rewrite length_map. }
  exists r. split; [exact Hr|].
  destruct (backtest_frame_facts _ _ _ Hr) as (_ & _ & L1 & L2 & _).
  rewrite length_map in L1, L2.
  split; [exact L1|]. split; [exact L2|].
  assert (Hcases : s <> BuyAndHold \/ s = BuyAndHold)
    by (destruct s; [left | left | right]; congruence).
  destruct Hcases as [Hs | Hs].
  - destruct (run_backtest_positions_diff _ _ _ Hr Hs) as [Hp Hlen].
    rewrite length_map in Hlen. rewrite Hp. split.
    + intros [|t] Ht; [lia|].
      rewrite nth_diff_S by lia.
      replace (S t - 1)%nat with t by lia. reflexivity.
    + destruct prices as [|p prices]; [contradiction|].
      destruct s as [sw lw | w lo hi | ]; try congruence;
        (split; [apply nth_diff_0|]); simpl in Hr.
      * destruct (backtest_simple_strategy_inv _ _ _ _ Hr) as [_ ->].
        apply signal_0_ma.
      * injection Hr as <-. apply signal_0_rsi.
  - subst s. simpl in Hr.
    destruct (buy_and_hold_columns _ _ Hr) as [Hsig Hpos].
    rewrite Hsig, Hpos. split.
    + intros [|t] Ht; [lia|].
      rewrite !nth_const_map by (rewrite length_map; lia).
      destruct prices as [|p prices]; [contradiction|].
      simpl. simpl in Ht.
      rewrite nth_const_map by (rewrite length_map; lia).
      simpl. lra.
    + destruct prices; [contradiction|]. simpl. auto.
Qed.

Lemma position_change_is_signal_delta_witness :
  (exists r,
      run_backtest BuyAndHold (map Fin [10; 11; 12]) = Ok r /\
      nth 0 (positions r) NaN = f1 /\ nth 0 (signal r) NaN = f1) /\
  (exists r,
      run_backtest (MovingAverage 2 3) (map Fin [10; 11; 12]) = Ok r /\
      length (positions r) = 3%nat /\
      nth 0 (positions r) NaN = NaN /\ nth 0 (signal r) NaN = f0) /\
  run_backtest (MovingAverage 5 20) (map Fin [10; 11; 12]) = Raise ValueError.
Proof.
  split; [|split].
  - destruct (position_change_is_signal_delta BuyAndHold [10; 11; 12])
      as (_ & H); [discriminate|].
    destruct H as (r & Hr & _ & _ & _ & H0); [reflexivity|].
    exists r. split; [exact Hr | exact H0].
  - destruct (position_change_is_signal_delta (MovingAverage 2 3)
                [10; 11; 12]) as (_ & H); [discriminate|].
    destruct H as (r & Hr & _ & L & _ & H0); [reflexivity|].
    exists r. split; [exact Hr|]. split; [exact L | exact H0].
  - destruct (position_change_is_signal_delta (MovingAverage 5 20)
                [10; 11; 12]) as (H & _); [discriminate|].
    apply H. reflexivity.
Defined.

(** ** Exponential moving average *)

Lemma nth_scan_final {A B St : Type} (step : St -> A -> St * B) s xs t da db :
  (t < length xs)%nat ->
  nth t (scan step s xs) db
  = snd (step (scan_final step s (firstn t xs)) (nth t xs da)).
Proof.
  revert s t; induction xs as [|x r IH]; intros s t H; simpl in H; [lia|].
  destruct t as [|t]; simpl.
  - now destruct (step s x).
  - unfold scan_final. simpl fold_left.
    destruct (step s x) as [s' y]. simpl.
    apply IH. lia.
Qed.

Lemma scan_final_S {A B St : Type} (step : St -> A -> St * B) s xs t da :
  (t < length xs)%nat ->
  scan_final step s (firstn (S t) xs)
  = fst (step (scan_final step s (firstn t xs)) (nth t xs da)).
Proof.
  revert s t; induction xs as [|x r IH]; intros s t H; simpl in H; [lia|].
  destruct t as [|t].
  - reflexivity.
  - change (firstn (S (S t)) (x :: r)) with (x :: firstn (S t) r).
    change (firstn (S t) (x :: r)) with (x :: firstn t r).
    unfold scan_final in *. simpl. apply IH. lia.
Qed.

Lemma qsum_app (a b : list Q) : qsum (a ++ b) == qsum a + qsum b.
Proof.
  induction a as [|x a IH]; simpl; [ring|]. rewrite IH. ring.
Qed.

Lemma qsum_scale (k : Q) (f g : nat -> Q) (l : list nat) :
  (forall i, In i l -> g i == k * f i) ->
  qsum (map g l) == k * qsum (map f l).
Proof.
  induction l as [|i l IH]; intros H; simpl; [ring|].
  rewrite IH by (intros; apply H; now right).
  rewrite (H i) by (now left). ring.
Qed.

Lemma ema_weight_S alpha t i :
  (i <= t)%nat -> ema_weight alpha (S t) i == (1 - alpha) * ema_weight alpha t i.
Proof.
  intros H. unfold ema_weight.
  replace (S t - i)%nat with (S (t - i)) by lia. reflexivity.
Qed.

Lemma ema_weight_diag alpha t : ema_weight alpha t t == 1.
Proof. unfold ema_weight. rewrite Nat.sub_diag. reflexivity. Qed.

Lemma ema_weighted_sum_rec alpha xs t :
  ema_weighted_sum alpha xs t == wsum_rec (1 - alpha) xs t.
Proof.
  induction t as [|t IH].
  - unfold ema_weighted_sum. simpl. rewrite ema_weight_diag. ring.
  - unfold ema_weighted_sum in *.
    rewrite (seq_S (S t)), map_app, qsum_app.
    rewrite (qsum_scale (1 - alpha)
               (fun i => ema_weight alpha t i * nth i xs 0)).
    + rewrite IH. cbn [map qsum fold_right Nat.add].
      rewrite ema_weight_diag.
      change (wsum_rec (1 - alpha) xs (S t))
        with (nth (S t) xs 0 + (1 - alpha) * wsum_rec (1 - alpha) xs t).
      ring.
    + intros i Hi. apply in_seq in Hi.
      rewrite ema_weight_S by lia. ring.
Qed.

Lemma ema_weight_total_rec alpha t :
  ema_weight_total alpha t == wtot_rec (1 - alpha) t.
Proof.
  induction t as [|t IH].
  - unfold ema_weight_total. simpl. rewrite ema_weight_diag. ring.
  - unfold ema_weight_total in *.
    rewrite (seq_S (S t)), map_app, qsum_app.
    rewrite (qsum_scale (1 - alpha) (fun i => ema_weight alpha t i)).
    + rewrite IH. cbn [map qsum fold_right Nat.add].
      rewrite ema_weight_diag.
      change (wtot_rec (1 - alpha) (S t))
        with (1 + (1 - alpha) * wtot_rec (1 - alpha) t).
      ring.
    + intros i Hi. apply in_seq in Hi.
      now rewrite ema_weight_S by lia.
Qed.

Lemma wtot_rec_ge_1 beta t : 0 <= beta -> 1 <= wtot_rec beta t.
Proof.
  intros Hb. induction t as [|t IH]; simpl; [lra|]. nra.
Qed.

Lemma ewm_alpha_formula (span : nat) :
  (1 <= span)%nat ->
  ewm_alpha span == 2 / (inject_Z (Z.of_nat span) + 1) /\
  0 < ewm_alpha span /\ ewm_alpha span <= 1.
Proof.
  intros H. unfold ewm_alpha.
  assert (Hs : 1 <= inject_Z (Z.of_nat span)).
  { change 1 with (inject_Z 1). rewrite <- Zle_Qle. lia. }
  set (n := inject_Z (Z.of_nat span)) in *.
  split; [field; repeat split; lra|].
  assert (Hc : 0 <= (n - 1) / 2) by (apply Qle_shift_div_l; lra).
  set (c := (n - 1) / 2) in *.
  split.
  - apply Qlt_shift_div_l; lra.
  - apply Qle_shift_div_r; lra.
Qed.

Lemma ewm_step_snd f n st cur :
  snd (ewm_step f n st cur)
  = if (1 <=? nobs (fst (ewm_step f n st cur)))%nat
    then weighted (fst (ewm_step f n st cur)) else NaN.
Proof. reflexivity. Qed.

Lemma ewm_step_first f n (x : Q) :
  fst (ewm_step f n {| weighted := NaN; old_wt := 1; nobs := 0 |} (Fin x))
  = {| weighted := Fin x; old_wt := 1; nobs := 1 |}.
Proof. reflexivity. Qed.

(** One step of the pandas pass keeps the average equal to the quotient of
    the two weighted sums. *)
Lemma ewm_step_next (beta w ow num den x : Q) (k : nat) :
  0 <= beta -> 1 <= den ->
  w == num / den -> ow == den -> (1 <= k)%nat ->
  let st' := fst (ewm_step beta 1
                    {| weighted := Fin w; old_wt := ow; nobs := k |} (Fin x)) in
  exists w', weighted st' = Fin w' /\
             w' == (x + beta * num) / (1 + beta * den) /\
             old_wt st' == 1 + beta * den /\ (1 <= nobs st')%nat.
Proof.
  intros Hb Hd Hw How Hk. unfold ewm_step. cbn [weighted old_wt nobs is_nan negb fst].
  assert (Hden : 0 < 1 + beta * den) by nra.
  unfold fneb, feqb.
  destruct (Qeq_bool w x) eqn:E; cbn [negb weighted old_wt nobs].
  - apply Qeq_bool_iff in E. exists w. split; [reflexivity|].
    split; [| split; [rewrite How; ring | lia]].
    rewrite <- E. rewrite Hw. field. split; lra.
  - unfold fmul, fadd, fdiv.
    assert (Z : Qzero_b (ow * beta + 1) = false).
    { apply Qzero_b_false. rewrite How. nra. }
    rewrite Z. eexists. split; [reflexivity|].
    split; [| split; [rewrite How; ring | lia]].
    rewrite Hw, How. field. split; lra.
Qed.

Lemma ewm_state_invariant (beta : Q) (xs : list Q) (t : nat) :
  0 <= beta -> (t < length xs)%nat ->
  let st := scan_final (ewm_step beta 1)
              {| weighted := NaN; old_wt := 1; nobs := 0 |}
              (firstn (S t) (map Fin xs)) in
  exists w, weighted st = Fin w /\
            w == wsum_rec beta xs t / wtot_rec beta t /\
            old_wt st == wtot_rec beta t /\ (1 <= nobs st)%nat.
Proof.
  intros Hb. induction t as [|t IH]; intros Ht.
  - destruct xs as [|x xs]; simpl in Ht; [lia|].
    cbn. exists x. split; [reflexivity|].
    split; [field | split; [reflexivity | lia]].
  - cbv zeta.
    rewrite (scan_final_S _ _ _ (S t) NaN) by (now rewrite length_map).
    rewrite nth_map_Fin by exact Ht.
    destruct IH as (w & Ew & Hw & How & Hk); [lia|].
    destruct (scan_final (ewm_step beta 1)
                {| weighted := NaN; old_wt := 1; nobs := 0 |}
                (firstn (S t) (map Fin xs))) as [wv ow k].
    simpl in Ew, How, Hk. subst wv.
    apply (ewm_step_next beta w ow (wsum_rec beta xs t) (wtot_rec beta t));
      auto.
    now apply wtot_rec_ge_1.
Qed.

(** C2.  For every series of finite values and every span >= 1,
    [exponential_moving_average] returns a series of the same length whose
    value at every position t (warm-up positions included) is the sum of
    x[0..t] weighted by (1-alpha)^(t-i), alpha = 2/(span+1), divided by the
    (positive) sum of those weights.  It is not the recurrence seeded with
    the first raw value: on [1, 2] with span 3 the second value is 5/3, the
    seeded recurrence gives 3/2. *)
Theorem ema_is_bias_adjusted_average :
  (forall (xs : list Q) (span : nat),
      (1 <= span)%nat ->
      let alpha := ewm_alpha span in
      alpha == 2 / (inject_Z (Z.of_nat span) + 1) /\
      exists out,
        exponential_moving_average (map Fin xs) span = Ok out /\
        length out = length xs /\
        forall t, (t < length xs)%nat ->
          0 < ema_weight_total alpha t /\
          feq (nth t out NaN) (Fin (ema_bias_adjusted alpha xs t))) /\
  (exponential_moving_average (map Fin [1; 2]) 3
   = Ok [Fin 1; Fin (40 # 24)] /\
   ema_bias_adjusted (ewm_alpha 3) [1; 2] 1 == 5 # 3 /\
   ema_seeded (ewm_alpha 3) [1; 2] 1 == 3 # 2).
Proof.
  split.
  - intros xs span Hspan alpha.
    destruct (ewm_alpha_formula span Hspan) as (Ha & Ha0 & Ha1).
    split; [exact Ha|].
    unfold exponential_moving_average, ewm_mean.
    replace (span <? 1)%nat with false by (symmetry; apply Nat.ltb_ge; lia).
    rewrite prep_values_Fin.
    eexists. split; [reflexivity|].
    split; [now rewrite scan_length, length_map|].
    intros t Ht.
    assert (Hb : 0 <= 1 - alpha) by (unfold alpha; lra).
    pose proof (wtot_rec_ge_1 (1 - alpha) t Hb) as Hw1.
    split; [rewrite ema_weight_total_rec; lra|].
    rewrite (nth_scan_final _ _ _ t NaN NaN) by (now rewrite length_map).
    rewrite ewm_step_snd.
    rewrite <- (scan_final_S _ _ _ t NaN) by (now rewrite length_map).
    destruct (ewm_state_invariant (1 - alpha) xs t Hb Ht)
      as (w & Ew & Hw & _ & Hk).
    fold alpha.
    replace (1 <=? _)%nat with true by (symmetry; now apply Nat.leb_le).
    rewrite Ew. simpl. rewrite Hw. unfold ema_bias_adjusted.
    now rewrite ema_weighted_sum_rec, ema_weight_total_rec.
  - split; [reflexivity|]. split; reflexivity.
Qed.

Lemma ema_is_bias_adjusted_average_witness :
  exists out,
    exponential_moving_average (map Fin [1; 2; 3]) 3 = Ok out /\
    feq (nth 2 out NaN) (Fin (ema_bias_adjusted (ewm_alpha 3) [1; 2; 3] 2)).
Proof.
  destruct ema_is_bias_adjusted_average as [H _].
  destruct (H [1; 2; 3] 3%nat) as (_ & out & Hout & _ & Hval).
  - lia.
  - exists out. split; [exact Hout|].
    apply (Hval 2%nat). simpl. lia.
Defined.

(** ** Risk metrics *)

Lemma round_half_even_comp (q q' : Q) :
  q == q' -> round_half_even q = round_half_even q'.
Proof.
  intros H. unfold round_half_even.
  rewrite (Qfloor_comp _ _ H).
  assert (E : Qcompare (q - inject_Z (Qfloor q')) (1 # 2)
              = Qcompare (q' - inject_Z (Qfloor q')) (1 # 2))
    by (now rewrite H).
  now rewrite E.
Qed.

Lemma round_half_even_close (q : Q) :
  Qabs (inject_Z (round_half_even q) - q) <= 1 # 2.
Proof.
  unfold round_half_even.
  pose proof (Qfloor_le q) as Hlo. pose proof (Qlt_floor q) as Hhi.
  set (f := Qfloor q) in *.
  rewrite inject_Z_plus in Hhi. change (inject_Z 1) with 1 in Hhi.
  destruct (Qcompare (q - inject_Z f) (1 # 2)) eqn:E.
  - apply Qeq_alt in E.
    destruct (Z.even f); [|rewrite inject_Z_plus; change (inject_Z 1) with 1];
      apply Qabs_Qle_condition; lra.
  - apply Qlt_alt in E. apply Qabs_Qle_condition; lra.
  - apply Qgt_alt in E. rewrite inject_Z_plus. change (inject_Z 1) with 1.
    apply Qabs_Qle_condition; lra.
Qed.

Lemma round4_rounded (v : fval) : rounded4 (round4 v).
Proof. destruct v; simpl; auto. eexists; reflexivity. Qed.

Lemma round4_close (e : Q) :
  exists a, round4 (Fin e) = Fin a /\ Qabs (a - e) <= 1 # 20000.
Proof.
  eexists. split; [reflexivity|].
  pose proof (round_half_even_close (e * 10000)) as H.
  set (z := round_half_even (e * 10000)) in *.
  rewrite (Qmake_Qdiv z 10000).
  apply Qabs_Qle_condition in H. apply Qabs_Qle_condition.
  change (inject_Z (Z.pos 10000)) with 10000.
  assert (E : inject_Z z / 10000 - e == (inject_Z z - e * 10000) / 10000)
    by field.
  rewrite E. split.
  - apply Qle_shift_div_l; lra.
  - apply Qle_shift_div_r; lra.
Qed.

Lemma risk_metrics_nonempty fsqrt returns :
  dropna returns <> [] ->
  annual_return (risk_metrics fsqrt returns)
  = round4 (fmul (mean (dropna returns)) f252) /\
  annual_volatility (risk_metrics fsqrt returns)
  = round4 (fmul (std_sample fsqrt (dropna returns)) (np_sqrt fsqrt f252)).
Proof.
  intros H. unfold risk_metrics.
  destruct (dropna returns) as [|v r] eqn:E; [contradiction|].
  simpl length. cbn [Nat.eqb]. cbn [annual_return annual_volatility].
  split; reflexivity.
Qed.

(** C4 (as stated, refuted).  On the two returns 0.00001 and 0.00003 the
    exact annual return is 0.00504, the engine itself returns 0.005. *)
Lemma risk_metrics_rounds_inside_engine :
  let returns := [Fin (1 # 100000); Fin (3 # 100000)] in
  annual_return (risk_metrics sqrt_floor returns) = Fin (50 # 10000) /\
  feq (fmul (mean (dropna returns)) f252) (Fin (504 # 100000)) /\
  ~ feq (annual_return (risk_metrics sqrt_floor returns))
        (fmul (mean (dropna returns)) f252).
Proof.
  split; [reflexivity|]. split; [reflexivity|].
  vm_compute. discriminate.
Qed.

(** C4 (amended).  The risk-metrics engine itself rounds: each of
    annualReturn, annualVolatility, sharpeRatio, maxDrawdown, var95,
    skewness and kurtosis it returns is a multiple of 1/10000 (or is not
    finite), and when valid entries remain annualReturn is the 4-decimal
    rounding of mean x 252, within 1/20000 of the exact value. *)
Theorem risk_metrics_rounded_to_four_decimals :
  forall (fsqrt : Q -> Q) (returns : list fval),
    let m := risk_metrics fsqrt returns in
    (rounded4 (annual_return m) /\ rounded4 (annual_volatility m) /\
     rounded4 (sharpe_ratio m) /\ rounded4 (max_drawdown m) /\
     rounded4 (var_95 m) /\ rounded4 (skewness m) /\
     rounded4 (kurtosis m)) /\
    (forall e, dropna returns <> [] ->
               fmul (mean (dropna returns)) f252 = Fin e ->
               exists a, annual_return m = Fin a /\
                         Qabs (a - e) <= 1 # 20000).
Proof.
  intros fsqrt returns m. split.
  - unfold m, risk_metrics.
    destruct (length (dropna returns) =? 0)%nat;
      cbn [annual_return annual_volatility sharpe_ratio max_drawdown var_95
           skewness kurtosis].
    + assert (Z : rounded4 f0) by (exists 0%Z; reflexivity).
      repeat split; exact Z.
    + repeat split; apply round4_rounded.
  - intros e Hne He. unfold m.
    destruct (risk_metrics_nonempty fsqrt returns Hne) as [Ha _].
    rewrite Ha, He. apply round4_close.
Qed.

Lemma risk_metrics_rounded_to_four_decimals_witness :
  exists a,
    annual_return
      (risk_metrics sqrt_floor [Fin (1 # 100000); Fin (3 # 100000)]) = Fin a /\
    Qabs (a - (100800000 # 20000000000)) <= 1 # 20000.
Proof.
  destruct (risk_metrics_rounded_to_four_decimals sqrt_floor
              [Fin (1 # 100000); Fin (3 # 100000)]) as [_ H].
  apply H.
  - discriminate.
  - vm_compute. reflexivity.
Defined.

Lemma std_sample_single fsqrt (v : fval) : std_sample fsqrt [v] = NaN.
Proof. reflexivity. Qed.

(** C10.  When exactly one valid (non-missing, finite) entry x remains,
    [risk_metrics] returns a defined annualReturn, the 4-decimal rounding
    of 252 x, but an undefined (NaN) annualVolatility and sharpeRatio: the
    sample standard deviation of one observation is NaN and the guard
    [annual_volatility != 0] lets it through.  The all-zero record is
    returned when no valid entry remains. *)
Theorem risk_metrics_single_observation :
  forall (fsqrt : Q -> Q) (returns : list fval),
    (forall x, dropna returns = [Fin x] ->
       let m := risk_metrics fsqrt returns in
       annual_return m = Fin (round_half_even (x * 252 * 10000) # 10000) /\
       annual_volatility m = NaN /\
       sharpe_ratio m = NaN) /\
    (dropna returns = [] ->
       risk_metrics fsqrt returns
       = {| annual_return := f0; annual_volatility := f0;
            sharpe_ratio := f0; max_drawdown := f0; var_95 := f0;
            skewness := f0; kurtosis := f0 |}).
Proof.
  intros fsqrt returns. split.
  - intros x Hx m. unfold m, risk_metrics. rewrite Hx.
    cbn [length Nat.eqb annual_return annual_volatility sharpe_ratio].
    rewrite std_sample_single. cbn [fmul round4 fneb feqb negb fdiv].
    split; [| split; reflexivity].
    unfold mean, np_sum, fnat. cbn [fold_left fadd f0 length].
    unfold fdiv. change (Qzero_b (inject_Z (Z.of_nat 1))) with false.
    cbn [fmul f252 round4]. f_equal.
    rewrite (round_half_even_comp _ (x * 252 * 10000)); [reflexivity|].
    change (inject_Z (Z.of_nat 1)) with 1. field.
  - intros H. unfold risk_metrics. now rewrite H.
Qed.

Lemma risk_metrics_single_observation_witness :
  let m := risk_metrics sqrt_floor [NaN; Fin (1 # 100)] in
  annual_return m = Fin (25200 # 10000) /\
  annual_volatility m = NaN /\ sharpe_ratio m = NaN.
Proof.
  destruct (risk_metrics_single_observation sqrt_floor [NaN; Fin (1 # 100)])
    as [H _].
  apply (H (1 # 100)). reflexivity.
Defined.

(** ** Portfolio weights *)

Lemma fold_fadd_Fin (l : list Q) (a : Q) :
  fold_left fadd (map Fin l) (Fin a) = Fin (fold_left Qplus l a).
Proof.
  revert a; induction l as [|x l IH]; intros a; simpl; auto.
Qed.

Lemma np_sum_Fin (l : list Q) : np_sum (map Fin l) = Fin (fold_left Qplus l 0).
Proof. apply fold_fadd_Fin. Qed.

Lemma fold_Qplus_acc (l : list Q) (a : Q) :
  fold_left Qplus l a == a + fold_left Qplus l 0.
Proof.
  revert a; induction l as [|x l IH]; intros a; simpl; [ring|].
  rewrite (IH (a + x)), (IH (0 + x)). ring.
Qed.

Lemma fold_Qplus_cons (x : Q) (l : list Q) :
  fold_left Qplus (x :: l) 0 == x + fold_left Qplus l 0.
Proof. simpl. rewrite fold_Qplus_acc. ring. Qed.

Lemma fold_Qplus_div (l : list Q) (k : Q) :
  ~ k == 0 ->
  fold_left Qplus (map (fun x => x / k) l) 0 == fold_left Qplus l 0 / k.
Proof.
  intros Hk. induction l as [|x l IH].
  - simpl. field. exact Hk.
  - cbn [map]. rewrite !fold_Qplus_cons, IH. field. exact Hk.
Qed.

Lemma fold_Qplus_repeat (c : Q) (n : nat) :
  fold_left Qplus (repeat c n) 0 == inject_Z (Z.of_nat n) * c.
Proof.
  induction n as [|n IH].
  - simpl. ring.
  - cbn [repeat]. rewrite fold_Qplus_cons, IH.
    rewrite Nat2Z.inj_succ. unfold Z.succ. rewrite inject_Z_plus.
    change (inject_Z 1) with 1. ring.
Qed.

Lemma fold_Qplus_pos (l : list Q) :
  l <> [] -> Forall (fun x => 0 < x) l -> 0 < fold_left Qplus l 0.
Proof.
  intros Hne H. induction H as [|x l Hx Hl IH]; [contradiction|].
  rewrite fold_Qplus_cons.
  destruct l as [|y l].
  - simpl. lra.
  - assert (0 < fold_left Qplus (y :: l) 0) by (apply IH; discriminate).
    lra.
Qed.

(** Normalising finite numbers by their nonzero total gives finite
    weights that sum to 1. *)
Lemma normalise_finite (raw : list Q) :
  ~ fold_left Qplus raw 0 == 0 ->
  let total := np_sum (map Fin raw) in
  let ws := map (fun w => fdiv w total) (map Fin raw) in
  ws = map Fin (map (fun x => x / fold_left Qplus raw 0) raw) /\
  feq (np_sum ws) f1.
Proof.
  intros Hne total ws. unfold ws, total. rewrite np_sum_Fin.
  set (T := fold_left Qplus raw 0) in *.
  assert (E : map (fun w => fdiv w (Fin T)) (map Fin raw)
              = map Fin (map (fun x => x / T) raw)).
  { rewrite !map_map. apply map_ext. intros x. unfold fdiv.
    apply Qzero_b_false in Hne. now rewrite Hne. }
  split; [exact E|].
  rewrite E, np_sum_Fin. simpl. rewrite fold_Qplus_div by exact Hne.
  unfold T. field. exact Hne.
Qed.

(** Normalising by a zero total gives no finite weight. *)
Lemma normalise_zero_total (raw : list Q) :
  fold_left Qplus raw 0 == 0 ->
  Forall (fun w => is_fin w = false)
    (map (fun w => fdiv w (np_sum (map Fin raw))) (map Fin raw)).
Proof.
  intros H0. rewrite np_sum_Fin. apply Forall_map. apply Forall_map.
  apply Forall_forall. intros x _. unfold fdiv.
  apply Qzero_b_iff in H0. rewrite H0.
  destruct (qsign x) as [[|]|]; reflexivity.
Qed.

Lemma matvec_ones_finite (m : matrix) :
  matvec_ones m
  = map Fin (map (fun row => fold_left Qplus (map (fun q => q * 1) row) 0) m).
Proof.
  unfold matvec_ones. rewrite map_map. apply map_ext. intros row.
  rewrite <- np_sum_Fin. now rewrite map_map.
Qed.

Lemma is_fin_exists (v : fval) : is_fin v = true -> exists q, v = Fin q.
Proof. destruct v; try discriminate. eauto. Qed.

Lemma fold_fadd_finite (l : list fval) (a : Q) :
  Forall (fun v => is_fin v = true) l ->
  is_fin (fold_left fadd l (Fin a)) = true.
Proof.
  intros H. revert a; induction H as [|x l Hx Hl IH]; intros a; simpl; auto.
  destruct x; try discriminate. apply IH.
Qed.

Lemma fnat_div_finite (q : Q) (n : nat) :
  (0 < n)%nat -> is_fin (fdiv (Fin q) (fnat n)) = true.
Proof.
  intros H. unfold fdiv, fnat.
  pose proof (inject_nat_pos n H) as Hp.
  assert (E : Qzero_b (inject_Z (Z.of_nat n)) = false)
    by (apply Qzero_b_false; lra).
  now rewrite E.
Qed.

Lemma mean_finite (l : list fval) :
  (0 < length l)%nat -> Forall (fun v => is_fin v = true) l ->
  is_fin (mean l) = true.
Proof.
  intros Hlen H. unfold mean, np_sum, f0.
  destruct (is_fin_exists _ (fold_fadd_finite l 0 H)) as [s Hs].
  rewrite Hs. now apply fnat_div_finite.
Qed.

Lemma Forall_finite_map_Fin (l : list Q) :
  Forall (fun v => is_fin v = true) (map Fin l).
Proof. induction l; simpl; constructor; auto. Qed.

Lemma Forall_finite_map2 (f : fval -> fval -> fval) xs ys :
  (forall a b, is_fin (f (Fin a) (Fin b)) = true) ->
  Forall (fun v => is_fin v = true) xs ->
  Forall (fun v => is_fin v = true) ys ->
  Forall (fun v => is_fin v = true) (map2 f xs ys).
Proof.
  intros Hf Hx. revert ys; induction Hx as [|x xs Hx Hxs IH];
    intros ys Hy; simpl; [constructor|].
  destruct Hy as [|y ys Hy Hys]; constructor; auto.
  destruct x, y; try discriminate. apply Hf.
Qed.

Lemma cov_pair_finite (a b : list Q) :
  (2 <= length a)%nat -> (1 <= length b)%nat ->
  is_fin (cov_pair (map Fin a) (map Fin b)) = true.
Proof.
  intros Ha Hb. unfold cov_pair. rewrite length_map.
  replace (length a <=? 1)%nat with false
    by (symmetry; apply Nat.leb_gt; lia).
  destruct (is_fin_exists (mean (map Fin a))) as [mx Emx].
  { apply mean_finite; [rewrite length_map; lia|].
    apply Forall_finite_map_Fin. }
  destruct (is_fin_exists (mean (map Fin b))) as [my Emy].
  { apply mean_finite; [rewrite length_map; lia|].
    apply Forall_finite_map_Fin. }
  rewrite Emx, Emy.
  match goal with
  | |- is_fin (fdiv (np_sum ?l) _) = true =>
      destruct (is_fin_exists (np_sum l)) as [s Hs]
  end.
  { apply fold_fadd_finite. apply Forall_finite_map2;
      auto using Forall_finite_map_Fin. }
  rewrite Hs. apply fnat_div_finite. lia.
Qed.

Lemma finite_row_some (r : list fval) :
  Forall (fun v => is_fin v = true) r -> exists l, finite_row r = Some l.
Proof.
  intros H. induction H as [|x r Hx Hr [l IH]]; simpl; eauto.
  destruct x; try discriminate. rewrite IH. eauto.
Qed.

Lemma finite_matrix_some (m : list (list fval)) :
  Forall (Forall (fun v => is_fin v = true)) m ->
  exists c, finite_matrix m = Some c.
Proof.
  intros H. induction H as [|r m Hr Hm [c IH]]; simpl; eauto.
  destruct (finite_row_some r Hr) as [l El]. rewrite El, IH. eauto.
Qed.

(** With at least two returns per asset the sample covariance matrix is
    finite, whatever its rank. *)
Lemma cov_finite (df : frame) :
  Forall (fun c => (2 <= length (snd c))%nat) df ->
  exists c, finite_matrix (cov df) = Some c.
Proof.
  intros H. apply finite_matrix_some. unfold cov.
  apply Forall_map. apply Forall_forall. intros ci Hci.
  apply Forall_map. apply Forall_forall. intros cj Hcj.
  rewrite Forall_forall in H.
  unfold col_values. apply cov_pair_finite.
  - now apply H.
  - specialize (H cj Hcj). simpl in H. lia.
Qed.

Lemma minimum_variance_weights fsqrt pinv df c :
  finite_matrix (cov df) = Some c ->
  portfolio_weights fsqrt pinv df "minimum_variance"%string
  = Ok (map (fun w => fdiv w (np_sum (matvec_ones (pinv c))))
            (matvec_ones (pinv c))).
Proof.
  intros H. unfold portfolio_weights.
  change (String.eqb "minimum_variance"%string "equal_weight"%string) with false.
  change (String.eqb "minimum_variance"%string "risk_parity"%string) with false.
  change (String.eqb "minimum_variance"%string "minimum_variance"%string) with true.
  cbv iota. now rewrite H.
Qed.

Lemma portfolio_optimization_ok fsqrt pinv df method ws :
  portfolio_weights fsqrt pinv df method = Ok ws ->
  exists p, portfolio_optimization fsqrt pinv df method = Ok p /\
            weights p = combine (map fst df) ws.
Proof.
  intros H. unfold portfolio_optimization. rewrite H.
  eexists; split; reflexivity.
Qed.

(** *** The reference pseudoinverse on the example frames

    [pinv_greville] reduces its result, so it depends on the values of the
    entries of its argument and not on the way the rationals are written;
    the covariance matrices of the example frames can therefore be
    replaced by their reduced forms before the recursion is run. *)

Lemma Forall2_map2_rel {A A' B B' C C' : Type} (RA : A -> A' -> Prop)
  (RB : B -> B' -> Prop) (RC : C -> C' -> Prop)
  (f : A -> B -> C) (f' : A' -> B' -> C') :
  (forall x x' y y', RA x x' -> RB y y' -> RC (f x y) (f' x' y')) ->
  forall xs xs' ys ys',
    Forall2 RA xs xs' -> Forall2 RB ys ys' ->
    Forall2 RC (map2 f xs ys) (map2 f' xs' ys').
Proof.
  intros Hf xs xs' ys ys' Hx. revert ys ys'.
  induction Hx; intros ys ys' Hy; simpl; [constructor|].
  destruct Hy; constructor; auto.
Qed.

Lemma Forall2_map_rel {A A' B B' : Type} (RA : A -> A' -> Prop)
  (RB : B -> B' -> Prop) (f : A -> B) (f' : A' -> B') :
  (forall x x', RA x x' -> RB (f x) (f' x')) ->
  forall xs xs', Forall2 RA xs xs' -> Forall2 RB (map f xs) (map f' xs').
Proof.
  intros Hf xs xs' H. induction H; simpl; constructor; auto.
Qed.

Lemma Forall2_fold_left_rel {A A' St St' : Type} (RA : A -> A' -> Prop)
  (RS : St -> St' -> Prop) (f : St -> A -> St) (f' : St' -> A' -> St') :
  (forall s s' x x', RS s s' -> RA x x' -> RS (f s x) (f' s' x')) ->
  forall xs xs', Forall2 RA xs xs' ->
  forall s s', RS s s' -> RS (fold_left f xs s) (fold_left f' xs' s').
Proof.
  intros Hf xs xs' H. induction H; intros s s' Hs; simpl; auto.
Qed.

Lemma Forall2_Qeq_refl (l : list Q) : Forall2 Qeq l l.
Proof. induction l; constructor; auto. reflexivity. Qed.

Lemma qdot_Qeq (u u' v v' : list Q) :
  Forall2 Qeq u u' -> Forall2 Qeq v v' -> qdot u v == qdot u' v'.
Proof.
  intros Hu Hv. unfold qdot.
  apply (Forall2_fold_left_rel Qeq Qeq).
  - intros s s' x x' Hs Hx. now rewrite Hs, Hx.
  - apply (Forall2_map2_rel Qeq Qeq Qeq); auto.
    intros x x' y y' Hx Hy. now rewrite Hx, Hy.
  - reflexivity.
Qed.

Lemma qscale_Qeq (k k' : Q) (v v' : list Q) :
  k == k' -> Forall2 Qeq v v' -> Forall2 Qeq (qscale k v) (qscale k' v').
Proof.
  intros Hk Hv. unfold qscale. apply (Forall2_map_rel Qeq Qeq); auto.
  intros x x' Hx. now rewrite Hk, Hx.
Qed.

Lemma qvadd_Qeq (u u' v v' : list Q) :
  Forall2 Qeq u u' -> Forall2 Qeq v v' -> Forall2 Qeq (qvadd u v) (qvadd u' v').
Proof.
  intros Hu Hv. unfold qvadd. apply (Forall2_map2_rel Qeq Qeq Qeq); auto.
  intros x x' y y' Hx Hy. now rewrite Hx, Hy.
Qed.

Lemma qvsub_Qeq (u u' v v' : list Q) :
  Forall2 Qeq u u' -> Forall2 Qeq v v' -> Forall2 Qeq (qvsub u v) (qvsub u' v').
Proof.
  intros Hu Hv. unfold qvsub. apply (Forall2_map2_rel Qeq Qeq Qeq); auto.
  intros x x' y y' Hx Hy. now rewrite Hx, Hy.
Qed.

Lemma qlincomb_Qeq (ks ks' : list Q) (vs vs' : matrix) (dim : nat) :
  Forall2 Qeq ks ks' -> Forall2 (Forall2 Qeq) vs vs' ->
  Forall2 Qeq (qlincomb ks vs dim) (qlincomb ks' vs' dim).
Proof.
  intros Hk Hv. unfold qlincomb.
  apply (Forall2_fold_left_rel (Forall2 Qeq) (Forall2 Qeq)).
  - intros; now apply qvadd_Qeq.
  - apply (Forall2_map2_rel Qeq (Forall2 Qeq) (Forall2 Qeq)); auto.
    intros; now apply qscale_Qeq.
  - apply Forall2_Qeq_refl.
Qed.

Lemma forallb_Qzero_b_Qeq (c c' : list Q) :
  Forall2 Qeq c c' -> forallb Qzero_b c = forallb Qzero_b c'.
Proof.
  intros H. induction H as [|x x' c c' Hx Hc IH]; simpl; auto.
  rewrite IH. f_equal. unfold Qzero_b. now rewrite Hx.
Qed.

Lemma greville_step_Qeq (dim : nat) (st st' : matrix * matrix) (a a' : list Q) :
  Forall2 (Forall2 Qeq) (fst st) (fst st') /\
  Forall2 (Forall2 Qeq) (snd st) (snd st') ->
  Forall2 Qeq a a' ->
  Forall2 (Forall2 Qeq) (fst (greville_step dim st a))
                        (fst (greville_step dim st' a')) /\
  Forall2 (Forall2 Qeq) (snd (greville_step dim st a))
                        (snd (greville_step dim st' a')).
Proof.
  destruct st as [cols p], st' as [cols' p']. cbn [fst snd].
  intros [Hc Hp] Ha. unfold greville_step.
  set (d := map (fun prow => qdot prow a) p).
  set (d' := map (fun prow => qdot prow a') p').
  assert (Hd : Forall2 Qeq d d').
  { apply (Forall2_map_rel (Forall2 Qeq) Qeq); auto.
    intros x x' Hx. now apply qdot_Qeq. }
  set (c := qvsub a (qlincomb d cols dim)).
  set (c' := qvsub a' (qlincomb d' cols' dim)).
  assert (Hcc : Forall2 Qeq c c').
  { apply qvsub_Qeq; auto. now apply qlincomb_Qeq. }
  rewrite (forallb_Qzero_b_Qeq c c' Hcc).
  set (b := if forallb Qzero_b c' then _ else _).
  set (b' := if forallb Qzero_b c' then _ else _).
  assert (Hb : Forall2 Qeq b b').
  { unfold b, b'. destruct (forallb Qzero_b c').
    - apply qscale_Qeq; [|now apply qlincomb_Qeq].
      now rewrite (qdot_Qeq d d' d d' Hd Hd).
    - apply qscale_Qeq; auto.
      now rewrite (qdot_Qeq c c' c c' Hcc Hcc). }
  cbn [fst snd]. split.
  - apply Forall2_app; auto.
  - apply Forall2_app; [|auto].
    apply (Forall2_map2_rel (Forall2 Qeq) Qeq (Forall2 Qeq)); auto.
    intros x x' y y' Hx Hy. apply qvsub_Qeq; auto. now apply qscale_Qeq.
Qed.

Lemma nth_Qeq (r r' : list Q) (j : nat) :
  Forall2 Qeq r r' -> nth j r 0 == nth j r' 0.
Proof.
  intros H. revert j. induction H; intros [|j]; simpl; auto; reflexivity.
Qed.

Lemma transpose_Qeq (a a' : matrix) :
  Forall2 (Forall2 Qeq) a a' ->
  Forall2 (Forall2 Qeq) (transpose a) (transpose a').
Proof.
  intros H. unfold transpose.
  assert (E : n_cols a = n_cols a').
  { destruct H; simpl; auto. eapply Forall2_length; eauto. }
  rewrite <- E.
  apply (Forall2_map_rel eq (Forall2 Qeq)).
  - intros j j' <-. apply (Forall2_map_rel (Forall2 Qeq) Qeq); auto.
    intros r r' Hr. now apply nth_Qeq.
  - induction (seq 0 (n_cols a)); constructor; auto.
Qed.

Lemma map_Qred_Qeq (x x' : matrix) :
  Forall2 (Forall2 Qeq) x x' -> map (map Qred) x = map (map Qred) x'.
Proof.
  intros H. induction H as [|r r' x x' Hr Hx IH]; simpl; auto.
  rewrite IH. f_equal.
  induction Hr as [|q q' r r' Hq Hr IHr]; simpl; auto.
  rewrite IHr. f_equal. now apply Qred_complete.
Qed.

(** The reference pseudoinverse depends on the values of the entries of
    its argument, not on the way the rationals are written. *)
Lemma pinv_greville_Qeq (a a' : matrix) :
  Forall2 (Forall2 Qeq) a a' -> pinv_greville a = pinv_greville a'.
Proof.
  intros H. unfold pinv_greville. apply map_Qred_Qeq.
  rewrite (Forall2_length H).
  apply (Forall2_fold_left_rel (Forall2 Qeq)
           (fun st st' => Forall2 (Forall2 Qeq) (fst st) (fst st') /\
                          Forall2 (Forall2 Qeq) (snd st) (snd st'))).
  - intros s s' x x' Hs Hx. now apply greville_step_Qeq.
  - now apply transpose_Qeq.
  - split; constructor.
Qed.

Lemma forallb_combine_Forall2 {A B : Type} (f : A * B -> bool)
  (R : A -> B -> Prop) :
  (forall x y, f (x, y) = true -> R x y) ->
  forall xs ys, (length xs =? length ys)%nat = true ->
    forallb f (combine xs ys) = true -> Forall2 R xs ys.
Proof.
  intros Hf xs. induction xs as [|x xs IH]; intros [|y ys] L H;
    simpl in *; try discriminate; constructor.
  - apply Hf. now apply andb_prop in H.
  - apply IH; auto. now apply andb_prop in H.
Qed.

Lemma matrix_eqb_Qeq (a b : matrix) :
  matrix_eqb a b = true -> Forall2 (Forall2 Qeq) a b.
Proof.
  unfold matrix_eqb. intros H. apply andb_prop in H as [L H].
  revert L H. apply forallb_combine_Forall2.
  intros r r' Hr. cbn [fst snd] in Hr. apply andb_prop in Hr as [L Hr].
  revert L Hr. apply forallb_combine_Forall2.
  intros x y Hxy. now apply Qeq_bool_iff.
Qed.

(** The covariance matrices of the example frames and their
    pseudoinverses, with the four Penrose equations checked. *)
Lemma flat_assets_pinv :
  exists c, finite_matrix (cov flat_assets) = Some c /\
            matrix_eqb c [[0; 0]; [0; 0]] = true /\
            pinv_greville c = [[0; 0]; [0; 0]] /\
            penrose c [[0; 0]; [0; 0]] = true.
Proof.
  eexists. split; [vm_compute; reflexivity|].
  split; [vm_compute; reflexivity|].
  split; vm_compute; reflexivity.
Qed.

Lemma correlated_assets_pinv :
  exists c, finite_matrix (cov correlated_assets) = Some c /\
            pinv_greville c = [[200; 400]; [400; 800]] /\
            penrose c [[200; 400]; [400; 800]] = true.
Proof.
  eexists. split; [vm_compute; reflexivity|]. split.
  - rewrite (pinv_greville_Qeq _
               [[1 # 5000; 1 # 2500]; [1 # 2500; 1 # 1250]])
      by (apply matrix_eqb_Qeq; vm_compute; reflexivity).
    vm_compute; reflexivity.
  - vm_compute; reflexivity.
Qed.

Lemma leveraged_assets_pinv :
  exists c, finite_matrix (cov leveraged_assets) = Some c /\
            pinv_greville c
            = [[70000 # 3; -20000 # 3]; [-20000 # 3; 10000 # 3]] /\
            penrose c [[70000 # 3; -20000 # 3]; [-20000 # 3; 10000 # 3]]
            = true.
Proof.
  eexists. split; [vm_compute; reflexivity|]. split.
  - rewrite (pinv_greville_Qeq _
               [[1 # 10000; 1 # 5000]; [1 # 5000; 7 # 10000]])
      by (apply matrix_eqb_Qeq; vm_compute; reflexivity).
    vm_compute; reflexivity.
  - vm_compute; reflexivity.
Qed.

(** C7 (as stated, refuted).  Two assets with constant returns: the
    covariance matrix is the zero matrix, which is singular; its
    pseudoinverse (checked by the four Penrose equations) is the zero
    matrix, the raw weights are 0 and 0, and the optimizer returns, without
    an error, weights that are NaN. *)
Lemma zero_sum_weights_returned_as_nan :
  exists c p,
    finite_matrix (cov flat_assets) = Some c /\
    matrix_eqb c [[0; 0]; [0; 0]] = true /\
    penrose c (pinv_greville c) = true /\
    matvec_ones (pinv_greville c) = [Fin 0; Fin 0] /\
    portfolio_optimization sqrt_floor pinv_greville flat_assets
      "minimum_variance"%string = Ok p /\
    weights p = [("A"%string, NaN); ("B"%string, NaN)].
Proof.
  destruct flat_assets_pinv as (c & Hc & Hz & Hp & Hpen).
  pose proof (minimum_variance_weights sqrt_floor pinv_greville _ _ Hc) as Hw.
  rewrite Hp in Hw.
  destruct (portfolio_optimization_ok _ _ _ _ _ Hw) as (p & Hpo & Hwp).
  exists c, p.
  split; [exact Hc|]. split; [exact Hz|].
  split; [now rewrite Hp|].
  split; [rewrite Hp; vm_compute; reflexivity|].
  split; [exact Hpo|].
  rewrite Hwp. vm_compute; reflexivity.
Qed.

(** C7 (amended).  Minimum-variance optimisation goes through the
    pseudoinverse and raises nothing for any covariance matrix, singular
    or not, as soon as every asset has two returns: when the raw weights
    pinv(C) 1 have a nonzero sum the weights are finite and sum to 1 (for
    two perfectly correlated assets they are 1/3 and 2/3); when the raw
    weights sum to exactly zero the optimizer still returns a result, in
    which no weight is finite (each is NaN or an infinity). *)
Theorem minimum_variance_via_pseudoinverse :
  (forall (fsqrt : Q -> Q) (pinv : matrix -> matrix) (df : frame),
      Forall (fun c => (2 <= length (snd c))%nat) df ->
      exists (c : matrix) (raw : list Q) (p : Portfolio),
        finite_matrix (cov df) = Some c /\
        matvec_ones (pinv c) = map Fin raw /\
        portfolio_optimization fsqrt pinv df "minimum_variance"%string = Ok p /\
        weights p = combine (map fst df)
                      (map (fun w => fdiv w (np_sum (map Fin raw)))
                           (map Fin raw)) /\
        (~ fold_left Qplus raw 0 == 0 ->
         exists ws, map (fun w => fdiv w (np_sum (map Fin raw))) (map Fin raw)
                    = map Fin ws /\
                    feq (np_sum (map Fin ws)) f1) /\
        (fold_left Qplus raw 0 == 0 ->
         Forall (fun w => is_fin w = false)
           (map (fun w => fdiv w (np_sum (map Fin raw))) (map Fin raw)))) /\
  (exists c,
      finite_matrix (cov correlated_assets) = Some c /\
      penrose c (pinv_greville c) = true /\
      portfolio_weights sqrt_floor pinv_greville correlated_assets
        "minimum_variance"%string = Ok [Fin (600 # 1800); Fin (1200 # 1800)]).
Proof.
  split.
  - intros fsqrt pinv df Hrows.
    destruct (cov_finite df Hrows) as [c Hc].
    exists c. eexists.
    pose proof (minimum_variance_weights fsqrt pinv df c Hc) as Hw.
    rewrite matvec_ones_finite in Hw.
    destruct (portfolio_optimization_ok _ _ _ _ _ Hw) as (p & Hp & Hwp).
    exists p.
    split; [exact Hc|]. split; [apply matvec_ones_finite|].
    split; [exact Hp|]. split; [exact Hwp|]. split.
    + intros Hne. destruct (normalise_finite _ Hne) as [E1 E2].
      eexists. split; [exact E1|]. rewrite <- E1. exact E2.
    + apply normalise_zero_total.
  - destruct correlated_assets_pinv as (c & Hc & Hp & Hpen).
    exists c. split; [exact Hc|]. split; [now rewrite Hp|].
    rewrite (minimum_variance_weights _ _ _ _ Hc), Hp.
    vm_compute; reflexivity.
Qed.

Lemma minimum_variance_via_pseudoinverse_witness :
  (exists p ws,
      portfolio_optimization sqrt_floor pinv_greville correlated_assets
        "minimum_variance"%string = Ok p /\
      map snd (weights p) = map Fin ws /\
      feq (np_sum (map Fin ws)) f1) /\
  (exists p,
      portfolio_optimization sqrt_floor pinv_greville flat_assets
        "minimum_variance"%string = Ok p /\
      Forall (fun w => is_fin (snd w) = false) (weights p)).
Proof.
  destruct minimum_variance_via_pseudoinverse as [H _]. split.
  - destruct (H sqrt_floor pinv_greville correlated_assets)
      as (c & raw & p & Hc & Hraw & Hp & Hw & Hnz & _).
    { repeat constructor. }
    destruct correlated_assets_pinv as (c' & Hc' & Hp' & _).
    rewrite Hc' in Hc. injection Hc as <-. rewrite Hp' in Hraw.
    destruct raw as [|a [|b [|x raw]]]; try discriminate Hraw.
    lazy in Hraw. injection Hraw as <- <-.
    destruct Hnz as (ws & Ews & Hsum).
    { intros E. lazy in E. discriminate E. }
    exists p, ws. split; [exact Hp|]. split; [|exact Hsum].
    rewrite Hw, <- Ews. reflexivity.
  - destruct (H sqrt_floor pinv_greville flat_assets)
      as (c & raw & p & Hc & Hraw & Hp & Hw & _ & Hz).
    { repeat constructor. }
    destruct flat_assets_pinv as (c' & Hc' & _ & Hp' & _).
    rewrite Hc' in Hc. injection Hc as <-. rewrite Hp' in Hraw.
    destruct raw as [|a [|b [|x raw]]]; try discriminate Hraw.
    lazy in Hraw. injection Hraw as <- <-.
    exists p. split; [exact Hp|]. rewrite Hw.
    specialize (Hz ltac:(reflexivity)).
    inversion Hz as [|w0 l0 Hn0 Hz']. inversion Hz' as [|w1 l1 Hn1 _].
    repeat constructor; assumption.
Defined.

Lemma dropna_map_Fin (l : list Q) : dropna (map Fin l) = map Fin l.
Proof.
  unfold dropna. induction l as [|x l IH]; simpl; auto. now rewrite IH.
Qed.

Lemma map_repeat_Fin (c : Q) (n : nat) :
  repeat (Fin c) n = map Fin (repeat c n).
Proof. induction n; simpl; auto. now rewrite IHn. Qed.

Lemma equal_weight_weights fsqrt pinv (df : frame) :
  df <> [] ->
  let n := inject_Z (Z.of_nat (length df)) in
  portfolio_weights fsqrt pinv df "equal_weight"%string
  = Ok (map Fin (repeat (1 / n) (length df))) /\
  0 < 1 / n /\
  feq (np_sum (map Fin (repeat (1 / n) (length df)))) f1.
Proof.
  intros Hne n.
  assert (Hlen : (0 < length df)%nat) by (destruct df; simpl; [congruence|lia]).
  pose proof (inject_nat_pos _ Hlen) as Hn. fold n in Hn.
  split; [|split].
  - unfold portfolio_weights.
    change (String.eqb "equal_weight" "equal_weight") with true. cbv iota.
    replace (length df =? 0)%nat with false
      by (symmetry; apply Nat.eqb_neq; lia).
    unfold fdiv, f1, fnat. fold n.
    assert (E : Qzero_b n = false) by (apply Qzero_b_false; lra).
    rewrite E. now rewrite map_repeat_Fin.
  - apply Qlt_shift_div_l; lra.
  - rewrite np_sum_Fin. simpl. rewrite fold_Qplus_repeat. fold n.
    field. lra.
Qed.

Lemma risk_parity_weights fsqrt pinv (df : frame) (vols : list Q) :
  df <> [] ->
  map (fun c => std_sample fsqrt (col_values c)) df = map Fin vols ->
  Forall (fun s => 0 < s) vols ->
  exists ws,
    portfolio_weights fsqrt pinv df "risk_parity"%string = Ok (map Fin ws) /\
    Forall (fun w => 0 < w) ws /\
    feq (np_sum (map Fin ws)) f1.
Proof.
  intros Hne Hv Hpos.
  unfold portfolio_weights.
  change (String.eqb "risk_parity" "equal_weight") with false.
  change (String.eqb "risk_parity" "risk_parity") with true. cbv iota.
  rewrite Hv.
  assert (Einv : map (fdiv f1) (map Fin vols)
                 = map Fin (map (fun s => 1 / s) vols)).
  { rewrite !map_map. apply map_ext_in. intros s Hs.
    rewrite Forall_forall in Hpos. specialize (Hpos s Hs).
    unfold fdiv, f1.
    assert (E : Qzero_b s = false) by (apply Qzero_b_false; lra).
    now rewrite E. }
  rewrite Einv. unfold pd_sum. rewrite dropna_map_Fin.
  set (iv := map (fun s => 1 / s) vols).
  assert (Hiv : Forall (fun x => 0 < x) iv).
  { unfold iv. apply Forall_map. eapply Forall_impl; [|exact Hpos].
    intros s Hs. cbv beta in *. apply Qlt_shift_div_l; lra. }
  assert (Hne' : iv <> []).
  { unfold iv. destruct vols; [|discriminate].
    destruct df; [contradiction | discriminate]. }
  pose proof (fold_Qplus_pos iv Hne' Hiv) as HT.
  destruct (normalise_finite iv) as [E1 E2]; [lra|].
  eexists. split; [now rewrite E1|].
  split; [| rewrite <- E1; exact E2].
  apply Forall_map. eapply Forall_impl; [|exact Hiv].
  intros x Hx. cbv beta in *. apply Qlt_shift_div_l; lra.
Qed.

(** C3 (as stated, refuted).  Minimum variance on two assets of which the
    more volatile follows the other: the covariance matrix is invertible
    and the weights are 5/4 and -1/4, the second one negative.  Risk
    parity on a frame with a constant column: a weight is NaN and the
    weights do not sum to 1. *)
Lemma optimizer_weight_negative_or_undefined :
  (exists c w0 w1,
      finite_matrix (cov leveraged_assets) = Some c /\
      penrose c (pinv_greville c) = true /\
      portfolio_weights sqrt_floor pinv_greville leveraged_assets
        "minimum_variance"%string = Ok [Fin w0; Fin w1] /\
      w0 == 5 # 4 /\ w1 == - (1 # 4)) /\
  portfolio_weights sqrt_floor pinv_greville constant_asset
    "risk_parity"%string = Ok [NaN; Fin 0] /\
  ~ feq (np_sum [NaN; Fin 0]) f1.
Proof.
  split.
  - destruct leveraged_assets_pinv as (c & Hc & Hp & Hpen).
    exists c. do 2 eexists.
    split; [exact Hc|]. split; [now rewrite Hp|].
    split; [rewrite (minimum_variance_weights _ _ _ _ Hc), Hp;
            vm_compute; reflexivity|].
    split; reflexivity.
  - split; [vm_compute; reflexivity|].
    simpl; tauto.
Qed.

(** C3 (amended).  For one or more return series: equalWeight gives every
    asset the positive weight 1/n and the weights sum to 1; riskParity
    gives positive weights that sum to 1 provided the sample standard
    deviation of every asset is finite and positive; minimumVariance gives
    finite weights that sum to 1 provided the covariance matrix is finite
    and the raw weights pinv(C) 1 have a nonzero sum, and its weights may be
    negative. *)
Theorem portfolio_weights_sum_to_one :
  forall (fsqrt : Q -> Q) (pinv : matrix -> matrix) (df : frame),
    df <> [] ->
    (exists ws,
        portfolio_weights fsqrt pinv df "equal_weight"%string
        = Ok (map Fin ws) /\
        length ws = length df /\
        Forall (fun w => w == 1 / inject_Z (Z.of_nat (length df)) /\ 0 < w)
               ws /\
        feq (np_sum (map Fin ws)) f1) /\
    (forall vols,
        map (fun c => std_sample fsqrt (col_values c)) df = map Fin vols ->
        Forall (fun s => 0 < s) vols ->
        exists ws,
          portfolio_weights fsqrt pinv df "risk_parity"%string
          = Ok (map Fin ws) /\
          Forall (fun w => 0 < w) ws /\
          feq (np_sum (map Fin ws)) f1) /\
    (forall c raw,
        finite_matrix (cov df) = Some c ->
        matvec_ones (pinv c) = map Fin raw ->
        ~ fold_left Qplus raw 0 == 0 ->
        exists ws,
          portfolio_weights fsqrt pinv df "minimum_variance"%string
          = Ok (map Fin ws) /\
          feq (np_sum (map Fin ws)) f1).
Proof.
  intros fsqrt pinv df Hne. split; [|split].
  - destruct (equal_weight_weights fsqrt pinv df Hne) as (E & Hpos & Hsum).
    eexists. split; [exact E|].
    split; [apply repeat_length|]. split; [|exact Hsum].
    apply Forall_forall. intros w Hw. apply repeat_spec in Hw. subst w.
    split; [reflexivity | exact Hpos].
  - intros vols Hv Hpos.
    exact (risk_parity_weights fsqrt pinv df vols Hne Hv Hpos).
  - intros c raw Hc Hraw Hne0.
    rewrite (minimum_variance_weights fsqrt pinv df c Hc), Hraw.
    destruct (normalise_finite raw Hne0) as [E1 E2].
    eexists. split; [now rewrite E1|]. rewrite <- E1. exact E2.
Qed.

Lemma portfolio_weights_sum_to_one_witness :
  (exists ws,
      portfolio_weights sqrt_floor pinv_greville leveraged_assets
        "equal_weight"%string = Ok (map Fin ws) /\
      feq (np_sum (map Fin ws)) f1) /\
  (exists ws,
      portfolio_weights sqrt_floor pinv_greville leveraged_assets
        "risk_parity"%string = Ok (map Fin ws) /\
      Forall (fun w => 0 < w) ws /\
      feq (np_sum (map Fin ws)) f1) /\
  (exists ws,
      portfolio_weights sqrt_floor pinv_greville leveraged_assets
        "minimum_variance"%string = Ok (map Fin ws) /\
      feq (np_sum (map Fin ws)) f1).
Proof.
  destruct (portfolio_weights_sum_to_one sqrt_floor pinv_greville
              leveraged_assets) as ((ws & E & _ & _ & Hsum) & Hrp & Hmv).
  { discriminate. }
  split; [|split].
  - exists ws. split; [exact E | exact Hsum].
  - eapply (Hrp [_; _]).
    + lazy. reflexivity.
    + repeat constructor; reflexivity.
  - destruct leveraged_assets_pinv as (c & Hc & Hp & _).
    eapply (Hmv c [_; _] Hc).
    + rewrite Hp. lazy. reflexivity.
    + intros H. lazy in H. discriminate H.
Defined.

(** ** The worked examples of the specification *)

Example sma_window_3_example :
  Forall2 feq
    (simple_moving_average (map Fin [10; 11; 12; 11; 10; 9; 10; 11; 12; 13]) 3)
    [NaN; NaN; Fin 11; Fin (34 # 3); Fin 11; Fin 10; Fin (29 # 3); Fin 10;
     Fin 11; Fin 12].
Proof. vm_compute. repeat constructor. Qed.

Example crossover_2_3_example :
  exists r,
    backtest_simple_strategy
      (map Fin [10; 11; 12; 11; 10; 9; 10; 11; 12; 13]) 2 3 = Ok r /\
    signal r = map Fin [0; 0; 1; 1; 0; 0; 0; 1; 1; 1].
Proof. eexists. split; reflexivity. Qed.

Example risk_metrics_leading_nan_example :
  feq (annual_return
         (risk_metrics sqrt_floor
            [NaN; Fin (2 # 100); Fin (-1 # 100); Fin (3 # 100)]))
      (Fin (336 # 100)).
Proof. vm_compute. reflexivity. Qed.

(** * Further properties of the engine *)

(** ** A rolling window by position *)

Lemma firstn_snoc {A : Type} (l : list A) (t : nat) (d : A) :
  (t < length l)%nat -> firstn (S t) l = firstn t l ++ [nth t l d].
Proof.
  revert t; induction l as [|x l IH]; intros t H; simpl in H; [lia|].
  destruct t as [|t]; [reflexivity|].
  change (firstn (S (S t)) (x :: l)) with (x :: firstn (S t) l).
  rewrite (IH t) by lia. reflexivity.
Qed.

Lemma scan_final_rolling w agg (h l : list fval) :
  scan_final (rolling_step w agg) h l = rev l ++ h.
Proof.
  unfold scan_final. revert h; induction l as [|x l IH]; intros h; simpl; auto.
  rewrite IH. now rewrite <- app_assoc.
Qed.

Lemma nth_rolling w agg (xs : list fval) (t : nat) :
  (t < length xs)%nat ->
  nth t (rolling w agg xs) NaN
  = window_value w agg (rev (firstn (S t) (prep_values xs))).
Proof.
  intros H. unfold rolling.
  assert (H' : (t < length (prep_values xs))%nat)
    by now rewrite prep_values_length.
  rewrite (nth_scan_final _ _ _ t NaN NaN) by exact H'.
  rewrite scan_final_rolling, app_nil_r.
  rewrite (firstn_snoc (prep_values xs) t NaN H'), rev_app_distr.
  reflexivity.
Qed.

(** The window at position [t]: the [w] values ending at [t]. *)
Lemma window_at (w t : nat) (xs : list fval) :
  (t < length xs)%nat -> (w <= S t)%nat ->
  rev (firstn w (rev (firstn (S t) xs))) = firstn w (skipn (S t - w) xs).
Proof.
  intros Ht Hw.
  rewrite firstn_rev, rev_involutive.
  rewrite length_firstn, Nat.min_l by lia.
  rewrite firstn_skipn_comm. f_equal. f_equal. lia.
Qed.

Lemma existsb_nan_Fin (l : list Q) : existsb is_nan (map Fin l) = false.
Proof. induction l; simpl; auto. Qed.

Lemma fold_Qplus_qsum (l : list Q) : fold_left Qplus l 0 == qsum l.
Proof.
  induction l as [|x l IH]; [reflexivity|].
  rewrite fold_Qplus_cons, IH. reflexivity.
Qed.

Lemma mean_Fin (l : list Q) :
  l <> [] ->
  exists m, mean (map Fin l) = Fin m /\
            m == qsum l / inject_Z (Z.of_nat (length l)).
Proof.
  intros Hne. unfold mean. rewrite np_sum_Fin, length_map. unfold fdiv, fnat.
  assert (Hlen : (0 < length l)%nat) by (destruct l; simpl; [congruence|lia]).
  pose proof (inject_nat_pos _ Hlen) as Hp.
  assert (E : Qzero_b (inject_Z (Z.of_nat (length l))) = false)
    by (apply Qzero_b_false; lra).
  rewrite E. eexists. split; [reflexivity|].
  now rewrite fold_Qplus_qsum.
Qed.

(** X1.  The simple moving average of a series of finite values, for a
    window w >= 1: undefined at the positions t < w - 1, and at every later
    position the sum of the w values ending at t divided by w. *)
Theorem sma_is_trailing_average :
  forall (xs : list Q) (w t : nat),
    (1 <= w)%nat -> (t < length xs)%nat ->
    let v := nth t (simple_moving_average (map Fin xs) w) NaN in
    ((S t < w)%nat -> v = NaN) /\
    ((w <= S t)%nat ->
     feq v (Fin (qsum (firstn w (skipn (S t - w) xs))
                 / inject_Z (Z.of_nat w)))).
Proof.
  intros xs w t Hw Ht v. unfold v, simple_moving_average, rolling_mean.
  rewrite nth_rolling by (now rewrite length_map).
  rewrite prep_values_Fin. unfold window_value.
  rewrite length_rev, length_firstn, length_map, Nat.min_l by lia.
  replace (w =? 0)%nat with false by (symmetry; apply Nat.eqb_neq; lia).
  split; intros H.
  - replace (S t <? w)%nat with true by (symmetry; apply Nat.ltb_lt; lia).
    reflexivity.
  - replace (S t <? w)%nat with false by (symmetry; apply Nat.ltb_ge; lia).
    cbn [orb].
    rewrite window_at by (rewrite ?length_map; lia).
    rewrite skipn_map, firstn_map, existsb_nan_Fin.
    set (win := firstn w (skipn (S t - w) xs)).
    assert (Hlen : length win = w).
    { unfold win. rewrite length_firstn, length_skipn. lia. }
    destruct (mean_Fin win) as (m & Em & Hm).
    { intros E. rewrite E in Hlen. simpl in Hlen. lia. }
    rewrite Em. simpl. now rewrite Hm, Hlen.
Qed.

Lemma sma_is_trailing_average_witness :
  feq (nth 3 (simple_moving_average
                (map Fin [10; 11; 12; 11; 10]) 3) NaN)
      (Fin (qsum [11; 12; 11] / 3)).
Proof.
  destruct (sma_is_trailing_average [10; 11; 12; 11; 10] 3 3) as [_ H].
  - lia.
  - simpl. lia.
  - apply H. lia.
Defined.

(** What holds of every window holds of the rolled series. *)
Lemma rolling_Forall (Pin Pout : fval -> Prop) w agg xs :
  Forall Pin (prep_values xs) -> Pout NaN ->
  (forall win, Forall Pin win -> length win = w -> Pout (agg win)) ->
  Forall Pout (rolling w agg xs).
Proof.
  intros Hx Hnan Hagg. unfold rolling.
  remember (prep_values xs) as ys eqn:Eys. clear Eys xs.
  assert (Hh : Forall Pin (@nil fval)) by constructor.
  revert Hh. generalize (@nil fval) as hist.
  induction Hx as [|x r Hx Hr IH]; intros hist Hh; simpl; constructor.
  - unfold window_value.
    destruct ((w =? 0)%nat || (length (x :: hist) <? w)%nat) eqn:E; auto.
    apply orb_false_iff in E. destruct E as [_ E]. apply Nat.ltb_ge in E.
    destruct (existsb is_nan (rev (firstn w (x :: hist)))); auto.
    apply Hagg.
    + apply Forall_rev.
      assert (F : Forall Pin (x :: hist)) by now constructor.
      clear -F. revert w; induction F; intros [|w]; simpl; constructor; auto.
    + rewrite length_rev, length_firstn. lia.
  - apply IH. now constructor.
Qed.

Lemma Forall_nth_default (P : fval -> Prop) (l : list fval) (t : nat) :
  Forall P l -> P NaN -> P (nth t l NaN).
Proof.
  intros H Hd. destruct (Nat.lt_ge_cases t (length l)) as [Hlt|Hge].
  - rewrite Forall_forall in H. apply H. now apply nth_In.
  - now rewrite nth_overflow.
Qed.

Lemma sum_sq_dev_finite (win : list fval) :
  (0 < length win)%nat -> Forall (fun v => is_fin v = true) win ->
  is_fin (sum_sq_dev win) = true.
Proof.
  intros Hlen H. unfold sum_sq_dev.
  destruct (is_fin_exists _ (mean_finite win Hlen H)) as [m Em]. rewrite Em.
  apply fold_fadd_finite. apply Forall_map.
  eapply Forall_impl; [|exact H].
  intros v Hv. destruct v; try discriminate. reflexivity.
Qed.

Lemma std_sample_nonneg (fsqrt : Q -> Q) (win : list fval) :
  (forall q, 0 <= q -> 0 <= fsqrt q) ->
  Forall (fun v => is_fin v = true) win ->
  nonneg_or_nan (std_sample fsqrt win).
Proof.
  intros Hs H. unfold std_sample, var_sample.
  destruct (length win <=? 1)%nat eqn:E; [exact I|].
  apply Nat.leb_gt in E.
  destruct (is_fin_exists _ (sum_sq_dev_finite win ltac:(lia) H)) as [s Es].
  rewrite Es.
  destruct (is_fin_exists _ (fnat_div_finite s (length win - 1) ltac:(lia)))
    as [v Ev].
  rewrite Ev. unfold np_sqrt, Qneg_b.
  destruct (Qlt_bool v 0) eqn:Ev0; [exact I|].
  apply Qlt_bool_false in Ev0. simpl. now apply Hs.
Qed.

Lemma rolling_std_nonneg (fsqrt : Q -> Q) w (xs : list Q) :
  (forall q, 0 <= q -> 0 <= fsqrt q) ->
  Forall nonneg_or_nan (rolling_std fsqrt w (map Fin xs)).
Proof.
  intros Hs. unfold rolling_std.
  apply (rolling_Forall (fun v => is_fin v = true)).
  - rewrite prep_values_Fin. apply Forall_finite_map_Fin.
  - exact I.
  - intros win Hwin _. now apply std_sample_nonneg.
Qed.

Lemma rolling_mean_fin_or_nan w (xs : list Q) :
  Forall fin_or_nan (rolling_mean w (map Fin xs)).
Proof.
  unfold rolling_mean.
  apply (rolling_Forall (fun v => is_fin v = true)).
  - rewrite prep_values_Fin. apply Forall_finite_map_Fin.
  - exact I.
  - intros win Hwin Hlen.
    destruct win as [|x win].
    + reflexivity.
    + destruct (is_fin_exists (mean (x :: win))) as [m Em].
      { apply mean_finite; [simpl; lia | exact Hwin]. }
      rewrite Em. exact I.
Qed.

Lemma nth_map_nan (f : fval -> fval) (l : list fval) (t : nat) :
  f NaN = NaN -> nth t (map f l) NaN = f (nth t l NaN).
Proof. intros H. rewrite <- H at 1. apply map_nth. Qed.

Lemma bollinger_at fsqrt (data : list fval) w k t :
  (t < length data)%nat ->
  let bb := bollinger_bands fsqrt data w k in
  nth t (upper bb) NaN
  = fadd (nth t (rolling_mean w data) NaN)
         (fmul (nth t (rolling_std fsqrt w data) NaN) k) /\
  nth t (middle bb) NaN = nth t (rolling_mean w data) NaN /\
  nth t (lower bb) NaN
  = fsub (nth t (rolling_mean w data) NaN)
         (fmul (nth t (rolling_std fsqrt w data) NaN) k).
Proof.
  intros Ht bb. unfold bb, bollinger_bands. cbn [upper middle lower].
  assert (L1 : length (rolling_mean w data) = length data)
    by apply rolling_length.
  assert (L2 : length (map (fun s => fmul s k) (rolling_std fsqrt w data))
               = length data)
    by (rewrite length_map; apply rolling_length).
  rewrite !(nth_map2 _ _ _ t NaN NaN NaN) by lia.
  rewrite (nth_map_nan (fun s => fmul s k)) by reflexivity.
  auto.
Qed.

Lemma sqrt_floor_nonneg (q : Q) : 0 <= sqrt_floor q.
Proof.
  unfold sqrt_floor. cbv zeta. rewrite Qred_correct.
  unfold Qle. simpl. rewrite Z.mul_1_r.
  apply Z.sqrt_nonneg.
Qed.

(** X2.  Bollinger bands of a series of finite values, for a band width
    k >= 0 and a square root that is never negative: at every position the
    upper and the lower band are both undefined, or all three bands are
    finite and lower <= middle <= upper. *)
Theorem bollinger_bands_ordered :
  forall (fsqrt : Q -> Q) (xs : list Q) (window : nat) (k : Q) (t : nat),
    (forall q, 0 <= q -> 0 <= fsqrt q) -> 0 <= k ->
    (t < length xs)%nat ->
    let bb := bollinger_bands fsqrt (map Fin xs) window (Fin k) in
    (nth t (upper bb) NaN = NaN /\ nth t (lower bb) NaN = NaN) \/
    (exists u m l,
        nth t (upper bb) NaN = Fin u /\ nth t (middle bb) NaN = Fin m /\
        nth t (lower bb) NaN = Fin l /\ l <= m /\ m <= u).
Proof.
  intros fsqrt xs window k t Hs Hk Ht bb.
  destruct (bollinger_at fsqrt (map Fin xs) window (Fin k) t) as (Eu & Em & El).
  { now rewrite length_map. }
  fold bb in Eu, Em, El. rewrite Eu, Em, El.
  pose proof (Forall_nth_default _ _ t (rolling_mean_fin_or_nan window xs) I)
    as Hm.
  pose proof (Forall_nth_default _ _ t
                (rolling_std_nonneg fsqrt window xs Hs) I) as Hsd.
  destruct (nth t (rolling_mean window (map Fin xs)) NaN) as [m| | |];
    simpl in Hm; try contradiction; [|left; split; reflexivity].
  destruct (nth t (rolling_std fsqrt window (map Fin xs)) NaN) as [s| | |];
    simpl in Hsd; try contradiction; [|left; split; reflexivity].
  right. exists (m + s * k), m, (m + - (s * k)).
  repeat split; nra.
Qed.

Lemma bollinger_bands_ordered_witness :
  let bb := bollinger_bands sqrt_floor (map Fin [10; 11; 12; 11]) 2 (Fin 2) in
  (nth 2 (upper bb) NaN = NaN /\ nth 2 (lower bb) NaN = NaN) \/
  (exists u m l,
      nth 2 (upper bb) NaN = Fin u /\ nth 2 (middle bb) NaN = Fin m /\
      nth 2 (lower bb) NaN = Fin l /\ l <= m /\ m <= u).
Proof.
  apply (bollinger_bands_ordered sqrt_floor [10; 11; 12; 11] 2 2 2).
  - intros q _. apply sqrt_floor_nonneg.
  - lra.
  - simpl. lia.
Defined.

(** X3.  Bollinger bands with window 1: the middle band is the series
    as the rolling pass reads it (an infinity read as missing), so the
    series itself when every entry is finite or missing; the upper and the
    lower band are undefined at every position (the sample standard
    deviation of one value is NaN). *)
Theorem bollinger_window_1_has_no_bands :
  forall (fsqrt : Q -> Q) (data : list fval) (num_std : fval),
    let bb := bollinger_bands fsqrt data 1 num_std in
    Forall2 feq (middle bb) (prep_values data) /\
    (Forall fin_or_nan data -> Forall2 feq (middle bb) data) /\
    upper bb = repeat NaN (length data) /\
    lower bb = repeat NaN (length data).
Proof.
  intros fsqrt data num_std bb.
  assert (Hstd : rolling_std fsqrt 1 data = repeat NaN (length data)).
  { unfold rolling_std, rolling.
    rewrite <- (prep_values_length data).
    generalize (@nil fval) as hist.
    induction (prep_values data) as [|x r IH]; intros hist; simpl; auto.
    rewrite IH. f_equal. unfold window_value. simpl.
    now destruct (is_nan x). }
  unfold bb, bollinger_bands. cbn [upper middle lower]. rewrite Hstd.
  assert (Hmid : Forall2 feq (rolling_mean 1 data) (prep_values data))
    by apply rolling_1_aux.
  split; [exact Hmid|].
  split.
  { intros Hd. now rewrite (prep_values_fin_or_nan data Hd) in Hmid. }
  rewrite map_repeat_nan by reflexivity.
  split; apply map2_repeat_nan_r; auto using fadd_nan_r, fsub_nan_r;
    apply rolling_length.
Qed.

Lemma bollinger_window_1_has_no_bands_witness :
  let bb := bollinger_bands sqrt_floor [Fin 10; NaN; Fin 12] 1 (Fin 2) in
  Forall2 feq (middle bb) [Fin 10; NaN; Fin 12] /\
  upper bb = [NaN; NaN; NaN].
Proof.
  destruct (bollinger_window_1_has_no_bands sqrt_floor
              [Fin 10; NaN; Fin 12] (Fin 2)) as (_ & H & Hu & _).
  split; [apply H; repeat constructor | exact Hu].
Defined.

(** ** Exponential averages stay within the range of their input *)

Lemma convex_step (lo hi w x ow : Q) :
  within lo hi w -> within lo hi x -> 0 <= ow ->
  within lo hi ((ow * w + 1 * x) / (ow + 1)).
Proof.
  unfold within. intros [Hw1 Hw2] [Hx1 Hx2] How. split.
  - apply Qle_shift_div_l; [lra | nra].
  - apply Qle_shift_div_r; [lra | nra].
Qed.

Lemma ewm_step_within (beta lo hi x : Q) (st : EwmState) :
  0 <= beta -> 0 <= old_wt st ->
  (weighted st = NaN \/ exists w, weighted st = Fin w /\ within lo hi w) ->
  within lo hi x ->
  exists y, snd (ewm_step beta 1 st (Fin x)) = Fin y /\ within lo hi y /\
            weighted (fst (ewm_step beta 1 st (Fin x))) = Fin y /\
            0 <= old_wt (fst (ewm_step beta 1 st (Fin x))).
Proof.
  intros Hb How Hst Hx. destruct st as [wv ow k]. simpl in How.
  rewrite ewm_step_snd.
  assert (Hn : (1 <=? nobs (fst (ewm_step beta 1
                   {| weighted := wv; old_wt := ow; nobs := k |} (Fin x))))%nat
               = true).
  { apply Nat.leb_le. unfold ewm_step. cbn.
    destruct (is_nan wv); cbn; lia. }
  rewrite Hn.
  destruct Hst as [E | (w & E & Hw)]; simpl in E; subst wv.
  - exists x. cbn. auto.
  - unfold ewm_step. cbn [weighted old_wt nobs is_nan negb fst].
    unfold fneb, feqb.
    assert (Hpos : 0 <= ow * beta) by nra.
    destruct (Qeq_bool w x); cbn [negb weighted old_wt].
    + exists w. repeat split; try apply Hw. lra.
    + unfold fmul, fadd, fdiv.
      assert (Z : Qzero_b (ow * beta + 1) = false)
        by (apply Qzero_b_false; lra).
      rewrite Z. eexists. split; [reflexivity|].
      split; [now apply convex_step|]. split; [reflexivity | lra].
Qed.

Lemma ewm_scan_within (beta lo hi : Q) (xs : list Q) (st : EwmState) :
  0 <= beta -> 0 <= old_wt st ->
  (weighted st = NaN \/ exists w, weighted st = Fin w /\ within lo hi w) ->
  Forall (within lo hi) xs ->
  exists out,
    scan (ewm_step beta 1) st (map Fin xs) = map Fin out /\
    Forall (within lo hi) out.
Proof.
  intros Hb How Hst Hx. revert st How Hst.
  induction Hx as [|x r Hx Hr IH]; intros st How Hst.
  - exists []. split; [reflexivity | constructor].
  - destruct (ewm_step_within beta lo hi x st Hb How Hst Hx)
      as (y & Ey & Hy & Ew & How').
    cbn [map scan].
    destruct (ewm_step beta 1 st (Fin x)) as [st' out0] eqn:E.
    cbn [fst snd] in *. subst out0.
    destruct (IH st' How') as (out & Eout & Hout).
    { right. exists y. auto. }
    exists (y :: out). rewrite Eout. split; [reflexivity|].
    now constructor.
Qed.

Lemma ewm_mean_within (span : nat) (lo hi : Q) (xs : list Q) :
  (1 <= span)%nat -> Forall (within lo hi) xs ->
  exists out, ewm_mean span (map Fin xs) = Ok (map Fin out) /\
              length out = length xs /\ Forall (within lo hi) out.
Proof.
  intros Hspan Hx. unfold ewm_mean.
  replace (span <? 1)%nat with false by (symmetry; apply Nat.ltb_ge; lia).
  rewrite prep_values_Fin.
  destruct (ewm_alpha_formula span Hspan) as (_ & Ha0 & Ha1).
  destruct (ewm_scan_within (1 - ewm_alpha span) lo hi xs
              {| weighted := NaN; old_wt := 1; nobs := 0 |})
    as (out & Eout & Hout); simpl; auto; try lra.
  exists out. rewrite Eout. split; [reflexivity|]. split; [|exact Hout].
  apply (f_equal (@length fval)) in Eout.
  now rewrite scan_length, !length_map in Eout.
Qed.

(** X4.  The exponential moving average of finite values, for a span
    >= 1, has the length of its input and stays within the range of the
    values: if every input lies in [lo, hi], so does every output.  In
    particular the average of a constant series is that constant. *)
Theorem ema_within_input_range :
  forall (xs : list Q) (span : nat) (lo hi : Q),
    (1 <= span)%nat -> Forall (within lo hi) xs ->
    exists out,
      exponential_moving_average (map Fin xs) span = Ok (map Fin out) /\
      length out = length xs /\ Forall (within lo hi) out.
Proof.
  intros xs span lo hi Hspan Hx. now apply ewm_mean_within.
Qed.

Lemma ema_within_input_range_witness :
  exists out,
    exponential_moving_average (map Fin [10; 12; 11]) 3 = Ok (map Fin out) /\
    length out = 3%nat /\ Forall (within 10 12) out.
Proof.
  apply (ema_within_input_range [10; 12; 11] 3 10 12).
  - lia.
  - repeat constructor; simpl; (discriminate || lra).
Defined.

(** ** MACD *)

Lemma ewm_mean_ok (span : nat) (data : list fval) :
  (1 <= span)%nat ->
  exists out, ewm_mean span data = Ok out /\ length out = length data.
Proof.
  intros H. unfold ewm_mean.
  replace (span <? 1)%nat with false by (symmetry; apply Nat.ltb_ge; lia).
  eexists. split; [reflexivity|].
  now rewrite scan_length, prep_values_length.
Qed.

Lemma ewm_mean_zero_span (data : list fval) :
  ewm_mean 0 data = Raise ValueError.
Proof. reflexivity. Qed.

(** X5.  [macd] raises ValueError exactly when one of its three periods is
    0; otherwise it returns three columns of the length of the input. *)
Theorem macd_periods_checked :
  forall (data : list fval) (fast_period slow_period signal_period : nat),
    ((fast_period = 0 \/ slow_period = 0 \/ signal_period = 0)%nat ->
     macd data fast_period slow_period signal_period = Raise ValueError) /\
    ((1 <= fast_period /\ 1 <= slow_period /\ 1 <= signal_period)%nat ->
     exists m,
       macd data fast_period slow_period signal_period = Ok m /\
       length (macd_line m) = length data /\
       length (signal_line m) = length data /\
       length (histogram m) = length data).
Proof.
  intros data fast slow sig. split.
  - intros H. unfold macd.
    destruct fast as [|fast]; [reflexivity|].
    destruct (ewm_mean_ok (S fast) data) as (a & Ea & _); [lia|]. rewrite Ea.
    destruct slow as [|slow]; [reflexivity|].
    destruct (ewm_mean_ok (S slow) data) as (b & Eb & _); [lia|]. rewrite Eb.
    destruct sig as [|sig]; [reflexivity|]. lia.
  - intros (Hf & Hs & Hg). unfold macd.
    destruct (ewm_mean_ok fast data Hf) as (a & Ea & La). rewrite Ea.
    destruct (ewm_mean_ok slow data Hs) as (b & Eb & Lb). rewrite Eb.
    destruct (ewm_mean_ok sig (map2 fsub a b) Hg) as (c & Ec & Lc).
    rewrite Ec. eexists. split; [reflexivity|].
    cbn [macd_line signal_line histogram].
    rewrite map2_length in Lc.
    rewrite !map2_length. repeat split; lia.
Qed.

Lemma macd_periods_checked_witness :
  macd (map Fin [10; 11; 12]) 12 0 9 = Raise ValueError.
Proof.
  destruct (macd_periods_checked (map Fin [10; 11; 12]) 12 0 9) as [H _].
  apply H. right. left. reflexivity.
Defined.

Lemma Forall_map2_gen {A B C : Type} (P : A -> Prop) (Q : B -> Prop)
  (R : C -> Prop) (f : A -> B -> C) xs ys :
  (forall x y, P x -> Q y -> R (f x y)) ->
  Forall P xs -> Forall Q ys -> Forall R (map2 f xs ys).
Proof.
  intros Hf Hx. revert ys; induction Hx as [|x r Hx Hr IH];
    intros ys Hy; simpl; [constructor|].
  destruct Hy as [|y ys Hy Hys]; constructor; auto.
Qed.

Lemma map2_fsub_Fin (a b : list Q) :
  map2 fsub (map Fin a) (map Fin b)
  = map Fin (map2 (fun x y => x + - y) a b).
Proof.
  revert b; induction a as [|x a IH]; intros [|y b]; simpl; auto.
  now rewrite IH.
Qed.

Lemma Forall_zero_feq (l : list Q) :
  Forall (within 0 0) l -> Forall (feq f0) (map Fin l).
Proof.
  intros H. apply Forall_map. eapply Forall_impl; [|exact H].
  intros q [H1 H2]. simpl. lra.
Qed.

(** X6.  On a flat price series (all values equal, periods >= 1) the MACD
    line, the signal line and the histogram are 0 at every position. *)
Theorem macd_of_flat_series_is_zero :
  forall (xs : list Q) (c : Q) (fast_period slow_period signal_period : nat),
    (1 <= fast_period)%nat -> (1 <= slow_period)%nat ->
    (1 <= signal_period)%nat ->
    Forall (fun x => x == c) xs ->
    exists m,
      macd (map Fin xs) fast_period slow_period signal_period = Ok m /\
      Forall (feq f0) (macd_line m) /\
      Forall (feq f0) (signal_line m) /\
      Forall (feq f0) (histogram m).
Proof.
  intros xs c fast slow sig Hf Hs Hg Hc.
  assert (Hx : Forall (within c c) xs).
  { eapply Forall_impl; [|exact Hc]. intros x Hx. cbv beta in Hx.
    unfold within. split; lra. }
  unfold macd.
  destruct (ewm_mean_within fast c c xs Hf Hx) as (a & Ea & _ & Ha).
  destruct (ewm_mean_within slow c c xs Hs Hx) as (b & Eb & _ & Hb).
  rewrite Ea, Eb, map2_fsub_Fin.
  set (d := map2 (fun x y => x + - y) a b).
  assert (Hd : Forall (within 0 0) d).
  { unfold d. apply (Forall_map2_gen (within c c) (within c c)); auto.
    unfold within. intros x y [? ?] [? ?]. split; lra. }
  destruct (ewm_mean_within sig 0 0 d Hg Hd) as (s & Es & _ & Hsg).
  rewrite Es. eexists. split; [reflexivity|].
  cbn [macd_line signal_line histogram]. rewrite map2_fsub_Fin.
  split; [now apply Forall_zero_feq|].
  split; [now apply Forall_zero_feq|].
  apply Forall_zero_feq.
  apply (Forall_map2_gen (within 0 0) (within 0 0)); auto.
  unfold within. intros x y [? ?] [? ?]. split; lra.
Qed.

Lemma macd_of_flat_series_is_zero_witness :
  exists m,
    macd (map Fin [7; 7; 7]) 12 26 9 = Ok m /\
    Forall (feq f0) (histogram m).
Proof.
  destruct (macd_of_flat_series_is_zero [7; 7; 7] 7 12 26 9)
    as (m & Em & _ & _ & Hh).
  - lia.
  - lia.
  - lia.
  - repeat constructor.
  - exists m. split; [exact Em | exact Hh].
Defined.

(** ** Stochastic oscillator *)

Lemma fold_fmin_le (r : list fval) (a : Q) :
  Forall (fun v => is_fin v = true) r ->
  exists m, fold_left fmin r (Fin a) = Fin m /\ m <= a /\
            forall y, In (Fin y) r -> m <= y.
Proof.
  intros H. revert a; induction H as [|v r Hv Hr IH]; intros a.
  - exists a. split; [reflexivity|]. split; [lra|]. intros y [].
  - destruct v as [y| | |]; try discriminate. cbn [fold_left].
    unfold fmin at 2. cbn [flt].
    destruct (Qlt_bool y a) eqn:E.
    + apply Qlt_bool_iff in E.
      destruct (IH y) as (m & Em & Hm & Hall).
      exists m. split; [exact Em|]. split; [lra|].
      intros z [Hz|Hz]; [injection Hz as <-; lra | now apply Hall].
    + apply Qlt_bool_false in E.
      destruct (IH a) as (m & Em & Hm & Hall).
      exists m. split; [exact Em|]. split; [lra|].
      intros z [Hz|Hz]; [injection Hz as <-; lra | now apply Hall].
Qed.

Lemma fold_fmax_ge (r : list fval) (a : Q) :
  Forall (fun v => is_fin v = true) r ->
  exists m, fold_left fmax r (Fin a) = Fin m /\ a <= m /\
            forall y, In (Fin y) r -> y <= m.
Proof.
  intros H. revert a; induction H as [|v r Hv Hr IH]; intros a.
  - exists a. split; [reflexivity|]. split; [lra|]. intros y [].
  - destruct v as [y| | |]; try discriminate. cbn [fold_left].
    unfold fmax at 2. cbn [flt].
    destruct (Qlt_bool a y) eqn:E.
    + apply Qlt_bool_iff in E.
      destruct (IH y) as (m & Em & Hm & Hall).
      exists m. split; [exact Em|]. split; [lra|].
      intros z [Hz|Hz]; [injection Hz as <-; lra | now apply Hall].
    + apply Qlt_bool_false in E.
      destruct (IH a) as (m & Em & Hm & Hall).
      exists m. split; [exact Em|]. split; [lra|].
      intros z [Hz|Hz]; [injection Hz as <-; lra | now apply Hall].
Qed.

Lemma list_min_le (win : list fval) (x : Q) :
  Forall (fun v => is_fin v = true) win -> In (Fin x) win ->
  exists m, list_min win = Fin m /\ m <= x.
Proof.
  intros H Hin. destruct H as [|v r Hv Hr]; [destruct Hin|].
  destruct v as [a| | |]; try discriminate. simpl.
  destruct (fold_fmin_le r a Hr) as (m & Em & Hm & Hall).
  exists m. split; [exact Em|].
  destruct Hin as [Hin|Hin]; [injection Hin as <-; lra | now apply Hall].
Qed.

Lemma list_max_ge (win : list fval) (x : Q) :
  Forall (fun v => is_fin v = true) win -> In (Fin x) win ->
  exists m, list_max win = Fin m /\ x <= m.
Proof.
  intros H Hin. destruct H as [|v r Hv Hr]; [destruct Hin|].
  destruct v as [a| | |]; try discriminate. simpl.
  destruct (fold_fmax_ge r a Hr) as (m & Em & Hm & Hall).
  exists m. split; [exact Em|].
  destruct Hin as [Hin|Hin]; [injection Hin as <-; lra | now apply Hall].
Qed.

(** The value of a rolling aggregation at [t], when defined, is the
    aggregation of a window of finite values that holds the value at [t]. *)
Lemma rolling_at_finite w agg (xs : list Q) (t : nat) :
  (t < length xs)%nat ->
  nth t (rolling w agg (map Fin xs)) NaN = NaN \/
  exists win, nth t (rolling w agg (map Fin xs)) NaN = agg win /\
              Forall (fun v => is_fin v = true) win /\
              In (Fin (nth t xs 0)) win.
Proof.
  intros Ht. rewrite nth_rolling by (now rewrite length_map).
  rewrite prep_values_Fin.
  rewrite (firstn_snoc (map Fin xs) t NaN) by (now rewrite length_map).
  rewrite rev_app_distr. cbn [rev app]. rewrite nth_map_Fin by exact Ht.
  unfold window_value.
  destruct ((w =? 0)%nat || _) eqn:E; [now left|].
  apply orb_false_iff in E. destruct E as [E _]. apply Nat.eqb_neq in E.
  destruct (existsb is_nan _); [now left|].
  right. eexists. split; [reflexivity|]. split.
  - apply Forall_rev. apply Forall_firstn_keep. constructor; [reflexivity|].
    apply Forall_rev. apply Forall_firstn_keep. apply Forall_finite_map_Fin.
  - apply in_rev. rewrite rev_involutive.
    destruct w as [|w]; [lia|]. left. reflexivity.
Qed.

Lemma k_percent_point (c m M : Q) :
  m <= c -> c <= M ->
  fmul f100 (fdiv (fsub (Fin c) (Fin m)) (fsub (Fin M) (Fin m))) = NaN \/
  exists k, fmul f100 (fdiv (fsub (Fin c) (Fin m)) (fsub (Fin M) (Fin m)))
            = Fin k /\ 0 <= k /\ k <= 100.
Proof.
  intros H1 H2. unfold fsub, fneg, fadd, fdiv.
  destruct (Qzero_b (M + - m)) eqn:E.
  - apply Qzero_b_iff in E.
    rewrite (qsign_zero (c + - m)) by lra. now left.
  - apply Qzero_b_false in E. right. eexists. split; [reflexivity|].
    assert (Hr : 0 < M + - m) by lra.
    assert (Hq1 : 0 <= (c + - m) / (M + - m))
      by (apply Qle_shift_div_l; lra).
    assert (Hq2 : (c + - m) / (M + - m) <= 1)
      by (apply Qle_shift_div_r; lra).
    split; lra.
Qed.

(** X7.  For bars of finite prices with low <= close <= high, the %K line
    of the stochastic oscillator is, at every position, undefined (NaN) or
    a finite number in [0,100]: a zero high-low range gives NaN, never an
    infinity. *)
Theorem stochastic_k_bounded :
  forall (high low close : list Q) (k_window d_window t : nat),
    length high = length close -> length low = length close ->
    (forall i, (i < length close)%nat ->
               nth i low 0 <= nth i close 0 /\ nth i close 0 <= nth i high 0) ->
    (t < length close)%nat ->
    let k := nth t (k_percent (stochastic_oscillator
                                 (map Fin high) (map Fin low) (map Fin close)
                                 k_window d_window)) NaN in
    k = NaN \/ exists q, k = Fin q /\ 0 <= q /\ q <= 100.
Proof.
  intros high low close kw dw t Hh Hl Hbar Ht k.
  unfold k, stochastic_oscillator. cbn [k_percent].
  rewrite (nth_map_nan (fmul f100)) by reflexivity.
  unfold rolling_min, rolling_max.
  rewrite (nth_map2 fdiv _ _ t NaN NaN NaN)
    by (rewrite !map2_length, ?rolling_length, !length_map; lia).
  rewrite !(nth_map2 fsub _ _ t NaN NaN NaN)
    by (rewrite ?rolling_length, !length_map; lia).
  rewrite nth_map_Fin by exact Ht.
  destruct (Hbar t Ht) as [Hlc Hch].
  destruct (rolling_at_finite kw list_min low t) as [E | (wl & E & Fl & Il)];
    [lia | rewrite E; left; now rewrite fsub_nan_r |].
  destruct (rolling_at_finite kw list_max high t) as [E' | (wh & E' & Fh & Ih)];
    [lia | rewrite E'; left;
           change (fsub NaN (nth t (rolling kw list_min (map Fin low)) NaN))
             with NaN;
           now rewrite fdiv_nan_r |].
  rewrite E, E'.
  destruct (list_min_le wl _ Fl Il) as (m & Em & Hm).
  destruct (list_max_ge wh _ Fh Ih) as (M & EM & HM).
  rewrite Em, EM. apply k_percent_point; lra.
Qed.

Lemma stochastic_k_bounded_witness :
  let k := nth 2 (k_percent (stochastic_oscillator
                               (map Fin [12; 13; 14]) (map Fin [9; 10; 11])
                               (map Fin [10; 12; 13]) 2 3)) NaN in
  k = NaN \/ exists q, k = Fin q /\ 0 <= q /\ q <= 100.
Proof.
  apply (stochastic_k_bounded [12; 13; 14] [9; 10; 11] [10; 12; 13] 2 3 2).
  - reflexivity.
  - reflexivity.
  - intros [|[|[|i]]] Hi; simpl in *; try lia; split; discriminate.
  - simpl. lia.
Defined.

(** ** Average true range *)

Lemma Forall_map3 (P Q R T : fval -> Prop) f xs ys zs :
  (forall x y z, P x -> Q y -> R z -> T (f x y z)) ->
  Forall P xs -> Forall Q ys -> Forall R zs ->
  Forall T (map3 f xs ys zs).
Proof.
  intros Hf Hx. revert ys zs; induction Hx as [|x xs Hx Hxs IH];
    intros ys zs Hy Hz; simpl; [constructor|].
  destruct Hy as [|y ys Hy Hys]; [constructor|].
  destruct Hz as [|z zs Hz Hzs]; constructor; auto.
Qed.

Lemma row_max3_nonneg (a b c : fval) :
  fin_nonneg a -> nonneg_or_nan b -> nonneg_or_nan c ->
  fin_nonneg (row_max3 a b c).
Proof.
  destruct a as [x| | |], b as [y| | |], c as [z| | |]; simpl;
    try contradiction; intros Ha Hb Hc; unfold row_max3, fmax; cbn;
    repeat match goal with
           | |- context [Qlt_bool ?u ?v] => destruct (Qlt_bool u v); cbn
           end; auto.
Qed.

Lemma true_range_1_nonneg (high low : list Q) :
  Forall2 Qle low high ->
  Forall fin_nonneg (map2 fsub (map Fin high) (map Fin low)).
Proof.
  intros H. induction H as [|l h ls hs Hlh Hrest IH]; simpl; constructor; auto.
  simpl. lra.
Qed.

Lemma true_range_23_nonneg (xs close : list Q) :
  Forall nonneg_or_nan
    (map fabs (map2 fsub (map Fin xs) (shift (map Fin close)))).
Proof.
  apply Forall_map.
  apply (Forall_map2 (fun v => is_fin v = true) fin_or_nan).
  - intros [x| | |] [y| | |] Hx Hy; try discriminate Hx;
      try (destruct Hy); try exact I.
    change (0 <= Qabs (x + - y)). apply Qabs_nonneg.
  - apply Forall_finite_map_Fin.
  - apply Forall_scan_shift; [exact I|].
    apply Forall_map_Fin. intros; exact I.
Qed.

(** X8.  For bars of finite prices with low <= high, the average true
    range is, at every position, undefined (NaN) or a finite nonnegative
    number, and the series has the length of the input. *)
Theorem atr_nonnegative :
  forall (high low close : list Q) (window : nat),
    length high = length close -> length low = length close ->
    Forall2 Qle low high ->
    length (atr (map Fin high) (map Fin low) (map Fin close) window)
    = length close /\
    Forall nonneg_or_nan
      (atr (map Fin high) (map Fin low) (map Fin close) window).
Proof.
  intros high low close window Hh Hl Hbar. unfold atr. split.
  - unfold rolling_mean. rewrite rolling_length.
    rewrite map3_length;
      rewrite ?length_map, ?map2_length, ?shift_length, ?length_map; lia.
  - apply rolling_mean_nonneg.
    apply (Forall_map3 fin_nonneg nonneg_or_nan nonneg_or_nan).
    + apply row_max3_nonneg.
    + now apply true_range_1_nonneg.
    + apply true_range_23_nonneg.
    + apply true_range_23_nonneg.
Qed.

Lemma atr_nonnegative_witness :
  Forall nonneg_or_nan
    (atr (map Fin [12; 13; 14]) (map Fin [9; 10; 11]) (map Fin [10; 12; 13]) 2).
Proof.
  apply (atr_nonnegative [12; 13; 14] [9; 10; 11] [10; 12; 13] 2).
  - reflexivity.
  - reflexivity.
  - repeat constructor; discriminate.
Defined.

(** ** Volume indicators *)

Lemma nth_cumsum_Fin (l : list Q) (a : Q) (t : nat) :
  (t < length l)%nat ->
  nth t (scan (fun acc x => if is_nan x then (acc, NaN)
                            else let p := fadd acc x in (p, p))
              (Fin a) (map Fin l)) NaN
  = Fin (fold_left Qplus (firstn (S t) l) a).
Proof.
  revert a t; induction l as [|x l IH]; intros a t H; simpl in H; [lia|].
  destruct t as [|t]; [reflexivity|].
  simpl. apply IH. lia.
Qed.

Lemma map2_fmul_Fin (a b : list Q) :
  map2 fmul (map Fin a) (map Fin b) = map Fin (map2 Qmult a b).
Proof.
  revert b; induction a as [|x a IH]; intros [|y b]; simpl; auto.
  now rewrite IH.
Qed.

Lemma weighted_sum_bounds (lo hi : Q) (ps vs : list Q) :
  length ps = length vs ->
  Forall (within lo hi) ps -> Forall (fun v => 0 < v) vs ->
  lo * fold_left Qplus vs 0 <= fold_left Qplus (map2 Qmult ps vs) 0 /\
  fold_left Qplus (map2 Qmult ps vs) 0 <= hi * fold_left Qplus vs 0.
Proof.
  intros Hlen Hp. revert vs Hlen; induction Hp as [|p ps [Hp1 Hp2] Hps IH];
    intros vs Hlen Hv.
  - destruct vs; [simpl; lra | discriminate].
  - destruct Hv as [|v vs Hv Hvs]; [discriminate|].
    cbn [map2]. rewrite !fold_Qplus_cons.
    destruct (IH vs) as [I1 I2]; [simpl in Hlen; lia | exact Hvs |].
    split; nra.
Qed.

Lemma Forall_firstn_gen {A : Type} (P : A -> Prop) n (l : list A) :
  Forall P l -> Forall P (firstn n l).
Proof.
  intros H. revert n; induction H; intros [|n]; simpl; constructor; auto.
Qed.

(** X9.  With finite prices and positive volumes, the volume-weighted
    average price is defined at every position and lies within the range
    of the prices: if every price is in [lo, hi], so is every VWAP. *)
Theorem vwap_within_price_range :
  forall (price volume : list Q) (lo hi : Q) (t : nat),
    length price = length volume ->
    Forall (within lo hi) price -> Forall (fun v => 0 < v) volume ->
    (t < length price)%nat ->
    exists v,
      nth t (vwap (volume_indicators (map Fin price) (map Fin volume))) NaN
      = Fin v /\ within lo hi v.
Proof.
  intros price volume lo hi t Hlen Hp Hv Ht.
  unfold volume_indicators. cbn [vwap]. unfold cumsum, f0.
  rewrite map2_fmul_Fin.
  rewrite (nth_map2 fdiv _ _ t NaN NaN NaN)
    by (rewrite scan_length, length_map, ?map2_length; lia).
  rewrite !nth_cumsum_Fin by (rewrite ?map2_length; lia).
  rewrite (firstn_map2 Qmult).
  set (ps := firstn (S t) price). set (vs := firstn (S t) volume).
  assert (Hl : length ps = length vs)
    by (unfold ps, vs; rewrite !length_firstn; lia).
  assert (Hps : Forall (within lo hi) ps)
    by (now apply Forall_firstn_gen).
  assert (Hvs : Forall (fun v => 0 < v) vs)
    by (now apply Forall_firstn_gen).
  assert (Hne : vs <> []).
  { unfold vs. destruct volume; simpl in *; [lia | discriminate]. }
  pose proof (fold_Qplus_pos vs Hne Hvs) as Hpos.
  destruct (weighted_sum_bounds lo hi ps vs Hl Hps Hvs) as [B1 B2].
  unfold fdiv.
  assert (Z : Qzero_b (fold_left Qplus vs 0) = false)
    by (apply Qzero_b_false; lra).
  rewrite Z. eexists. split; [reflexivity|]. split.
  - apply Qle_shift_div_l; lra.
  - apply Qle_shift_div_r; lra.
Qed.

Lemma vwap_within_price_range_witness :
  exists v,
    nth 1 (vwap (volume_indicators (map Fin [10; 12]) (map Fin [100; 300])))
        NaN = Fin v /\ within 10 12 v.
Proof.
  apply (vwap_within_price_range [10; 12] [100; 300] 10 12 1).
  - reflexivity.
  - repeat constructor; simpl; discriminate.
  - repeat constructor.
  - simpl. lia.
Defined.

Lemma cumsum_leading_nan (xs : list fval) (inc : nat -> Q) :
  nth 0 xs NaN = NaN ->
  (forall i, (1 <= i < length xs)%nat -> nth i xs NaN = Fin (inc i)) ->
  forall t, (1 <= t < length xs)%nat ->
    exists a,
      (t = 1%nat -> a = 0) /\
      ((2 <= t)%nat -> nth (t - 1) (cumsum xs) NaN = Fin a) /\
      nth t (cumsum xs) NaN = Fin (a + inc t).
Proof.
  intros H0 Hfin.
  set (cstep := fun (acc x : fval) =>
                  if is_nan x then (acc, NaN)
                  else let p := fadd acc x in (p, p)).
  assert (Inv : forall t, (1 <= t < length xs)%nat ->
            exists a, scan_final cstep f0 (firstn t xs) = Fin a /\
                      (t = 1%nat -> a = 0) /\
                      ((2 <= t)%nat -> nth (t - 1) (cumsum xs) NaN = Fin a)).
  { induction t as [|t IH]; intros Ht; [lia|].
    destruct t as [|t].
    - exists 0. split; [|split; [reflexivity | lia]].
      rewrite (scan_final_S _ _ _ 0 NaN) by lia.
      rewrite H0. reflexivity.
    - destruct IH as (a & Ea & _ & _); [lia|].
      exists (a + inc (S t)). split; [|split; [lia|]].
      + rewrite (scan_final_S _ _ _ (S t) NaN) by lia.
        rewrite Ea, Hfin by lia. reflexivity.
      + intros _. replace (S (S t) - 1)%nat with (S t) by lia.
        unfold cumsum. fold cstep.
        rewrite (nth_scan_final _ _ _ (S t) NaN NaN) by lia.
        rewrite Ea, Hfin by lia. reflexivity. }
  intros t Ht. destruct (Inv t Ht) as (a & Ea & H1 & H2).
  exists a. split; [exact H1|]. split; [exact H2|].
  unfold cumsum. fold cstep.
  rewrite (nth_scan_final _ _ _ t NaN NaN) by lia.
  rewrite Ea, Hfin by lia. reflexivity.
Qed.

Lemma np_sign_price_move (prev p : Q) :
  np_sign (fsub (Fin p) (Fin prev)) = Fin (price_sign prev p).
Proof.
  unfold fsub, fneg, fadd, np_sign, qsign, price_sign, Qpos_b, Qneg_b.
  destruct (Qlt_bool prev p) eqn:E1.
  - apply Qlt_bool_iff in E1.
    assert (E : Qlt_bool 0 (p + - prev) = true)
      by (apply Qlt_bool_iff; lra).
    now rewrite E.
  - apply Qlt_bool_false in E1.
    assert (E : Qlt_bool 0 (p + - prev) = false)
      by (apply Qlt_bool_false; lra).
    rewrite E.
    destruct (Qlt_bool p prev) eqn:E2.
    + apply Qlt_bool_iff in E2.
      assert (E' : Qlt_bool (p + - prev) 0 = true)
        by (apply Qlt_bool_iff; lra).
      now rewrite E'.
    + apply Qlt_bool_false in E2.
      assert (E' : Qlt_bool (p + - prev) 0 = false)
        by (apply Qlt_bool_false; lra).
      now rewrite E'.
Qed.

Lemma obv_input_at (price volume : list Q) (t : nat) :
  length price = length volume -> (t < length price)%nat ->
  nth t (map2 fmul (map np_sign (diff (map Fin price))) (map Fin volume)) NaN
  = match t with
    | O => NaN
    | S k => Fin (price_sign (nth k price 0) (nth t price 0) * nth t volume 0)
    end.
Proof.
  intros Hlen Ht.
  rewrite (nth_map2 fmul _ _ t NaN NaN NaN)
    by (rewrite ?length_map, ?diff_length, ?length_map; lia).
  rewrite (nth_map_nan np_sign) by reflexivity.
  destruct t as [|t].
  - now rewrite nth_diff_0.
  - rewrite nth_diff_S by (rewrite length_map; lia).
    rewrite !nth_map_Fin by lia.
    now rewrite np_sign_price_move.
Qed.

(** X10.  On-balance volume of finite prices and volumes: undefined at the
    first bar; at bar 1 it is the signed volume of that bar, and at every
    later bar the previous value plus the signed volume, the sign being
    that of the price move (a bar with an unchanged price adds nothing). *)
Theorem obv_accumulates_signed_volume :
  forall (price volume : list Q) (t : nat),
    length price = length volume -> (t < length price)%nat ->
    let o := obv (volume_indicators (map Fin price) (map Fin volume)) in
    let move := price_sign (nth (t - 1) price 0) (nth t price 0)
                * nth t volume 0 in
    nth 0 o NaN = NaN /\
    ((1 <= t)%nat ->
     exists a, (t = 1%nat -> a = 0) /\
               ((2 <= t)%nat -> nth (t - 1) o NaN = Fin a) /\
               nth t o NaN = Fin (a + move)).
Proof.
  intros price volume t Hlen Ht o move.
  unfold o, volume_indicators. cbn [obv].
  set (xs := map2 fmul (map np_sign (diff (map Fin price))) (map Fin volume)).
  assert (Lx : length xs = length price).
  { unfold xs. rewrite map2_length, !length_map, diff_length, length_map. lia. }
  assert (H0 : nth 0 xs NaN = NaN).
  { unfold xs. now rewrite (obv_input_at price volume 0 Hlen) by lia. }
  split.
  - unfold cumsum. rewrite (nth_scan_final _ _ _ 0 NaN NaN) by lia.
    rewrite H0. reflexivity.
  - intros H1.
    destruct (cumsum_leading_nan xs
                (fun i => price_sign (nth (i - 1) price 0) (nth i price 0)
                          * nth i volume 0) H0) with (t := t)
      as (a & Ha1 & Ha2 & Ha3).
    + intros i Hi. unfold xs.
      rewrite (obv_input_at price volume i Hlen) by lia.
      destruct i as [|i]; [lia|].
      now replace (S i - 1)%nat with i by lia.
    + lia.
    + exists a. auto.
Qed.

Lemma obv_accumulates_signed_volume_witness :
  let o := obv (volume_indicators (map Fin [10; 11; 11; 9])
                                  (map Fin [100; 200; 300; 400])) in
  exists a, nth 2 o NaN = Fin a /\ nth 3 o NaN = Fin (a + - (1) * 400).
Proof.
  destruct (obv_accumulates_signed_volume [10; 11; 11; 9]
              [100; 200; 300; 400] 3) as [_ H].
  - reflexivity.
  - simpl. lia.
  - destruct H as (a & _ & Ha & Hb); [lia|].
    exists a. split; [apply Ha; lia | exact Hb].
Defined.

(** ** Method names *)

Lemma eqb_false_of_neq (a b : String.string) :
  a <> b -> String.eqb a b = false.
Proof. intros H. now apply String.eqb_neq. Qed.

(** X11.  [calculate_returns] accepts the methods 'simple' and 'log' only:
    any other name raises ValueError; for both accepted methods the result
    has the length of the input and its first entry is undefined. *)
Theorem calculate_returns_methods :
  forall (flog : Q -> Q) (data : list fval) (method : String.string),
    (method <> "simple"%string -> method <> "log"%string ->
     calculate_returns flog data method = Raise ValueError) /\
    (method = "simple"%string \/ method = "log"%string ->
     exists out, calculate_returns flog data method = Ok out /\
                 length out = length data /\ nth 0 out NaN = NaN).
Proof.
  intros flog data method. split.
  - intros H1 H2. unfold calculate_returns.
    now rewrite (eqb_false_of_neq _ _ H1), (eqb_false_of_neq _ _ H2).
  - intros [E | E]; subst method; unfold calculate_returns; simpl String.eqb;
      cbv iota; eexists; (split; [reflexivity|]).
    + split; [apply pct_change_length|].
      destruct data as [|x data]; [reflexivity|]. simpl. now destruct x.
    + split; [rewrite length_map, map2_length, shift_length; lia|].
      destruct data as [|x data]; [reflexivity|]. simpl. now destruct x.
Qed.

Lemma calculate_returns_methods_witness :
  calculate_returns (fun q => q) (map Fin [10; 11]) "percent"%string
  = Raise ValueError.
Proof.
  destruct (calculate_returns_methods (fun q => q) (map Fin [10; 11])
              "percent"%string) as [H _].
  apply H; discriminate.
Defined.

(** X12.  [portfolio_optimization] accepts the methods 'equal_weight',
    'risk_parity' and 'minimum_variance' only: any other name raises
    ValueError, whatever the data; and 'equal_weight' on a frame without
    columns raises ZeroDivisionError. *)
Theorem portfolio_optimization_rejects :
  forall (fsqrt : Q -> Q) (pinv : matrix -> matrix) (df : frame)
         (method : String.string),
    (method <> "equal_weight"%string -> method <> "risk_parity"%string ->
     method <> "minimum_variance"%string ->
     portfolio_optimization fsqrt pinv df method = Raise ValueError) /\
    portfolio_optimization fsqrt pinv [] "equal_weight"%string
    = Raise ZeroDivisionError.
Proof.
  intros fsqrt pinv df method. split; [|reflexivity].
  intros H1 H2 H3. unfold portfolio_optimization, portfolio_weights.
  now rewrite (eqb_false_of_neq _ _ H1), (eqb_false_of_neq _ _ H2),
    (eqb_false_of_neq _ _ H3).
Qed.

Lemma portfolio_optimization_rejects_witness :
  portfolio_optimization sqrt_floor pinv_greville leveraged_assets
    "max_sharpe"%string = Raise ValueError.
Proof.
  destruct (portfolio_optimization_rejects sqrt_floor pinv_greville
              leveraged_assets "max_sharpe"%string) as [H _].
  apply H; discriminate.
Defined.

(** ** Invariants of the backtest frame *)

(** X13.  On a nonempty series a backtest raises ValueError in one case,
    the moving-average variant with a short window longer than the series;
    in every other case, for every variant, it returns a frame whose
    signal is 0 or 1 at every bar and whose columns (price, signal,
    positions, returns, strategy returns and both cumulative curves) all
    have the length of the input. *)
Theorem backtest_frame_invariants :
  forall (s : strategy) (data : list fval),
    data <> [] ->
    (short_window_fits s (length data) = false ->
     run_backtest s data = Raise ValueError) /\
    (short_window_fits s (length data) = true ->
     exists r,
       run_backtest s data = Ok r /\
       Forall is_position (signal r) /\
       price r = data /\
       length (signal r) = length data /\
       length (positions r) = length data /\
       length (returns r) = length data /\
       length (strategy_returns r) = length data /\
       length (cumulative_returns r) = length data /\
       length (cumulative_strategy_returns r) = length data).
Proof.
  intros s data Hne. split.
  - apply run_backtest_raises.
  - intros Hfit. destruct (run_backtest_total s data Hne Hfit) as [r Hr].
    exists r. split; [exact Hr|]. exact (backtest_frame_facts s data r Hr).
Qed.

Lemma backtest_frame_invariants_witness :
  (exists r,
      run_backtest (RsiThreshold 3 30 70) (map Fin [10; 11; 12; 11; 10; 9])
      = Ok r /\
      Forall is_position (signal r)) /\
  (exists r,
      run_backtest (MovingAverage 2 3) (map Fin [10; 11; 12; 11; 10; 9])
      = Ok r /\
      length (signal r) = 6%nat) /\
  run_backtest (MovingAverage 7 20) (map Fin [10; 11; 12; 11; 10; 9])
  = Raise ValueError.
Proof.
  split; [|split].
  - destruct (backtest_frame_invariants (RsiThreshold 3 30 70)
                (map Fin [10; 11; 12; 11; 10; 9])) as (_ & H); [discriminate|].
    destruct H as (r & Hr & Hs & _); [reflexivity|].
    exists r. split; [exact Hr | exact Hs].
  - destruct (backtest_frame_invariants (MovingAverage 2 3)
                (map Fin [10; 11; 12; 11; 10; 9])) as (_ & H); [discriminate|].
    destruct H as (r & Hr & _ & _ & L & _); [reflexivity|].
    exists r. split; [exact Hr | exact L].
  - destruct (backtest_frame_invariants (MovingAverage 7 20)
                (map Fin [10; 11; 12; 11; 10; 9])) as (H & _); [discriminate|].
    apply H. reflexivity.
Defined.

(** ** The RSI rule holds its position between the thresholds *)

Lemma ffill_at (ys : list fval) (t : nat) :
  (t < length ys)%nat ->
  nth t (ffill ys) NaN
  = if is_nan (nth t ys NaN)
    then match t with O => NaN | S k => nth k (ffill ys) NaN end
    else nth t ys NaN.
Proof.
  intros Ht. unfold ffill.
  set (step := fun (last x : fval) =>
                 let v := if is_nan x then last else x in (v, v)).
  rewrite (nth_scan_final step _ _ t NaN NaN) by exact Ht.
  destruct t as [|t].
  - reflexivity.
  - rewrite (scan_final_S step _ _ t NaN) by lia.
    rewrite (nth_scan_final step _ _ t NaN NaN) by lia.
    reflexivity.
Qed.

Lemma nth_fillna (d : fval) (l : list fval) (t : nat) :
  (t < length l)%nat ->
  nth t (fillna d l) NaN = if is_nan (nth t l NaN) then d else nth t l NaN.
Proof.
  intros Ht. unfold fillna.
  rewrite (nth_indep _ NaN ((fun x => if is_nan x then d else x) NaN))
    by (now rewrite length_map).
  apply (map_nth (fun x => if is_nan x then d else x)).
Qed.

(** X14.  The signal of the RSI strategy at bar t: 1 when RSI is below the
    oversold level; otherwise 0 when RSI is above the overbought level;
    otherwise (RSI between the levels, or undefined) the signal of the
    previous bar, and 0 at the first bar. *)
Theorem rsi_signal_carries_forward :
  forall (data : list fval) (rsi_period : nat) (oversold overbought : fval)
         (t : nat),
    (t < length data)%nat ->
    let r := backtest_rsi_strategy data rsi_period oversold overbought in
    let v := nth t (rsi data rsi_period) NaN in
    nth t (signal r) NaN
    = if flt v oversold then f1
      else if fgt v overbought then f0
      else match t with O => f0 | S k => nth k (signal r) NaN end.
Proof.
  intros data w lo hi t Ht r v.
  unfold r, backtest_rsi_strategy. cbn [signal].
  set (ys := map (fun r0 => if flt r0 lo then f1
                            else if fgt r0 hi then f0 else NaN)
                 (rsi data w)).
  assert (Ly : length ys = length data)
    by (unfold ys; now rewrite length_map, rsi_length).
  assert (Lf : length (ffill ys) = length data)
    by (unfold ffill; now rewrite scan_length).
  assert (Ey : nth t ys NaN
               = if flt v lo then f1 else if fgt v hi then f0 else NaN).
  { unfold ys, v.
    rewrite (nth_indep _ NaN
               ((fun r0 => if flt r0 lo then f1
                           else if fgt r0 hi then f0 else NaN) NaN))
      by (rewrite length_map, rsi_length; lia).
    apply (map_nth (fun r0 => if flt r0 lo then f1
                              else if fgt r0 hi then f0 else NaN)). }
  rewrite nth_fillna by lia.
  rewrite ffill_at by lia. rewrite Ey.
  destruct (flt v lo); [reflexivity|].
  destruct (fgt v hi); [reflexivity|].
  cbn [is_nan]. destruct t as [|t]; [reflexivity|].
  rewrite nth_fillna by lia.
  destruct (nth t (ffill ys) NaN); reflexivity.
Qed.

Lemma rsi_signal_carries_forward_witness :
  let r := backtest_rsi_strategy (map Fin [10; 11; 12; 11; 10; 9; 10]) 3
             (Fin 30) (Fin 70) in
  nth 6 (signal r) NaN = nth 5 (signal r) NaN.
Proof.
  intros r. unfold r.
  rewrite (rsi_signal_carries_forward (map Fin [10; 11; 12; 11; 10; 9; 10]) 3
             (Fin 30) (Fin 70) 6).
  - reflexivity.
  - simpl. lia.
Defined.

(** ** The benchmark curve *)

Lemma cumprod_leading_nan (xs : list fval) (g : nat -> Q) :
  nth 0 xs NaN = NaN ->
  (forall i, (1 <= i < length xs)%nat -> nth i xs NaN = Fin (g i)) ->
  forall t, (1 <= t < length xs)%nat ->
    exists a,
      (t = 1%nat -> a = 1) /\
      ((2 <= t)%nat -> nth (t - 1) (cumprod xs) NaN = Fin a) /\
      nth t (cumprod xs) NaN = Fin (a * g t).
Proof.
  intros H0 Hfin.
  set (cstep := fun (acc x : fval) =>
                  if is_nan x then (acc, NaN)
                  else let p := fmul acc x in (p, p)).
  assert (Inv : forall t, (1 <= t < length xs)%nat ->
            exists a, scan_final cstep f1 (firstn t xs) = Fin a /\
                      (t = 1%nat -> a = 1) /\
                      ((2 <= t)%nat -> nth (t - 1) (cumprod xs) NaN = Fin a)).
  { induction t as [|t IH]; intros Ht; [lia|].
    destruct t as [|t].
    - exists 1. split; [|split; [reflexivity | lia]].
      rewrite (scan_final_S _ _ _ 0 NaN) by lia.
      rewrite H0. reflexivity.
    - destruct IH as (a & Ea & _ & _); [lia|].
      exists (a * g (S t)). split; [|split; [lia|]].
      + rewrite (scan_final_S _ _ _ (S t) NaN) by lia.
        rewrite Ea, Hfin by lia. reflexivity.
      + intros _. replace (S (S t) - 1)%nat with (S t) by lia.
        unfold cumprod. fold cstep.
        rewrite (nth_scan_final _ _ _ (S t) NaN NaN) by lia.
        rewrite Ea, Hfin by lia. reflexivity. }
  intros t Ht. destruct (Inv t Ht) as (a & Ea & H1 & H2).
  exists a. split; [exact H1|]. split; [exact H2|].
  unfold cumprod. fold cstep.
  rewrite (nth_scan_final _ _ _ t NaN NaN) by lia.
  rewrite Ea, Hfin by lia. reflexivity.
Qed.

Lemma gross_return_at (prices : list Q) (t : nat) :
  Forall (fun p => ~ p == 0) prices -> (t < length prices)%nat ->
  nth t (map (fadd f1) (pct_change (map Fin prices))) NaN
  = match t with
    | O => NaN
    | S k => Fin (1 + (nth t prices 0 / nth k prices 0 + - (1)))
    end.
Proof.
  intros Hnz Ht. rewrite (nth_map_nan (fadd f1)) by reflexivity.
  destruct t as [|t].
  - destruct prices; reflexivity.
  - rewrite nth_pct_change by lia.
    replace (S t - 1)%nat with t by lia.
    rewrite Forall_forall in Hnz.
    assert (Hp : ~ nth t prices 0 == 0) by (apply Hnz, nth_In; lia).
    unfold fdiv. apply Qzero_b_false in Hp. rewrite Hp. reflexivity.
Qed.

Lemma benchmark_curve_at (prices : list Q) (t : nat) :
  Forall (fun p => ~ p == 0) prices -> (1 <= t < length prices)%nat ->
  exists c,
    nth t (cumprod (map (fadd f1) (pct_change (map Fin prices)))) NaN = Fin c /\
    c == nth t prices 0 / nth 0 prices 0.
Proof.
  intros Hnz.
  set (xs := map (fadd f1) (pct_change (map Fin prices))).
  assert (Lx : length xs = length prices)
    by (unfold xs; now rewrite length_map, pct_change_length, length_map).
  assert (Hall : forall i, (i < length prices)%nat -> ~ nth i prices 0 == 0).
  { intros i Hi. rewrite Forall_forall in Hnz. apply Hnz, nth_In. exact Hi. }
  induction t as [|t IH]; intros Ht; [lia|].
  destruct (cumprod_leading_nan xs
              (fun i => 1 + (nth i prices 0 / nth (i - 1) prices 0 + - (1))))
    with (t := S t) as (a & Ha1 & Ha2 & Ha3).
  - unfold xs. rewrite (gross_return_at prices 0 Hnz) by lia. reflexivity.
  - intros i Hi. unfold xs. rewrite (gross_return_at prices i Hnz) by lia.
    destruct i as [|i]; [lia|]. now replace (S i - 1)%nat with i by lia.
  - lia.
  - eexists. split; [exact Ha3|].
    replace (S t - 1)%nat with t by lia.
    pose proof (Hall t ltac:(lia)) as Hpt.
    pose proof (Hall 0%nat ltac:(lia)) as Hp0.
    destruct t as [|t].
    + rewrite Ha1 by reflexivity. field. exact Hp0.
    + destruct IH as (c & Ec & Hc); [lia|].
      specialize (Ha2 ltac:(lia)).
      replace (S (S t) - 1)%nat with (S t) in Ha2 by lia.
      fold xs in Ec. rewrite Ec in Ha2. injection Ha2 as <-.
      rewrite Hc. field. split; assumption.
Qed.

Lemma run_backtest_benchmark s data r :
  run_backtest s data = Ok r ->
  cumulative_returns r = cumprod (map (fadd f1) (pct_change data)).
Proof.
  destruct s as [sw lw | w lo hi | ]; simpl; intros H.
  - now destruct (backtest_simple_strategy_inv _ _ _ _ H) as [_ ->].
  - now injection H as <-.
  - now destruct (backtest_buy_and_hold_inv _ _ H) as [_ ->].
Qed.

(** X15.  For nonzero finite prices and every variant: the backtest
    raises ValueError in the moving-average variant with a short window
    longer than the series; in every other case the cumulative benchmark
    curve of the frame it returns has the length of the input, is
    undefined at the first bar and equals p[t] / p[0] at every later bar,
    and the benchmark equity returned by the request layer starts at 1. *)
Theorem benchmark_curve_is_price_relative :
  forall (s : strategy) (prices : list Q),
    prices <> [] -> Forall (fun p => ~ p == 0) prices ->
    (short_window_fits s (length prices) = false ->
     run_backtest s (map Fin prices) = Raise ValueError) /\
    (short_window_fits s (length prices) = true ->
     exists r,
       run_backtest s (map Fin prices) = Ok r /\
       length (cumulative_returns r) = length prices /\
       nth 0 (cumulative_returns r) NaN = NaN /\
       nth 0 (benchmark_equity r) NaN = f1 /\
       forall t, (1 <= t < length prices)%nat ->
         feq (nth t (cumulative_returns r) NaN)
             (Fin (nth t prices 0 / nth 0 prices 0)) /\
         feq (nth t (benchmark_equity r) NaN)
             (Fin (nth t prices 0 / nth 0 prices 0))).
Proof.
  intros s prices Hne Hnz. split.
  { intros Hfit. apply run_backtest_raises. now rewrite length_map. }
  intros Hfit.
  destruct (run_backtest_total s (map Fin prices)) as [r Hr].
  { destruct prices; [contradiction | discriminate]. }
  { now rewrite length_map. }
  exists r. split; [exact Hr|].
  pose proof (run_backtest_benchmark _ _ _ Hr) as Hc.
  assert (Lc : length (cumulative_returns r) = length prices).
  { rewrite Hc. now rewrite cumprod_length, length_map, pct_change_length,
      length_map. }
  split; [exact Lc|].
  assert (Hlen : (0 < length prices)%nat)
    by (destruct prices; simpl; [congruence | lia]).
  assert (E0 : nth 0 (cumulative_returns r) NaN = NaN).
  { rewrite Hc. destruct prices as [|p prices]; [contradiction|]. reflexivity. }
  split; [exact E0|]. split.
  - unfold benchmark_equity. rewrite nth_fillna by lia. now rewrite E0.
  - intros t Ht.
    destruct (benchmark_curve_at prices t Hnz Ht) as (c & Ec & Hcq).
    rewrite <- Hc in Ec. unfold benchmark_equity.
    rewrite nth_fillna by lia. rewrite Ec. simpl. split; exact Hcq.
Qed.

Lemma benchmark_curve_is_price_relative_witness :
  (exists r,
      run_backtest (MovingAverage 2 3) (map Fin [10; 11; 12]) = Ok r /\
      feq (nth 2 (cumulative_returns r) NaN) (Fin (12 / 10))) /\
  run_backtest (MovingAverage 5 20) (map Fin [10; 11; 12]) = Raise ValueError.
Proof.
  split.
  - destruct (benchmark_curve_is_price_relative (MovingAverage 2 3)
                [10; 11; 12]) as (_ & H).
    + discriminate.
    + repeat constructor; discriminate.
    + destruct H as (r & Hr & _ & _ & _ & H); [reflexivity|].
      exists r. split; [exact Hr|]. apply (H 2%nat). simpl. lia.
  - destruct (benchmark_curve_is_price_relative (MovingAverage 5 20)
                [10; 11; 12]) as (H & _).
    + discriminate.
    + repeat constructor; discriminate.
    + apply H. reflexivity.
Defined.

(** ** Buy and hold *)

Lemma fold_fadd_abs_zeros {A : Type} (l : list A) (a : Q) :
  exists a', fold_left fadd (map fabs (map (fun _ => f0) l)) (Fin a) = Fin a'
             /\ a' == a.
Proof.
  revert a; induction l as [|x l IH]; intros a; simpl.
  - exists a. split; reflexivity.
  - destruct (IH (a + Qabs 0)) as (a' & E & H). exists a'. split; [exact E|].
    rewrite H. change (Qabs 0) with 0. ring.
Qed.

(** X16.  Buy and hold raises IndexError on the empty series and on every
    other series returns a frame in which the strategy curve is the
    benchmark curve, bar for bar, and exactly one trade is counted. *)
Theorem buy_and_hold_single_trade :
  backtest_buy_and_hold [] = Raise IndexError /\
  forall data : list fval,
    data <> [] ->
    exists r,
      backtest_buy_and_hold data = Ok r /\
      cumulative_strategy_returns r = cumulative_returns r /\
      strategy_equity r = benchmark_equity r /\
      feq (trades r) f1.
Proof.
  split; [reflexivity|].
  intros [|x data] Hne; [contradiction|].
  unfold backtest_buy_and_hold. cbn [map].
  eexists. split; [reflexivity|].
  split; [reflexivity|]. split; [reflexivity|].
  unfold trades. cbn [positions map fabs f1].
  unfold pd_sum, dropna. cbn [filter is_nan negb].
  assert (E : filter (fun v => negb (is_nan v))
                (map fabs (map (fun _ : fval => f0) data))
              = map fabs (map (fun _ : fval => f0) data)).
  { induction data as [|y data IH]; simpl; auto.
    rewrite IH; auto. discriminate. }
  rewrite E. unfold np_sum. cbn [fold_left fadd f0].
  destruct (fold_fadd_abs_zeros data (0 + Qabs 1)) as (a & Ea & Ha).
  rewrite Ea. simpl. rewrite Ha. reflexivity.
Qed.

Lemma buy_and_hold_single_trade_witness :
  exists r,
    backtest_buy_and_hold (map Fin [10; 11; 12]) = Ok r /\
    feq (trades r) f1.
Proof.
  destruct buy_and_hold_single_trade as [_ H].
  destruct (H (map Fin [10; 11; 12])) as (r & Hr & _ & _ & Ht).
  - discriminate.
  - exists r. split; [exact Hr | exact Ht].
Defined.

(** ** The equal-weight portfolio *)

Lemma nth_map_seq {A : Type} (f : nat -> A) (m i : nat) (d : A) :
  (i < m)%nat -> nth i (map f (seq 0 m)) d = f i.
Proof.
  intros H. rewrite (nth_indep _ d (f 0%nat)) by (now rewrite length_map, length_seq).
  rewrite map_nth, seq_nth by exact H. reflexivity.
Qed.

Lemma weighted_row_Fin (df : frame) (k : Q) (i n : nat) :
  Forall (fun c => (i < length (snd c))%nat) df -> n = length df ->
  map2 (fun c w => fmul (nth i (col_values c) NaN) w) df
       (map Fin (repeat k n))
  = map Fin (map (fun c => nth i (snd c) 0 * k) df).
Proof.
  intros H. revert n; induction H as [|c df Hc Hdf IH]; intros n Hn;
    subst n; simpl; [reflexivity|].
  unfold col_values at 1. rewrite nth_map_Fin by exact Hc.
  rewrite (IH (length df)) by reflexivity. reflexivity.
Qed.

Lemma fold_Qplus_scale_r {A : Type} (f : A -> Q) (k : Q) (l : list A) :
  fold_left Qplus (map (fun c => f c * k) l) 0
  == fold_left Qplus (map f l) 0 * k.
Proof.
  induction l as [|x l IH]; [simpl; ring|].
  cbn [map]. rewrite !fold_Qplus_cons, IH. ring.
Qed.

(** X17.  With the 'equal_weight' method, on a frame of one or more
    columns of equal length, the portfolio return of every bar is the mean
    of the asset returns of that bar. *)
Theorem equal_weight_return_is_row_mean :
  forall (fsqrt : Q -> Q) (pinv : matrix -> matrix) (df : frame),
    df <> [] ->
    Forall (fun c => length (snd c) = n_rows df) df ->
    exists p,
      portfolio_optimization fsqrt pinv df "equal_weight"%string = Ok p /\
      length (portfolio_returns p) = n_rows df /\
      forall i, (i < n_rows df)%nat ->
        feq (nth i (portfolio_returns p) NaN)
            (Fin (qsum (map (fun c => nth i (snd c) 0) df)
                  / inject_Z (Z.of_nat (length df)))).
Proof.
  intros fsqrt pinv df Hne Hrows.
  destruct (equal_weight_weights fsqrt pinv df Hne) as (Ew & Hpos & _).
  unfold portfolio_optimization. rewrite Ew.
  eexists. split; [reflexivity|]. cbn [portfolio_returns].
  unfold weighted_row_sums. split.
  - now rewrite length_map, length_seq.
  - intros i Hi. rewrite nth_map_seq by exact Hi.
    rewrite (weighted_row_Fin df _ i (length df)); [| |reflexivity].
    + unfold pd_sum. rewrite dropna_map_Fin, np_sum_Fin. simpl.
      rewrite fold_Qplus_scale_r, fold_Qplus_qsum.
      assert (Hn : 0 < inject_Z (Z.of_nat (length df))).
      { apply inject_nat_pos. destruct df; simpl; [congruence | lia]. }
      field. lra.
    + eapply Forall_impl; [|exact Hrows]. intros c Hc. cbv beta in Hc. lia.
Qed.

Lemma equal_weight_return_is_row_mean_witness :
  exists p,
    portfolio_optimization sqrt_floor pinv_greville leveraged_assets
      "equal_weight"%string = Ok p /\
    feq (nth 0 (portfolio_returns p) NaN) (Fin (((1 # 100) + ((3 # 100) + 0)) / 2)).
Proof.
  destruct (equal_weight_return_is_row_mean sqrt_floor pinv_greville
              leveraged_assets) as (p & Hp & _ & H).
  - discriminate.
  - repeat constructor.
  - exists p. split; [exact Hp|]. apply (H 0%nat). simpl. lia.
Defined.

(** ** The RSI returned by the request layer *)

Lemma rsi_gain_nonneg (prices : list Q) (w t : nat) :
  nonneg_or_nan (nth t (rsi_gain (map Fin prices) w) NaN).
Proof.
  apply Forall_nth_default; [|exact I].
  apply rolling_mean_nonneg, gain_input_nonneg.
Qed.

Lemma rsi_loss_nonneg (prices : list Q) (w t : nat) :
  nonneg_or_nan (nth t (rsi_loss (map Fin prices) w) NaN).
Proof.
  apply Forall_nth_default; [|exact I].
  apply rolling_mean_nonneg, loss_input_nonneg.
Qed.

Lemma rolling_leading_nan w agg (xs : list fval) (t : nat) :
  (t < length xs)%nat -> (S t < w)%nat ->
  nth t (rolling w agg xs) NaN = NaN.
Proof.
  intros Ht Hw. rewrite nth_rolling by exact Ht. unfold window_value.
  rewrite length_rev, length_firstn, prep_values_length, Nat.min_l by lia.
  replace (S t <? w)%nat with true by (symmetry; apply Nat.ltb_lt; lia).
  now rewrite orb_true_r.
Qed.

(** X18.  The RSI list of the indicators endpoint (window 14, undefined
    positions replaced by 50), for finite closing prices: it has the length
    of the input, every entry is a finite number in [0,100], and the first
    13 entries are 50. *)
Theorem indicators_rsi_in_range :
  forall (close : list Q),
    length (indicators_rsi (map Fin close)) = length close /\
    Forall (fun v => exists q, v = Fin q /\ 0 <= q /\ q <= 100)
           (indicators_rsi (map Fin close)) /\
    forall t, (t < length close)%nat -> (t < 13)%nat ->
              nth t (indicators_rsi (map Fin close)) NaN = Fin 50.
Proof.
  intros close.
  assert (L : length (indicators_rsi (map Fin close)) = length close).
  { unfold indicators_rsi, fillna.
    now rewrite length_map, rsi_length, length_map. }
  assert (Lr : length (rsi (map Fin close) 14) = length close)
    by (now rewrite rsi_length, length_map).
  split; [exact L|]. split.
  - apply Forall_forall. intros v Hv.
    destruct (In_nth _ _ NaN Hv) as (t & Ht & Et). rewrite L in Ht.
    subst v. unfold indicators_rsi.
    rewrite nth_fillna by lia.
    rewrite nth_rsi by (now rewrite length_map).
    destruct (rsi_point_cases _ _ (rsi_gain_nonneg close 14 t)
                (rsi_loss_nonneg close 14 t))
      as [(E & _) | [(E & _) | (q & g & l & E & Hq0 & Hq1 & _)]].
    + rewrite E. cbn. exists 50. repeat split; lra.
    + destruct (rsi_point _ _) as [q| | |]; simpl in E; try contradiction.
      cbn. exists q. split; [reflexivity | lra].
    + rewrite E. cbn. exists q. split; [reflexivity | lra].
  - intros t Ht H13. unfold indicators_rsi.
    rewrite nth_fillna by lia.
    rewrite nth_rsi by (now rewrite length_map).
    unfold rsi_gain, rolling_mean.
    rewrite rolling_leading_nan
      by (rewrite ?where_length, ?diff_length, ?length_map; lia).
    reflexivity.
Qed.

Lemma indicators_rsi_in_range_witness :
  nth 2 (indicators_rsi (map Fin [10; 11; 12; 13])) NaN = Fin 50.
Proof.
  destruct (indicators_rsi_in_range [10; 11; 12; 13]) as (_ & _ & H).
  apply H; simpl; lia.
Defined.

(** ** Maximum drawdown *)

Lemma round_half_even_bounds (x : Q) (lo hi : Z) :
  inject_Z lo <= x -> x <= inject_Z hi ->
  (lo <= round_half_even x <= hi)%Z.
Proof.
  intros Hlo Hhi. unfold round_half_even.
  pose proof (Qfloor_le x) as Hf. pose proof (Qlt_floor x) as Hc.
  rewrite inject_Z_plus in Hc. change (inject_Z 1) with 1 in Hc.
  assert (Hf1 : (lo <= Qfloor x)%Z).
  { rewrite <- (Qfloor_Z lo). now apply Qfloor_resp_le. }
  assert (Hf2 : (Qfloor x <= hi)%Z).
  { rewrite Zle_Qle. lra. }
  set (f := Qfloor x) in *.
  assert (Hup : 0 < x - inject_Z f -> (f + 1 <= hi)%Z).
  { intros Hp. assert (Hlt : inject_Z f < inject_Z hi) by lra.
    rewrite <- Zlt_Qlt in Hlt. lia. }
  destruct (Qcompare (x - inject_Z f) (1 # 2)) eqn:E.
  - apply Qeq_alt in E. destruct (Z.even f); [lia|].
    split; [lia | apply Hup; lra].
  - lia.
  - apply Qgt_alt in E. split; [lia | apply Hup; lra].
Qed.

Lemma round4_within_unit (d : Q) :
  - (1) <= d -> d <= 0 ->
  exists d', round4 (Fin d) = Fin d' /\ - (1) <= d' /\ d' <= 0.
Proof.
  intros H1 H2. eexists. split; [reflexivity|].
  destruct (round_half_even_bounds (d * 10000) (-10000) 0) as [B1 B2].
  - change (inject_Z (-10000)) with (- (10000)). lra.
  - change (inject_Z 0) with 0. lra.
  - set (z := round_half_even (d * 10000)) in *.
    rewrite (Qmake_Qdiv z 10000). change (inject_Z (Z.pos 10000)) with 10000.
    rewrite Zle_Qle in B1, B2.
    change (inject_Z (-10000)) with (- (10000)) in B1.
    change (inject_Z 0) with 0 in B2.
    split.
    + apply Qle_shift_div_l; lra.
    + apply Qle_shift_div_r; lra.
Qed.

Lemma cumprod_positive (xs : list fval) :
  Forall (fun v => exists q, v = Fin q /\ 0 < q) xs ->
  Forall (fun v => exists q, v = Fin q /\ 0 < q) (cumprod xs).
Proof.
  intros H. unfold cumprod.
  apply (Forall_scan_inv (fun s => exists a, s = Fin a /\ 0 < a)
           (fun v => exists q, v = Fin q /\ 0 < q)); auto.
  - intros s x (a & -> & Ha) (q & -> & Hq). cbn.
    split; exists (a * q); (split; [reflexivity | nra]).
  - exists 1. split; [reflexivity | lra].
Qed.

Lemma expanding_max_dominates (xs : list fval) (acc : option fval) :
  Forall (fun v => exists q, v = Fin q /\ 0 < q) xs ->
  (acc = None \/ exists m, acc = Some (Fin m) /\ 0 < m) ->
  Forall2 (fun c m => exists cq mq, c = Fin cq /\ m = Fin mq /\
                                    0 < cq /\ cq <= mq)
    xs
    (scan (fun acc x =>
             if is_nan x
             then (acc, match acc with Some m => m | None => NaN end)
             else let m := match acc with
                           | Some m => fmax m x
                           | None => x
                           end in
                  (Some m, m)) acc xs).
Proof.
  intros H. revert acc; induction H as [|x xs (q & -> & Hq) Hxs IH];
    intros acc Hacc; simpl; constructor.
  - destruct Hacc as [-> | (m & -> & Hm)].
    + exists q, q. repeat split; auto; lra.
    + unfold fmax. cbn [flt]. destruct (Qlt_bool m q) eqn:E.
      * exists q, q. repeat split; auto; lra.
      * apply Qlt_bool_false in E. exists q, m. repeat split; auto.
  - apply IH. right.
    destruct Hacc as [-> | (m & -> & Hm)].
    + exists q. auto.
    + unfold fmax. cbn [flt]. destruct (Qlt_bool m q); eauto.
Qed.

Lemma drawdown_in_unit (cum rmax : list fval) :
  Forall2 (fun c m => exists cq mq, c = Fin cq /\ m = Fin mq /\
                                    0 < cq /\ cq <= mq) cum rmax ->
  Forall (fun v => exists d, v = Fin d /\ - (1) <= d /\ d <= 0)
    (map2 fdiv (map2 fsub cum rmax) rmax).
Proof.
  intros H. induction H as [|c m cum rmax (cq & mq & -> & -> & Hc & Hm) Hr IH];
    simpl; constructor; auto.
  assert (Z : Qzero_b mq = false) by (apply Qzero_b_false; lra).
  rewrite Z. eexists. split; [reflexivity|]. split.
  - apply Qle_shift_div_l; lra.
  - apply Qle_shift_div_r; lra.
Qed.

Lemma fold_fmin_in_unit (l : list fval) (a : Q) :
  Forall (fun v => exists d, v = Fin d /\ - (1) <= d /\ d <= 0) l ->
  - (1) <= a -> a <= 0 ->
  exists d, fold_left fmin l (Fin a) = Fin d /\ - (1) <= d /\ d <= 0.
Proof.
  intros H. revert a; induction H as [|v l (d & -> & Hd1 & Hd2) Hl IH];
    intros a Ha1 Ha2; simpl.
  - exists a. auto.
  - unfold fmin at 2. cbn [flt].
    destruct (Qlt_bool d a); apply IH; auto.
Qed.

Lemma dropna_all_finite (l : list fval) :
  Forall (fun v => exists d, v = Fin d /\ - (1) <= d /\ d <= 0) l ->
  dropna l = l.
Proof.
  intros H. unfold dropna. induction H as [|v l (d & -> & _) Hl IH]; simpl; auto.
  now rewrite IH.
Qed.

Lemma pd_min_in_unit (l : list fval) :
  l <> [] ->
  Forall (fun v => exists d, v = Fin d /\ - (1) <= d /\ d <= 0) l ->
  exists m, pd_min l = Fin m /\ - (1) <= m /\ m <= 0.
Proof.
  intros Hne H. unfold pd_min. rewrite (dropna_all_finite l H).
  destruct H as [|v l (d & -> & Hd1 & Hd2) Hl]; [congruence|].
  simpl. now apply fold_fmin_in_unit.
Qed.

Lemma drawdown_series_in_unit (xs : list fval) :
  xs <> [] -> Forall (fun v => exists q, v = Fin q /\ 0 < q) xs ->
  exists m,
    pd_min (map2 fdiv (map2 fsub (cumprod xs) (expanding_max (cumprod xs)))
                 (expanding_max (cumprod xs))) = Fin m /\
    - (1) <= m /\ m <= 0.
Proof.
  intros Hne Hx.
  pose proof (cumprod_positive xs Hx) as Hc.
  assert (Ep : prep_values (cumprod xs) = cumprod xs).
  { apply prep_values_fin_or_nan. eapply Forall_impl; [|exact Hc].
    intros v (q & -> & _). exact I. }
  apply pd_min_in_unit.
  - intros E. apply (f_equal (@length fval)) in E.
    rewrite !map2_length in E. unfold expanding_max in E.
    rewrite !scan_length, prep_values_length, cumprod_length in E.
    destruct xs; simpl in E; [congruence | lia].
  - apply drawdown_in_unit. unfold expanding_max. rewrite Ep.
    apply expanding_max_dominates; [exact Hc | now left].
Qed.

(** X19.  When every valid return is finite and above -100 %, the
    maxDrawdown returned by [risk_metrics] is a finite number in [-1, 0]. *)
Theorem max_drawdown_in_unit_interval :
  forall (fsqrt : Q -> Q) (returns : list fval) (rs : list Q),
    dropna returns = map Fin rs ->
    rs <> [] -> Forall (fun r => - (1) < r) rs ->
    exists d,
      max_drawdown (risk_metrics fsqrt returns) = Fin d /\
      - (1) <= d /\ d <= 0.
Proof.
  intros fsqrt returns rs Hclean Hne Hr. unfold risk_metrics.
  rewrite Hclean, length_map.
  replace (length rs =? 0)%nat with false
    by (symmetry; apply Nat.eqb_neq; destruct rs; simpl; [congruence | lia]).
  cbn [max_drawdown].
  destruct (drawdown_series_in_unit (map (fadd f1) (map Fin rs)))
    as (m & Em & Hm1 & Hm2).
  - destruct rs; [contradiction | discriminate].
  - rewrite map_map. apply Forall_map.
    eapply Forall_impl; [|exact Hr]. intros r Hr0. cbv beta in Hr0.
    exists (1 + r). split; [reflexivity | lra].
  - rewrite Em. now apply round4_within_unit.
Qed.

Lemma max_drawdown_in_unit_interval_witness :
  exists d,
    max_drawdown (risk_metrics sqrt_floor
                    [NaN; Fin (2 # 100); Fin (- (5 # 100)); Fin (1 # 100)])
    = Fin d /\
    - (1) <= d /\ d <= 0.
Proof.
  apply (max_drawdown_in_unit_interval sqrt_floor
           [NaN; Fin (2 # 100); Fin (- (5 # 100)); Fin (1 # 100)]
           [2 # 100; - (5 # 100); 1 # 100]).
  - reflexivity.
  - discriminate.
  - repeat constructor.
Defined.

(** ** Flat series *)

Lemma qsum_const (c : Q) (l : list Q) :
  Forall (fun x => x == c) l ->
  qsum l == inject_Z (Z.of_nat (length l)) * c.
Proof.
  intros H. induction H as [|x l Hx Hl IH].
  - simpl. ring.
  - cbn [qsum fold_right length]. fold (qsum l). rewrite IH, Hx.
    rewrite Nat2Z.inj_succ. unfold Z.succ. rewrite inject_Z_plus.
    change (inject_Z 1) with 1. ring.
Qed.

Lemma mean_const (c : Q) (l : list Q) :
  l <> [] -> Forall (fun x => x == c) l ->
  exists m, mean (map Fin l) = Fin m /\ m == c.
Proof.
  intros Hne H. destruct (mean_Fin l Hne) as (m & Em & Hm).
  exists m. split; [exact Em|]. rewrite Hm, (qsum_const c l H).
  assert (Hn : 0 < inject_Z (Z.of_nat (length l))).
  { apply inject_nat_pos. destruct l; simpl; [congruence | lia]. }
  field. lra.
Qed.

Lemma as_finite_list (P : Q -> Prop) (l : list fval) :
  Forall (fun v => exists q, v = Fin q /\ P q) l ->
  exists qs, l = map Fin qs /\ Forall P qs.
Proof.
  intros H. induction H as [|v l (q & -> & Hq) Hl (qs & -> & Hqs)].
  - exists []. split; [reflexivity | constructor].
  - exists (q :: qs). split; [reflexivity | now constructor].
Qed.

Lemma rolling_mean_const (c : Q) (w : nat) (xs : list Q) :
  Forall (fun x => x == c) xs ->
  Forall (fun v => v = NaN \/ exists q, v = Fin q /\ q == c)
         (rolling_mean w (map Fin xs)).
Proof.
  intros H. unfold rolling_mean.
  apply (rolling_Forall (fun v => exists q, v = Fin q /\ q == c)).
  - rewrite prep_values_Fin. apply Forall_map. eapply Forall_impl; [|exact H].
    intros x Hx. exists x. auto.
  - now left.
  - intros win Hwin _.
    destruct (as_finite_list _ _ Hwin) as (qs & -> & Hqs).
    destruct qs as [|q qs].
    + left. reflexivity.
    + right. apply mean_const; [discriminate | exact Hqs].
Qed.

Lemma Forall_skipn_gen {A : Type} (P : A -> Prop) n (l : list A) :
  Forall P l -> Forall P (skipn n l).
Proof.
  intros H. revert n; induction H; intros [|n]; simpl; auto.
Qed.

Lemma flat_diff (c : Q) (xs : list Q) :
  Forall (fun x => x == c) xs ->
  Forall (fun v => v = NaN \/ exists d, v = Fin d /\ d == 0)
         (diff (map Fin xs)).
Proof.
  intros H. unfold diff, shift.
  apply (Forall_map2 (fun v => exists q, v = Fin q /\ q == c)
                     (fun v => v = NaN \/ exists q, v = Fin q /\ q == c)).
  - intros x y (q & -> & Hq) [-> | (p & -> & Hp)]; [now left|].
    right. exists (q + - p). split; [reflexivity | lra].
  - apply Forall_map. eapply Forall_impl; [|exact H]. intros x Hx. eauto.
  - apply Forall_scan_shift; [now left|].
    apply Forall_map. eapply Forall_impl; [|exact H]. intros x Hx. eauto.
Qed.

Lemma flat_rsi_is_undefined (c : Q) (xs : list Q) (w : nat) :
  Forall (fun x => x == c) xs ->
  Forall (fun v => v = NaN) (rsi (map Fin xs) w).
Proof.
  intros H. unfold rsi, rsi_gain, rsi_loss.
  assert (Hg : exists gs,
             where_ (fun d => fgt d f0) f0 (diff (map Fin xs)) = map Fin gs /\
             Forall (fun x => x == 0) gs).
  { apply as_finite_list. unfold where_. apply Forall_map.
    eapply Forall_impl; [|exact (flat_diff c xs H)].
    intros v [-> | (d & -> & Hd)]; cbn.
    - exists 0. split; reflexivity.
    - assert (E : Qlt_bool 0 d = false) by (apply Qlt_bool_false; lra).
      rewrite E. exists 0. split; reflexivity. }
  assert (Hl : exists ls,
             map fneg (where_ (fun d => flt d f0) f0 (diff (map Fin xs)))
             = map Fin ls /\ Forall (fun x => x == 0) ls).
  { apply as_finite_list. unfold where_. rewrite map_map. apply Forall_map.
    eapply Forall_impl; [|exact (flat_diff c xs H)].
    intros v [-> | (d & -> & Hd)]; cbn.
    - exists (- 0). split; reflexivity.
    - assert (E : Qlt_bool d 0 = false) by (apply Qlt_bool_false; lra).
      rewrite E. exists (- 0). split; reflexivity. }
  destruct Hg as (gs & -> & Hgs). destruct Hl as (ls & -> & Hls).
  apply Forall_map.
  apply (Forall_map2
           (fun v => v = NaN \/ exists q, v = Fin q /\ q == 0)
           (fun v => v = NaN \/ exists q, v = Fin q /\ q == 0)).
  - intros g l [-> | (gq & -> & Hgq)] [-> | (lq & -> & Hlq)];
      try reflexivity.
    exact (rsi_point_both_zero gq lq Hgq Hlq).
  - now apply rolling_mean_const.
  - now apply rolling_mean_const.
Qed.

(** X20.  On a flat price series (all prices equal) neither rule-based
    strategy ever enters the market: the moving-average backtest, which
    returns whenever the short window is not longer than the series, has
    signal 0 at every bar (equal averages are a tie, and ties resolve to
    0), and so has the RSI backtest (RSI is undefined throughout). *)
Theorem flat_series_never_trades :
  forall (prices : list Q) (c : Q),
    Forall (fun p => p == c) prices ->
    (forall short_window long_window,
        (short_window <= length prices)%nat ->
        exists r,
          backtest_simple_strategy (map Fin prices) short_window long_window
          = Ok r /\
          length (signal r) = length prices /\
          Forall (fun v => v = f0) (signal r)) /\
    (forall rsi_period oversold overbought,
        Forall (fun v => v = f0)
          (signal (backtest_rsi_strategy (map Fin prices) rsi_period
                     oversold overbought))).
Proof.
  intros prices c H. split.
  - intros sw lw Hfit.
    destruct (backtest_simple_strategy_returns (map Fin prices) sw lw)
      as [r Hr]; [now rewrite length_map|].
    exists r. split; [exact Hr|].
    destruct (backtest_simple_strategy_inv _ _ _ _ Hr) as [_ ->].
    cbn [signal].
    split; [now rewrite crossover_signal_length, length_map|].
    unfold crossover_signal. apply Forall_app. split.
    + apply Forall_firstn_gen. apply Forall_map. apply Forall_forall.
      reflexivity.
    + apply (Forall_map2
               (fun v => v = NaN \/ exists q, v = Fin q /\ q == c)
               (fun v => v = NaN \/ exists q, v = Fin q /\ q == c)).
      * intros s l [-> | (sq & -> & Hs)] [-> | (lq & -> & Hl)];
          try reflexivity.
        unfold fgt. cbn [flt].
        assert (E : Qlt_bool lq sq = false) by (apply Qlt_bool_false; lra).
        now rewrite E.
      * apply Forall_skipn_gen. now apply rolling_mean_const.
      * apply Forall_skipn_gen. now apply rolling_mean_const.
  - intros w lo hi. cbn -[rsi]. unfold fillna, ffill. apply Forall_map.
    apply (Forall_scan_inv (fun s => s = NaN) (fun x => x = NaN)).
    + intros s x -> ->. cbn. auto.
    + reflexivity.
    + apply Forall_map.
      eapply Forall_impl; [|exact (flat_rsi_is_undefined c prices w H)].
      intros v ->. cbn. unfold fgt. now rewrite flt_nan_r.
Qed.

Lemma flat_series_never_trades_witness :
  exists r,
    backtest_simple_strategy (map Fin [10; 10; 10; 10]) 2 3 = Ok r /\
    length (signal r) = 4%nat /\
    Forall (fun v => v = f0) (signal r).
Proof.
  destruct (flat_series_never_trades [10; 10; 10; 10] 10) as [H _].
  - repeat constructor.
  - apply (H 2%nat 3%nat). simpl. lia.
Defined.

(** ** Risk parity orders the weights against the volatilities *)

Lemma risk_parity_formula fsqrt pinv (df : frame) (vols : list Q) :
  df <> [] ->
  map (fun c => std_sample fsqrt (col_values c)) df = map Fin vols ->
  Forall (fun s => 0 < s) vols ->
  let total := fold_left Qplus (map (fun s => 1 / s) vols) 0 in
  0 < total /\
  portfolio_weights fsqrt pinv df "risk_parity"%string
  = Ok (map Fin (map (fun s => 1 / s / total) vols)).
Proof.
  intros Hne Hv Hpos total.
  assert (Hiv : Forall (fun x => 0 < x) (map (fun s => 1 / s) vols)).
  { apply Forall_map. eapply Forall_impl; [|exact Hpos].
    intros s Hs. cbv beta in *. apply Qlt_shift_div_l; lra. }
  assert (Hne' : map (fun s => 1 / s) vols <> []).
  { destruct vols; [|discriminate].
    destruct df; [contradiction | discriminate]. }
  pose proof (fold_Qplus_pos _ Hne' Hiv) as HT. fold total in HT.
  split; [exact HT|].
  unfold portfolio_weights.
  change (String.eqb "risk_parity" "equal_weight") with false.
  change (String.eqb "risk_parity" "risk_parity") with true. cbv iota.
  rewrite Hv.
  assert (Einv : map (fdiv f1) (map Fin vols)
                 = map Fin (map (fun s => 1 / s) vols)).
  { rewrite !map_map. apply map_ext_in. intros s Hs.
    rewrite Forall_forall in Hpos. specialize (Hpos s Hs).
    unfold fdiv, f1.
    assert (E : Qzero_b s = false) by (apply Qzero_b_false; lra).
    now rewrite E. }
  rewrite Einv. unfold pd_sum. rewrite dropna_map_Fin.
  destruct (normalise_finite (map (fun s => 1 / s) vols)) as [E1 _];
    [unfold total in HT; lra|].
  rewrite E1. do 2 f_equal. apply map_map.
Qed.

Lemma inverse_share_antitone (a b total : Q) :
  0 < a -> a <= b -> 0 < total -> 1 / b / total <= 1 / a / total.
Proof.
  intros Ha Hab HT.
  assert (Hb : 0 < b) by lra.
  assert (Hba : 1 * a <= b) by lra.
  assert (E1 : 1 / a * b == b / a) by (field; lra).
  assert (E2 : 1 / a / total * total == 1 / a) by (field; split; lra).
  assert (H1 : 1 / b <= 1 / a).
  { apply Qle_shift_div_r; [exact Hb|].
    rewrite E1. apply Qle_shift_div_l; [exact Ha | exact Hba]. }
  apply Qle_shift_div_r; [exact HT|].
  rewrite E2. exact H1.
Qed.

(** X21.  Risk parity, when every asset has a finite positive sample
    standard deviation: an asset that is no more volatile than another
    gets at least the weight of the other. *)
Theorem risk_parity_orders_weights :
  forall (fsqrt : Q -> Q) (pinv : matrix -> matrix) (df : frame)
         (vols : list Q),
    df <> [] ->
    map (fun c => std_sample fsqrt (col_values c)) df = map Fin vols ->
    Forall (fun s => 0 < s) vols ->
    exists ws,
      portfolio_weights fsqrt pinv df "risk_parity"%string
      = Ok (map Fin ws) /\
      length ws = length df /\
      forall i j, (i < length df)%nat -> (j < length df)%nat ->
                  nth i vols 0 <= nth j vols 0 ->
                  nth j ws 0 <= nth i ws 0.
Proof.
  intros fsqrt pinv df vols Hne Hv Hpos.
  destruct (risk_parity_formula fsqrt pinv df vols Hne Hv Hpos) as [HT E].
  set (total := fold_left Qplus (map (fun s => 1 / s) vols) 0) in *.
  assert (Hlen : length vols = length df).
  { apply (f_equal (@length fval)) in Hv. now rewrite !length_map in Hv. }
  eexists. split; [exact E|]. split; [now rewrite length_map|].
  intros i j Hi Hj Hij.
  set (f := fun s => 1 / s / total).
  rewrite (nth_indep (map f vols) 0 (f 0)) by (rewrite length_map; lia).
  rewrite (nth_indep (map f vols) 0 (f 0)) by (rewrite length_map; lia).
  rewrite !map_nth. unfold f.
  apply inverse_share_antitone; auto.
  rewrite Forall_forall in Hpos. apply Hpos, nth_In. lia.
Qed.

Lemma risk_parity_orders_weights_witness :
  exists ws,
    portfolio_weights sqrt_floor pinv_greville correlated_assets
      "risk_parity"%string = Ok (map Fin ws) /\
    nth 1 ws 0 <= nth 0 ws 0.
Proof.
  destruct (risk_parity_orders_weights sqrt_floor pinv_greville
              correlated_assets
              [sqrt_floor (2 # 10000); sqrt_floor (8 # 10000)])
    as (ws & E & _ & H).
  - discriminate.
  - vm_compute. reflexivity.
  - repeat constructor.
  - exists ws. split; [exact E|].
    apply (H 0%nat 1%nat); [simpl; lia | simpl; lia |].
    vm_compute. discriminate.
Defined.

(** ** The zero-volatility guard *)

Lemma fold_Qplus_zero (l : list Q) :
  Forall (fun x => x == 0) l -> fold_left Qplus l 0 == 0.
Proof.
  intros H. induction H as [|x l Hx Hl IH]; [reflexivity|].
  rewrite fold_Qplus_cons, IH, Hx. ring.
Qed.

Lemma sum_sq_dev_const (c : Q) (rs : list Q) :
  rs <> [] -> Forall (fun x => x == c) rs ->
  exists s, sum_sq_dev (map Fin rs) = Fin s /\ s == 0.
Proof.
  intros Hne H. unfold sum_sq_dev.
  destruct (mean_const c rs Hne H) as (m & Em & Hm). rewrite Em.
  rewrite map_map.
  assert (E : map (fun x => fmul (fsub (Fin x) (Fin m)) (fsub (Fin x) (Fin m)))
                  rs
              = map Fin (map (fun x => (x + - m) * (x + - m)) rs))
    by (now rewrite map_map).
  rewrite E, np_sum_Fin. eexists. split; [reflexivity|].
  apply fold_Qplus_zero. apply Forall_map.
  eapply Forall_impl; [|exact H]. intros x Hx. cbv beta in *.
  rewrite Hx, Hm. ring.
Qed.

Lemma std_sample_const (fsqrt : Q -> Q) (c : Q) (rs : list Q) :
  (forall q, q == 0 -> fsqrt q == 0) ->
  (2 <= length rs)%nat -> Forall (fun x => x == c) rs ->
  exists z, std_sample fsqrt (map Fin rs) = Fin z /\ z == 0.
Proof.
  intros Hs Hlen H. unfold std_sample, var_sample. rewrite length_map.
  replace (length rs <=? 1)%nat with false
    by (symmetry; apply Nat.leb_gt; lia).
  destruct (sum_sq_dev_const c rs) as (s & Es & Hs0); auto.
  { intros E. rewrite E in Hlen. simpl in Hlen. lia. }
  rewrite Es. unfold fdiv, fnat.
  pose proof (inject_nat_pos (length rs - 1) ltac:(lia)) as Hp.
  assert (E : Qzero_b (inject_Z (Z.of_nat (length rs - 1))) = false)
    by (apply Qzero_b_false; lra).
  rewrite E. unfold np_sqrt, Qneg_b.
  assert (Hv : s / inject_Z (Z.of_nat (length rs - 1)) == 0).
  { rewrite Hs0. field. lra. }
  assert (En : Qlt_bool (s / inject_Z (Z.of_nat (length rs - 1))) 0 = false)
    by (apply Qlt_bool_false; lra).
  rewrite En. eexists. split; [reflexivity|]. now apply Hs.
Qed.

Lemma round4_zero (z : Q) : z == 0 -> feq (round4 (Fin z)) f0.
Proof.
  intros H. simpl.
  rewrite (round_half_even_comp (z * 10000) 0) by (rewrite H; ring).
  reflexivity.
Qed.

(** X22.  For a square root that maps 0 to 0: when exactly two valid
    returns remain and they are equal, [risk_metrics] returns
    annualVolatility 0 and, through its guard on a zero volatility,
    sharpeRatio 0 (no division by zero takes place).  With two equal
    values the mean is their common value and both deviations are 0
    without any rounding, so the guard sees an exact 0. *)
Theorem two_equal_returns_zero_sharpe :
  forall (fsqrt : Q -> Q) (returns : list fval) (c : Q),
    (forall q, q == 0 -> fsqrt q == 0) ->
    dropna returns = [Fin c; Fin c] ->
    let m := risk_metrics fsqrt returns in
    feq (annual_volatility m) f0 /\ feq (sharpe_ratio m) f0.
Proof.
  intros fsqrt returns c Hs Hclean m. unfold m, risk_metrics.
  rewrite Hclean. cbn [length Nat.eqb].
  cbn [annual_volatility sharpe_ratio].
  destruct (std_sample_const fsqrt c [c; c] Hs) as (z & Ez & Hz).
  { simpl. lia. }
  { repeat constructor; reflexivity. }
  cbn [map] in Ez. rewrite Ez. unfold f252, np_sqrt at 1 2.
  change (Qneg_b 252) with false. cbv iota. cbn [fmul].
  assert (Hv : z * fsqrt 252 == 0) by (rewrite Hz; ring).
  unfold fneb, feqb, f0.
  assert (E : Qeq_bool (z * fsqrt 252) 0 = true) by (now apply Qeq_bool_iff).
  rewrite E. cbn [negb]. split.
  - now apply round4_zero.
  - apply round4_zero. reflexivity.
Qed.

Lemma two_equal_returns_zero_sharpe_witness :
  let m := risk_metrics sqrt_floor [NaN; Fin (1 # 100); Fin (1 # 100)] in
  feq (annual_volatility m) f0 /\ feq (sharpe_ratio m) f0.
Proof.
  apply (two_equal_returns_zero_sharpe sqrt_floor
           [NaN; Fin (1 # 100); Fin (1 # 100)] (1 # 100)).
  - intros q Hq. unfold sqrt_floor.
    assert (E : Qred q = Qred 0) by (now apply Qred_complete).
    rewrite E. reflexivity.
  - reflexivity.
Defined.

(** ** The crossover rule by position *)

Lemma nth_splice {A : Type} (k t : nat) (a b : list A) (d : A) :
  length a = length b ->
  nth t (firstn k a ++ skipn k b) d
  = if (t <? k)%nat then nth t a d else nth t b d.
Proof.
  revert t a b; induction k as [|k IH]; intros t a b H.
  - reflexivity.
  - destruct a as [|x a], b as [|y b]; simpl in H; try discriminate.
    + simpl. destruct t; destruct (_ <? _)%nat; reflexivity.
    + destruct t as [|t]; [reflexivity|].
      change (S t <? S k)%nat with (t <? k)%nat.
      cbn [firstn skipn app nth]. apply IH. congruence.
Qed.

(** X23.  The moving-average backtest returns whenever the short window
    is not longer than the series, and the signal of the frame at bar t
    is: 0 at the bars before index [short_window]; from that index on, 1
    when the short average is strictly above the long one and 0 otherwise,
    an undefined average included. *)
Theorem crossover_signal_by_position :
  forall (data : list fval) (short_window long_window : nat),
    (short_window <= length data)%nat ->
    exists r,
      backtest_simple_strategy data short_window long_window = Ok r /\
      length (signal r) = length data /\
      forall t, (t < length data)%nat ->
        nth t (signal r) NaN
        = if (t <? short_window)%nat then f0
          else if fgt (nth t (simple_moving_average data short_window) NaN)
                      (nth t (simple_moving_average data long_window) NaN)
               then f1 else f0.
Proof.
  intros data sw lw Hfit.
  destruct (backtest_simple_strategy_returns data sw lw Hfit) as [r Hr].
  exists r. split; [exact Hr|].
  destruct (backtest_simple_strategy_inv _ _ _ _ Hr) as [_ ->].
  cbn [signal]. split; [apply crossover_signal_length|].
  intros t Ht. unfold simple_moving_average, crossover_signal.
  rewrite <- skipn_map2.
  rewrite nth_splice
    by (rewrite length_map, map2_length, !rolling_mean_length; lia).
  destruct (t <? sw)%nat.
  - now apply nth_const_map.
  - rewrite (nth_map2 (fun s l => if fgt s l then f1 else f0) _ _
               t NaN NaN NaN)
      by (rewrite rolling_mean_length; lia).
    reflexivity.
Qed.

Lemma crossover_signal_by_position_witness :
  exists r,
    backtest_simple_strategy (map Fin [10; 11; 12; 11; 10]) 2 3 = Ok r /\
    nth 2 (signal r) NaN = f1.
Proof.
  destruct (crossover_signal_by_position (map Fin [10; 11; 12; 11; 10]) 2 3)
    as (r & Hr & _ & H).
  - simpl. lia.
  - exists r. split; [exact Hr|].
    rewrite (H 2%nat) by (simpl; lia). reflexivity.
Defined.

(** ** The equity curves of the request layer *)

Lemma fillna_no_nan (d : fval) (l : list fval) :
  is_nan d = false -> Forall (fun v => is_nan v = false) (fillna d l).
Proof.
  intros Hd. unfold fillna. apply Forall_map. apply Forall_forall.
  intros x _. destruct (is_nan x) eqn:E; auto.
Qed.

Lemma lagged_product_first (sig ret : list fval) :
  nth 0 (map2 fmul (shift sig) ret) NaN = NaN.
Proof. destruct sig, ret; reflexivity. Qed.

Lemma run_backtest_first_strategy_return s data r :
  run_backtest s data = Ok r -> nth 0 (strategy_returns r) NaN = NaN.
Proof.
  destruct s as [sw lw | w lo hi | ]; simpl; intros H.
  - destruct (backtest_simple_strategy_inv _ _ _ _ H) as [_ ->].
    cbn [strategy_returns]. apply lagged_product_first.
  - injection H as <-.
    change (strategy_returns (backtest_rsi_strategy data w (Fin lo) (Fin hi)))
      with (map2 fmul
              (shift (signal (backtest_rsi_strategy data w (Fin lo) (Fin hi))))
              (pct_change data)).
    apply lagged_product_first.
  - destruct (backtest_buy_and_hold_inv _ _ H) as [Hne ->].
    cbn [strategy_returns].
    destruct data as [|x data]; [contradiction|]. simpl. now destruct x.
Qed.

(** X24.  On a nonempty series the backtest endpoint fails (the engine
    raises ValueError) in the moving-average variant with a short window
    longer than the series; in every other case, for every variant, the
    two equity curves it returns have the length of the input, hold no
    missing value, and start at 1. *)
Theorem equity_curves_start_at_one :
  forall (s : strategy) (data : list fval),
    data <> [] ->
    (short_window_fits s (length data) = false ->
     run_backtest s data = Raise ValueError) /\
    (short_window_fits s (length data) = true ->
     exists r,
       run_backtest s data = Ok r /\
       length (strategy_equity r) = length data /\
       length (benchmark_equity r) = length data /\
       Forall (fun v => is_nan v = false) (strategy_equity r) /\
       Forall (fun v => is_nan v = false) (benchmark_equity r) /\
       nth 0 (strategy_equity r) NaN = f1 /\
       nth 0 (benchmark_equity r) NaN = f1).
Proof.
  intros s data Hne. split; [apply run_backtest_raises|].
  intros Hfit. destruct (run_backtest_total s data Hne Hfit) as [r Hr].
  destruct (backtest_frame_facts s data r Hr)
    as (_ & _ & _ & _ & _ & _ & Lb & Ls).
  exists r. split; [exact Hr|].
  assert (Hlen : (0 < length data)%nat)
    by (destruct data; simpl; [congruence | lia]).
  unfold strategy_equity, benchmark_equity.
  split; [unfold fillna; now rewrite length_map|].
  split; [unfold fillna; now rewrite length_map|].
  split; [now apply fillna_no_nan|]. split; [now apply fillna_no_nan|].
  rewrite !nth_fillna by lia.
  assert (E1 : nth 0 (cumulative_returns r) NaN = NaN).
  { rewrite (run_backtest_benchmark _ _ _ Hr).
    destruct data as [|x data]; [contradiction|]. simpl. now destruct x. }
  assert (E2 : nth 0 (cumulative_strategy_returns r) NaN = NaN).
  { pose proof (run_backtest_first_strategy_return _ _ _ Hr) as E.
    assert (Ec : cumulative_strategy_returns r
                 = cumprod (map (fadd f1) (strategy_returns r))).
    { destruct s as [sw lw | w lo hi | ]; simpl in Hr.
      - now destruct (backtest_simple_strategy_inv _ _ _ _ Hr) as [_ ->].
      - now injection Hr as <-.
      - now destruct (backtest_buy_and_hold_inv _ _ Hr) as [_ ->]. }
    rewrite Ec. destruct (strategy_returns r) as [|y ys]; [reflexivity|].
    simpl in E. subst y. reflexivity. }
  now rewrite E1, E2.
Qed.

Lemma equity_curves_start_at_one_witness :
  (exists r,
      run_backtest (MovingAverage 2 3) (map Fin [10; 11; 12]) = Ok r /\
      nth 0 (strategy_equity r) NaN = f1) /\
  run_backtest (MovingAverage 5 20) (map Fin [10; 11; 12]) = Raise ValueError.
Proof.
  split.
  - destruct (equity_curves_start_at_one (MovingAverage 2 3)
                (map Fin [10; 11; 12])) as (_ & H); [discriminate|].
    destruct H as (r & Hr & _ & _ & _ & _ & H & _); [reflexivity|].
    exists r. split; [exact Hr | exact H].
  - destruct (equity_curves_start_at_one (MovingAverage 5 20)
                (map Fin [10; 11; 12])) as (H & _); [discriminate|].
    apply H. reflexivity.
Defined.
